(** * GeradorDeSenhas: the password core of [app_senhas_gui.py]

    A shallow embedding of [gerar_senha] and [gerar_lista] together with the
    constants they use, and the properties of the generator proved over it.

    Modelling choices.
    - Python integers are unbounded: [length] and [qtd] are [Z].
    - A Python [str] is a [string]; a list of one-character strings (as
      [partes]) is a [list ascii]; the messages of the exceptions are kept as
      the bytes of their UTF-8 encoding.
    - [secrets.choice] and [sysrand.shuffle] draw from the operating system's
      entropy source.  The source is modelled by the sequence of outcomes it
      is going to deliver, [outcomes], and the number of draws made so far,
      [drawn]: [randbelow n] can return every value below [n] at every call,
      and each such run is the run of some [Rng].  What holds on every run
      is proved for every [Rng].  Where the uniform source of the design
      matters (the loop of line 68 ends with probability 1), the runs of
      [k] calls of [gerar_senha] are counted: a run is the list of the
      results of its draws, one below the bound of each, and each run is as
      likely as any other ([corridas]).
    - [raise ValueError(msg)] is the outcome [Raised (ValueError msg)].  The
      [while] loop of line 36 is a recursion on the characters still missing;
      the [while] loop of line 68 has no bound in the source and is run on
      fuel, [Diverged] being the outcome of a run that the fuel did not
      finish.
    - The [set] of line 67 is a [gset string]; [list(senhas)] is [elements],
      whose order is as unspecified as the iteration order of a Python set. *)

From stdpp Require Import gmap strings list pretty.
From Stdlib Require Import ZArith Ascii String.
From Equations Require Import Equations.

Local Open Scope Z_scope.

(** ** The entropy source *)

Record Rng := mkRng { outcomes : nat → nat; drawn : nat }.

(** A computation that only draws. *)
Definition R (A : Type) : Type := Rng → A * Rng.

(** [random.Random._randbelow(n)] for [0 < n]. *)
Definition randbelow (n : nat) : R nat := λ g,
  ((outcomes g (drawn g) `mod` n)%nat, mkRng (outcomes g) (S (drawn g))).

Definition chars (s : string) : list ascii := list_ascii_of_string s.
Definition join (partes : list ascii) : string := string_of_list_ascii partes.

(** [secrets.choice(seq)] is [seq[randbelow(len(seq))]].  On the empty
    sequence Python raises; every call below passes a non-empty constant, so
    the index is in range and the default of [nth] is never read. *)
Definition choice (seq : string) : R ascii := λ g,
  let '(i, g') := randbelow (String.length seq) g in
  (nth i (chars seq) Ascii.zero, g').

(** [x[i], x[j] = x[j], x[i]]: the right-hand side is read first, then
    [x[i]] and [x[j]] are assigned in this order.  Out of range Python
    raises [IndexError]; the shuffle only swaps below [len(x)]. *)
Definition swap (x : list ascii) (i j : nat) : list ascii :=
  match x !! j, x !! i with
  | Some xj, Some xi => <[j:=xi]> (<[i:=xj]> x)
  | _, _ => x
  end.

(** The loop of [random.Random.shuffle]:
    [for i in reversed(range(1, len(x))): j = randbelow(i + 1); swap]. *)
Fixpoint shuffle_from (i : nat) (x : list ascii) : R (list ascii) := λ g,
  match i with
  | O => (x, g)
  | S i' => let '(j, g') := randbelow (S i) g in shuffle_from i' (swap x i j) g'
  end.

Definition shuffle (x : list ascii) : R (list ascii) :=
  shuffle_from (List.length x - 1) x.

(** [c for _ in range(n)] over a drawing computation. *)
Fixpoint repeatR {A} (n : nat) (m : R A) : R (list A) := λ g,
  match n with
  | O => ([], g)
  | S n' => let '(a, g1) := m g in
            let '(l, g2) := repeatR n' m g1 in (a :: l, g2)
  end.

(** ** Exceptions, outcomes and the monad of the two functions *)

Inductive exn := ValueError (msg : string).

Inductive outcome (A : Type) :=
| Returned (a : A)
| Raised (e : exn)
| Diverged.
Arguments Returned {A} a.
Arguments Raised {A} e.
Arguments Diverged {A}.

Definition M (A : Type) : Type := Rng → outcome A * Rng.

Definition ret {A} (a : A) : M A := λ g, (Returned a, g).
Definition raise {A} (e : exn) : M A := λ g, (Raised e, g).
Definition diverge {A} : M A := λ g, (Diverged, g).
Definition lift {A} (m : R A) : M A := λ g, let '(a, g') := m g in (Returned a, g').
Definition bind {A B} (m : M A) (k : A → M B) : M B := λ g,
  match m g with
  | (Returned a, g') => k a g'
  | (Raised e, g') => (Raised e, g')
  | (Diverged, g') => (Diverged, g')
  end.

Notation "'let*' x ':=' m 'in' k" := (bind m (λ x, k))
  (at level 10, x name, m at level 100, k at level 200).

(** [[m for _ in range(n)]] where [m] may raise. *)
Fixpoint repeatM {A} (n : nat) (m : M A) : M (list A) :=
  match n with
  | O => ret []
  | S n' => let* a := m in let* l := repeatM n' m in ret (a :: l)
  end.

(** ** Configuration (lines 9 to 13) *)

Definition digits : string := "0123456789".
Definition ascii_uppercase : string := "ABCDEFGHIJKLMNOPQRSTUVWXYZ".
Definition ascii_lowercase : string := "abcdefghijklmnopqrstuvwxyz".

Definition CHARSET : string := digits +:+ ascii_uppercase +:+ ascii_lowercase.
Definition MIN_LENGTH : Z := 1.
Definition MAX_LENGTH : Z := 64.
Definition DEFAULT_LENGTH : Z := 5.

(** ** The messages of the four [ValueError]s *)

Definition msg_comprimento : string :=
  "Comprimento inválido. Use entre " +:+ pretty MIN_LENGTH +:+ " e "
    +:+ pretty MAX_LENGTH +:+ ".".
Definition msg_composicao : string :=
  "Para exigir composição mínima, use comprimento ≥ 3.".
Definition msg_quantidade : string :=
  "Informe uma quantidade entre 1 e 10.000.".
Definition msg_unicas (qtd total_combinacoes length : Z) : string :=
  "Você solicitou " +:+ pretty qtd +:+ " senhas únicas, mas só existem "
    +:+ pretty total_combinacoes +:+ " combinações possíveis "
    +:+ "para comprimento " +:+ pretty length
    +:+ ". Reduza a quantidade ou aumente o comprimento.".

(** The error kinds of the specification are these exceptions. *)
Definition InvalidLength : exn := ValueError msg_comprimento.
Definition InsufficientLengthForPolicy : exn := ValueError msg_composicao.
Definition InvalidCount : exn := ValueError msg_quantidade.
Definition InfeasibleUniqueRequest (qtd total_combinacoes length : Z) : exn :=
  ValueError (msg_unicas qtd total_combinacoes length).

(** ** [gerar_senha] (lines 16 to 40) *)

(** [while len(partes) < length: partes.append(secrets.choice(CHARSET))] *)
Equations completa (length : Z) (partes : list ascii) (g : Rng) : list ascii * Rng
  by wf (Z.to_nat (length - Z.of_nat (List.length partes))) lt :=
completa length partes g with Z_lt_dec (Z.of_nat (List.length partes)) length := {
  | left _ => completa length (partes ++ [(choice CHARSET g).1]) (choice CHARSET g).2
  | right _ => (partes, g)
}.
Next Obligation. rewrite length_app. simpl. lia. Qed.

Definition gerar_senha (length : Z) (require_all : bool) : M string :=
  if (length <? MIN_LENGTH) || (length >? MAX_LENGTH) then raise InvalidLength
  else if require_all && (length <? 3) then raise InsufficientLengthForPolicy
  else if negb require_all then
    let* cs := lift (repeatR (Z.to_nat length) (choice CHARSET)) in ret (join cs)
  else
    let* d := lift (choice digits) in
    let* u := lift (choice ascii_uppercase) in
    let* l := lift (choice ascii_lowercase) in
    let* partes := lift (completa length [d; u; l]) in
    let* partes := lift (shuffle partes) in
    ret (join partes).

(** ** [gerar_lista] (lines 42 to 70) *)

(** [while len(senhas) < qtd: senhas.add(gerar_senha(...))] *)
Fixpoint unicas (fuel : nat) (qtd length : Z) (require_all : bool)
    (senhas : gset string) : M (gset string) :=
  if Z.of_nat (size senhas) <? qtd then
    match fuel with
    | O => diverge
    | S fuel' =>
        let* s := gerar_senha length require_all in
        unicas fuel' qtd length require_all ({[s]} ∪ senhas)
    end
  else ret senhas.

Definition gerar_lista (fuel : nat) (qtd length : Z) (unique require_all : bool)
    : M (list string) :=
  if (qtd <? 1) || (qtd >? 10000) then raise InvalidCount
  else if (length <? MIN_LENGTH) || (length >? MAX_LENGTH) then raise InvalidLength
  else if require_all && (length <? 3) then raise InsufficientLengthForPolicy
  else
    let total_combinacoes := Z.of_nat (String.length CHARSET) ^ length in
    if unique && (qtd >? total_combinacoes) then
      raise (InfeasibleUniqueRequest qtd total_combinacoes length)
    else if negb unique then
      repeatM (Z.to_nat qtd) (gerar_senha length require_all)
    else
      let* senhas := unicas fuel qtd length require_all ∅ in
      ret (elements senhas).

Arguments randbelow : simpl never.
Arguments choice : simpl never.

(** * The vocabulary of the statements *)

(** ** The contract of one password and the checks *)

(** Every character of [s] is a character of [CHARSET]. *)
Definition in_alphabet (s : string) : Prop :=
  Forall (λ c, c ∈ chars CHARSET) (chars s).

(** [s] holds a character of the class [cls] ([digits], [ascii_uppercase] or
    [ascii_lowercase]). *)
Definition has_class (cls s : string) : Prop :=
  ∃ c, c ∈ chars s ∧ c ∈ chars cls.

Definition all_classes (s : string) : Prop :=
  has_class digits s ∧ has_class ascii_uppercase s ∧ has_class ascii_lowercase s.

(** What one password owes to its policy. *)
Definition contract (length : Z) (require_all : bool) (s : string) : Prop :=
  Z.of_nat (String.length s) = length
  ∧ in_alphabet s
  ∧ (require_all = true → all_classes s).

(** The lengths and policies that [gerar_senha] accepts (lines 21 to 24). *)
Definition valid_policy (length : Z) (require_all : bool) : Prop :=
  MIN_LENGTH ≤ length ≤ MAX_LENGTH ∧ (require_all = true → 3 ≤ length).

(** [str(e)] *)
Definition message (e : exn) : string := match e with ValueError msg => msg end.

(** Lines 47 to 61: the checks, which read the parameters only. *)
Definition validacao (qtd length : Z) (unique require_all : bool) : option exn :=
  if (qtd <? 1) || (qtd >? 10000) then Some InvalidCount
  else if (length <? MIN_LENGTH) || (length >? MAX_LENGTH) then Some InvalidLength
  else if require_all && (length <? 3) then Some InsufficientLengthForPolicy
  else
    let total_combinacoes := Z.of_nat (String.length CHARSET) ^ length in
    if unique && (qtd >? total_combinacoes) then
      Some (InfeasibleUniqueRequest qtd total_combinacoes length)
    else None.

(** Lines 63 to 70: the generation. *)
Definition geracao (fuel : nat) (qtd length : Z) (unique require_all : bool)
    : M (list string) :=
  if negb unique then repeatM (Z.to_nat qtd) (gerar_senha length require_all)
  else
    let* senhas := unicas fuel qtd length require_all ∅ in
    ret (elements senhas).

(** The class-covering branch, as the composition of its five steps. *)
Definition partes_iniciais (g : Rng) : list ascii * Rng :=
  let '(d, g1) := choice digits g in
  let '(u, g2) := choice ascii_uppercase g1 in
  let '(l, g3) := choice ascii_lowercase g2 in
  ([d; u; l], g3).

Definition senha_composta (length : Z) (g : Rng) : list ascii * Rng :=
  let '(p0, g3) := partes_iniciais g in
  let '(p1, g4) := completa length p0 g3 in
  shuffle p1 g4.

(** The number of draws of one call of [gerar_senha]: [length] choices, or
    3 class choices, [length - 3] filling choices and [length - 1] steps of
    the shuffle. *)
Definition draws (length : Z) (require_all : bool) : nat :=
  if require_all then Z.to_nat (2 * length - 1) else Z.to_nat length.

(** The first [n] passwords that a source yields. *)
Fixpoint geradas (n : nat) (length : Z) (require_all : bool) (g : Rng) : list string :=
  match n with
  | O => []
  | S n' =>
      match gerar_senha length require_all g with
      | (Returned s, g') => s :: geradas n' length require_all g'
      | _ => []
      end
  end.

(** [set(l)] *)
Definition conjunto (l : list string) : gset string := list_to_set l.

(** ** Sources that deliver chosen passwords *)

(** [seq[i]] *)
Definition char_at (seq : string) (i : nat) : ascii := nth i (chars seq) Ascii.zero.

(** The digits of [t] in base 62, least significant first. *)
Fixpoint base62 (n t : nat) : list nat :=
  match n with
  | O => []
  | S n' => (t `mod` 62)%nat :: base62 n' (t / 62)%nat
  end.

(** The [r]-th draw of a run of [gerar_senha] that produces the password of
    number [t].  Without [require_all] the draws are the base-62 digits of
    [t].  With it, the three class draws carry [t], the filling draws are 0,
    the shuffle leaves every position where it is (draw [i] at index [i]) but
    for its last step, which exchanges the first two characters when
    [26 * 260 <= t]. *)
Definition code (length : Z) (require_all : bool) (t r : nat) : nat :=
  let n := Z.to_nat length in
  if require_all then
    if (r =? 0)%nat then (t `mod` 10)%nat
    else if (r =? 1)%nat then ((t / 10) `mod` 26)%nat
    else if (r =? 2)%nat then ((t / 260) `mod` 26)%nat
    else if (r <? n)%nat then 0%nat
    else if (r <? 2 * n - 2)%nat then (2 * n - 1 - r)%nat
    else if (t / (26 * 260) =? 0)%nat then 1%nat else 0%nat
  else nth r (base62 n t) 0%nat.

(** The password of number [t]. *)
Definition alvo (length : Z) (require_all : bool) (t : nat) : string :=
  let n := Z.to_nat length in
  if require_all then
    let d := char_at digits (t `mod` 10) in
    let u := char_at ascii_uppercase ((t / 10) `mod` 26) in
    let l := char_at ascii_lowercase ((t / 260) `mod` 26) in
    join ((if (t / (26 * 260) =? 0)%nat then [d; u] else [u; d])
          ++ l :: repeat (char_at CHARSET 0) (n - 3))
  else join (List.map (char_at CHARSET) (base62 n t)).

(** The passwords that [alvo] numbers: 62^length of them without
    [require_all], and 2 * 10 * 26 * 26 with it. *)
Definition numeradas (length : Z) (require_all : bool) : Z :=
  if require_all then 13520 else 62 ^ length.

(** The source that has delivered what [g] has delivered so far and goes on
    with the draws of the passwords of numbers [f 0], [f 1], ... *)
Definition fonte (length : Z) (require_all : bool) (f : nat → nat) (g : Rng) : Rng :=
  let k := draws length require_all in
  mkRng (λ p, if (p <? drawn g)%nat then outcomes g p
              else code length require_all (f ((p - drawn g) / k)%nat)
                        ((p - drawn g) `mod` k)%nat)
        (drawn g).

(** The state of a source after [i] passwords. *)
Definition apos (length : Z) (require_all : bool) (i : nat) (g : Rng) : Rng :=
  mkRng (outcomes g) (drawn g + i * draws length require_all).

(** Two sources for the examples: the one that delivers 0, 1, 2, ... and the
    one that delivers 0 at every draw. *)
Definition ids : Rng := mkRng (λ k, k) 0.

Definition zeros : Rng := mkRng (λ _, 0%nat) 0.

(** ** Numbers and draws of a given password *)

(** The number whose base-62 digits, least significant first, are [l]. *)
Fixpoint from62 (l : list nat) : nat :=
  match l with
  | [] => 0%nat
  | d :: l' => (d + 62 * from62 l')%nat
  end.

(** The source that delivers the draws [ds] and then 0 for ever. *)
Definition fonte_de (ds : list nat) : Rng := mkRng (λ r, nth r ds 0%nat) 0.

(** ** The runs of a uniform source

    A uniform source gives every call [randbelow n] each of the [n] results
    below [n] with the same probability, whatever was drawn before.  The
    results of the calls of [randbelow] that [k] calls of [gerar_senha] make
    are then one of the lists of [corridas k], each as likely as any other,
    and the probability of an event after [k] calls is the number of the
    runs of [corridas k] in it over the number of all of them. *)

(** The bound [n] of the [r]-th call [randbelow n] of one call of
    [gerar_senha]: 62 for a choice from [CHARSET] (line 27); with
    [require_all], 10, 26 and 26 for the three class choices (lines 31 to
    33), 62 for the filling (line 37) and [i + 1] for the step [i] of the
    shuffle (line 39), [i] going from [length - 1] down to 1. *)
Definition faixa (length : Z) (require_all : bool) (r : nat) : nat :=
  let n := Z.to_nat length in
  if require_all then
    if (r =? 0)%nat then 10%nat
    else if (r <? 3)%nat then 26%nat
    else if (r <? n)%nat then 62%nat
    else (2 * n - r)%nat
  else 62%nat.

(** The lists of results, one below each bound of [fs]. *)
Fixpoint palavras (fs : list nat) : list (list nat) :=
  match fs with
  | [] => [[]]
  | n :: fs' => r ← seq 0 n; (r ::.) <$> palavras fs'
  end.

(** A list of [A] followed by a list of [B]. *)
Definition produto (A B : list (list nat)) : list (list nat) :=
  u ← A; (u ++.) <$> B.

(** The results of the draws of one call of [gerar_senha]. *)
Definition chamada (length : Z) (require_all : bool) : list (list nat) :=
  palavras (faixa length require_all <$> seq 0 (draws length require_all)).

(** The results of the draws of [k] calls, one after the other. *)
Fixpoint corridas (k : nat) (length : Z) (require_all : bool) : list (list nat) :=
  match k with
  | O => [[]]
  | S k' => produto (corridas k' length require_all) (chamada length require_all)
  end.

(** On the run [w] the loop of line 68 is still running after [k] calls of
    [gerar_senha]. *)
Definition pendente (k : nat) (qtd length : Z) (require_all : bool)
    (w : list nat) : bool :=
  match (gerar_lista k qtd length true require_all (fonte_de w)).1 with
  | Diverged => true
  | _ => false
  end.

(** The draws of the password of number [t], and the run of [k] calls that
    gives the passwords of numbers 0 to [k - 1]. *)
Definition bloco (length : Z) (require_all : bool) (t : nat) : list nat :=
  code length require_all t <$> seq 0 (draws length require_all).

Fixpoint primeiras (k : nat) (length : Z) (require_all : bool) : list nat :=
  match k with
  | O => []
  | S k' => primeiras k' length require_all ++ bloco length require_all k'
  end.

(** * The shell: export, clipboard and the event loop (lines 72 to 236)

    What the shell takes from outside the file is gathered in [Host]: the
    Python built-ins [int], [str.strip] and [str.splitlines], which are
    Unicode-aware and are left as parameters, and the platform.  The window
    is the text of its [-OUT-] element; [sg.popup], [sg.popup_error] and the
    actions on the operating system are recorded in the order they happen. *)

Definition LF : ascii := "010"%char.
Definition CR : ascii := "013"%char.
Definition ASPAS : ascii := "034"%char.
Definition CRLF : string := String CR (String LF EmptyString).

(** ** [csv.writer] with the default dialect

    Delimiter comma, quote character the double quote, line terminator
    [\r\n], minimal
    quoting: a field is quoted when it holds the delimiter, the quote
    character, [\r] or [\n], quotes inside are doubled, and a row of one
    empty field is written as two quotes. *)

Definition precisa_aspas (campo : string) : bool :=
  existsb (λ c, bool_decide (c ∈ [","%char; ASPAS; CR; LF])) (chars campo).

Definition duplica_aspas (cs : list ascii) : list ascii :=
  flat_map (λ c, if bool_decide (c = ASPAS) then [ASPAS; ASPAS] else [c]) cs.

Definition campo_csv (campo : string) : string :=
  if precisa_aspas campo
  then join (ASPAS :: duplica_aspas (chars campo) ++ [ASPAS])
  else campo.

Definition writerow (row : list string) : string :=
  match row with
  | [campo] => if bool_decide (campo = EmptyString) then join [ASPAS; ASPAS]
               else campo_csv campo
  | _ => String.concat "," (campo_csv <$> row)
  end +:+ CRLF.

(** ** The files

    [open(caminho, 'w')] either is refused by the operating system or
    gives a file that starts empty and takes every write. *)

Record Disco := mkDisco {
  arquivos : gmap string string;
  gravavel : string → bool
}.

Inductive io (A : Type) :=
| Feito (a : A)
| OSError.
Arguments Feito {A} a.
Arguments OSError {A}.

(** What the file holds when [salvar_csv] is done: the header row and one
    row for each password (lines 75 to 78). *)
Definition conteudo_csv (senhas : list string) : string :=
  foldl (λ f s, f +:+ writerow [s]) (EmptyString +:+ writerow ["senha"]) senhas.

(** [salvar_csv] (lines 72 to 78) *)
Definition salvar_csv (caminho : string) (senhas : list string) (d : Disco)
    : io Disco :=
  if gravavel d caminho
  then Feito (mkDisco (<[caminho := conteudo_csv senhas]> (arquivos d)) (gravavel d))
  else OSError.

(** ** The host *)

Record Host := mkHost {
  py_int : string → option Z;          (* [int(s)], [None] for [ValueError] *)
  py_strip : string → string;          (* [s.strip()] *)
  py_splitlines : string → list string;(* [s.splitlines()] *)
  os_basename : string → string;       (* [os.path.basename] *)
  os_pasta : string → string;          (* [os.path.dirname(os.path.abspath(p))] *)
  os_name : string;
  sys_platform : string;
  os_strerror : string → string        (* [str(e)] of the error of [open] *)
}.

(** ** [abrir_pasta_do_arquivo] (lines 80 to 93)

    The action it asks of the operating system, if any; whatever the action
    raises is swallowed by the [except] of line 92. *)

Inductive acao :=
| Startfile (pasta : string)
| SubprocessRun (args : list string).

Definition abrir_pasta_do_arquivo (h : Host) (caminho : string) : option acao :=
  let pasta := os_pasta h caminho in
  if bool_decide (os_name h = "nt") then Some (Startfile pasta)
  else if bool_decide (os_name h = "posix") then
    if bool_decide (sys_platform h = "darwin")
    then Some (SubprocessRun ["open"; pasta])
    else Some (SubprocessRun ["xdg-open"; pasta])
  else None.

(** ** The state of the loop (lines 133 to 136) *)

Inductive aviso :=
| Popup (msg : string)
| PopupError (msg : string)
| Abriu (a : option acao).

Record Estado := mkEstado {
  senhas_atuais : list string;
  ultimo_arquivo : option string;
  ultimo_length : Z;
  saida : string;               (* the text of [window["-OUT-"]] *)
  clipboard : string;
  disco : Disco;
  sysrand : Rng;
  avisos : list aviso           (* the popups and actions so far, last first *)
}.

Definition inicial (clip : string) (d : Disco) (g : Rng) : Estado :=
  mkEstado [] None DEFAULT_LENGTH EmptyString clip d g [].

Definition avisa (a : aviso) (st : Estado) : Estado :=
  mkEstado (senhas_atuais st) (ultimo_arquivo st) (ultimo_length st) (saida st)
           (clipboard st) (disco st) (sysrand st) (a :: avisos st).

(** [window["-OUT-"].print(x)] adds [x] and a line feed. *)
Definition imprime (x : string) (out : string) : string :=
  out +:+ x +:+ String LF EmptyString.

(** Lines 180 to 183: the summary line and the passwords. *)
Definition exibe (senhas : list string) (length : Z) : string :=
  foldl (λ out s, imprime s out)
        (imprime ("Gerado: " +:+ pretty (Z.of_nat (List.length senhas))
                    +:+ " senhas (comprimento = " +:+ pretty length +:+ ")."
                    +:+ String LF EmptyString)
                 EmptyString)
        senhas.

(** ** The events and what [window.read()] gives with them *)

Inductive Evento :=
| WIN_CLOSED | Sair | GERAR | SALVAR | ABRIR | LIMPAR | COPIA_ULT | COPIA_TOD.

Record Valores := mkValores {
  v_QTD : string;
  v_LEN : string;
  v_UNQ : bool;
  v_REQ : bool
}.

(** One turn of the loop ends the loop, goes on with a new state, or never
    comes back (the loop of line 68 did not end). *)
Inductive Passo :=
| Termina (st : Estado)
| Segue (st : Estado)
| NaoVolta.

(** Lines 143 to 184 *)
Definition ao_gerar (h : Host) (fuel : nat) (v : Valores) (st : Estado) : Passo :=
  match py_int h (py_strip h (v_QTD v)) with
  | None =>
      Segue (avisa (PopupError
        "A quantidade precisa ser um número inteiro entre 1 e 10.000.") st)
  | Some qtd =>
      let raw_length := py_strip h (v_LEN v) in
      match (if bool_decide (raw_length = EmptyString) then Some 12
             else py_int h raw_length) with
      | None =>
          Segue (avisa (PopupError
            ("O comprimento precisa ser um número inteiro entre "
               +:+ pretty MIN_LENGTH +:+ " e " +:+ pretty MAX_LENGTH +:+ ".")) st)
      | Some length =>
          if (length <? MIN_LENGTH) || (length >? MAX_LENGTH)
          then Segue (avisa (PopupError msg_comprimento) st)
          else
            match gerar_lista fuel qtd length (v_UNQ v) (v_REQ v) (sysrand st) with
            | (Returned senhas, g') =>
                Segue (mkEstado senhas None length (exibe senhas length)
                                (clipboard st) (disco st) g' (avisos st))
            | (Raised e, g') =>
                Segue (avisa (PopupError ("Erro ao gerar: " +:+ message e))
                         (mkEstado (senhas_atuais st) (ultimo_arquivo st)
                                   (ultimo_length st) (saida st) (clipboard st)
                                   (disco st) g' (avisos st)))
            | (Diverged, _) => NaoVolta
            end
      end
  end.

(** Lines 186 to 206; [resp] is what the user answers to [popup_get_file]. *)
Definition ao_salvar (h : Host) (resp : option string) (st : Estado) : Passo :=
  match senhas_atuais st with
  | [] => Segue (avisa (Popup "Nada para salvar. Gere as senhas primeiro.") st)
  | _ :: _ =>
      match resp with
      | None => Segue st
      | Some caminho =>
          if bool_decide (caminho = EmptyString) then Segue st
          else
            match salvar_csv caminho (senhas_atuais st) (disco st) with
            | Feito d' =>
                Segue (avisa (Popup ("Arquivo salvo:" +:+ String LF EmptyString
                                       +:+ os_basename h caminho))
                         (mkEstado (senhas_atuais st) (Some caminho)
                                   (ultimo_length st) (saida st) (clipboard st)
                                   d' (sysrand st) (avisos st)))
            | OSError =>
                Segue (avisa (PopupError ("Erro ao salvar: "
                                            +:+ os_strerror h caminho)) st)
            end
      end
  end.

(** Lines 208 to 212 *)
Definition ao_abrir (h : Host) (st : Estado) : Passo :=
  match ultimo_arquivo st with
  | Some caminho =>
      if bool_decide (caminho = EmptyString)
      then Segue (avisa (Popup "Nenhum arquivo salvo ainda.") st)
      else Segue (avisa (Abriu (abrir_pasta_do_arquivo h caminho)) st)
  | None => Segue (avisa (Popup "Nenhum arquivo salvo ainda.") st)
  end.

(** Lines 214 to 217 *)
Definition ao_limpar (st : Estado) : Passo :=
  Segue (mkEstado [] None (ultimo_length st) EmptyString (clipboard st)
                  (disco st) (sysrand st) (avisos st)).

(** [linhas[-1]], and [linhas[-2]] when the last line is the summary and is
    not alone (lines 223 to 225). *)
Definition ultima_linha (linhas : list string) : option string :=
  match last linhas with
  | None => None
  | Some ultima =>
      if String.prefix "Gerado:" ultima && (1 <? List.length linhas)%nat
      then last (removelast linhas)
      else Some ultima
  end.

(** Lines 219 to 229 *)
Definition ao_copiar_ultima (h : Host) (st : Estado) : Passo :=
  let linhas := py_splitlines h (py_strip h (saida st)) in
  match ultima_linha linhas with
  | Some ultima =>
      Segue (avisa (Popup "Última senha copiada!")
               (mkEstado (senhas_atuais st) (ultimo_arquivo st) (ultimo_length st)
                         (saida st) ultima (disco st) (sysrand st) (avisos st)))
  | None => Segue (avisa (Popup "Nada para copiar.") st)
  end.

(** Lines 231 to 236 *)
Definition ao_copiar_todas (st : Estado) : Passo :=
  match senhas_atuais st with
  | [] => Segue (avisa (Popup "Nada para copiar. Gere as senhas primeiro.") st)
  | _ :: _ =>
      Segue (avisa (Popup "Todas as senhas copiadas!")
               (mkEstado (senhas_atuais st) (ultimo_arquivo st) (ultimo_length st)
                         (saida st)
                         (String.concat (String LF EmptyString) (senhas_atuais st))
                         (disco st) (sysrand st) (avisos st)))
  end.

(** The body of the loop of line 138. *)
Definition passo (h : Host) (fuel : nat) (ev : Evento) (v : Valores)
    (resp : option string) (st : Estado) : Passo :=
  match ev with
  | WIN_CLOSED | Sair => Termina st
  | GERAR => ao_gerar h fuel v st
  | SALVAR => ao_salvar h resp st
  | ABRIR => ao_abrir h st
  | LIMPAR => ao_limpar st
  | COPIA_ULT => ao_copiar_ultima h st
  | COPIA_TOD => ao_copiar_todas st
  end.

(** The states that the loop passes through. *)
Inductive alcancavel (h : Host) : Estado → Prop :=
| alcancavel_inicial clip d g : alcancavel h (inicial clip d g)
| alcancavel_passo fuel ev v resp st st' :
    alcancavel h st → passo h fuel ev v resp st = Segue st' → alcancavel h st'.

(** What every state of the loop keeps: the length shown is a valid one; the
    window shows the current passwords, which are passwords of that length;
    and the file last saved, when there is one, holds the current
    passwords. *)
Definition coerente (st : Estado) : Prop :=
  1 ≤ ultimo_length st ≤ 64
  ∧ match senhas_atuais st with
    | [] => saida st = EmptyString
    | _ :: _ =>
        saida st = exibe (senhas_atuais st) (ultimo_length st)
        ∧ Z.of_nat (List.length (senhas_atuais st)) ≤ 10000
        ∧ Forall (λ s, Z.of_nat (String.length s) = ultimo_length st
                       ∧ in_alphabet s) (senhas_atuais st)
    end
  ∧ ∀ p, ultimo_arquivo st = Some p →
         p ≠ EmptyString ∧ senhas_atuais st ≠ []
         ∧ arquivos (disco st) !! p = Some (conteudo_csv (senhas_atuais st)).

(** ** [str.strip] and [str.splitlines] on ASCII text

    On a string of ASCII characters [strip] removes the characters 9 to 13,
    28 to 31 and 32 from both ends, and [splitlines] cuts at [\n], [\r],
    [\r\n] and the characters 11, 12, 28, 29 and 30, without an empty last
    line.  A [Host] is taken to agree with them on ASCII text; what the
    window holds is ASCII text. *)

Definition is_ascii (c : ascii) : bool := (nat_of_ascii c <? 128)%nat.

Definition is_space (c : ascii) : bool :=
  let n := nat_of_ascii c in
  ((9 <=? n) && (n <=? 13) || (28 <=? n) && (n <=? 31) || (n =? 32))%nat.

Definition is_line_end (c : ascii) : bool :=
  let n := nat_of_ascii c in
  ((10 <=? n) && (n <=? 13) || (28 <=? n) && (n <=? 30))%nat.

Fixpoint lstrip_ascii (cs : list ascii) : list ascii :=
  match cs with
  | c :: cs' => if is_space c then lstrip_ascii cs' else cs
  | [] => []
  end.

Definition strip_ascii (s : string) : string :=
  join (rev (lstrip_ascii (rev (lstrip_ascii (chars s))))).

(** [cur] is the line being read, last character first; [cr] tells that the
    character before was [\r], whose [\n] is not a second line end. *)
Fixpoint linhas_ascii (cur : list ascii) (cr : bool) (cs : list ascii)
    : list string :=
  match cs with
  | [] => match cur with [] => [] | _ :: _ => [join (rev cur)] end
  | c :: cs' =>
      if cr && bool_decide (c = LF) then linhas_ascii cur false cs'
      else if is_line_end c
           then join (rev cur) :: linhas_ascii [] (bool_decide (c = CR)) cs'
           else linhas_ascii (c :: cur) false cs'
  end.

Definition splitlines_ascii (s : string) : list string :=
  linhas_ascii [] false (chars s).

Definition host_ascii (h : Host) : Prop :=
  ∀ s, Forall (λ c, is_ascii c = true) (chars s) →
       py_strip h s = strip_ascii s ∧ py_splitlines h s = splitlines_ascii s.

(** A host for the examples: ASCII text only, [int] reads plain decimal
    digits, a POSIX platform. *)
Definition int_decimal (s : string) : option Z :=
  match chars s with
  | [] => None
  | cs => foldl (λ acc c, match acc with
                          | Some n =>
                              let k := nat_of_ascii c in
                              if ((48 <=? k) && (k <=? 57))%nat
                              then Some (10 * n + Z.of_nat (k - 48))
                              else None
                          | None => None
                          end) (Some 0) cs
  end.

Definition host_exemplo : Host :=
  mkHost int_decimal strip_ascii splitlines_ascii (λ p, p) (λ p, p)
         "posix" "linux" (λ _, "Permission denied").

(** The states of the examples: a disk that refuses one path, three
    passwords of the default length generated, and then saved. *)
Definition valores_exemplo : Valores := mkValores " 3 " EmptyString false true.

Definition disco_exemplo : Disco :=
  mkDisco ∅ (λ p, bool_decide (p ≠ "/ro.csv")).

Definition estado_gerado : Estado :=
  mkEstado ["BA85973B64c0"; "3YRXVTSWzUQY"; "npVwsvtqr6ou"] None 12
           (exibe ["BA85973B64c0"; "3YRXVTSWzUQY"; "npVwsvtqr6ou"] 12)
           "clip" disco_exemplo (apos 12 true 3 ids) [].

Definition estado_salvo : Estado :=
  mkEstado ["BA85973B64c0"; "3YRXVTSWzUQY"; "npVwsvtqr6ou"] (Some "/tmp/a.csv") 12
           (exibe ["BA85973B64c0"; "3YRXVTSWzUQY"; "npVwsvtqr6ou"] 12)
           "clip"
           (mkDisco (<["/tmp/a.csv" :=
                       conteudo_csv ["BA85973B64c0"; "3YRXVTSWzUQY"; "npVwsvtqr6ou"]]> ∅)
                    (λ p, bool_decide (p ≠ "/ro.csv")))
           (apos 12 true 3 ids)
           [Popup ("Arquivo salvo:" +:+ String LF EmptyString +:+ "/tmp/a.csv")].

(** * Properties *)

(** ** Strings and lists of characters *)

Lemma length_chars (s : string) : List.length (chars s) = String.length s.
Proof. induction s as [|c s IH]; simpl; [done | by rewrite IH]. Qed.

Lemma length_join (l : list ascii) : String.length (join l) = List.length l.
Proof. induction l as [|c l IH]; simpl; [done | by rewrite IH]. Qed.

Lemma chars_join (l : list ascii) : chars (join l) = l.
Proof. apply list_ascii_of_string_of_list_ascii. Qed.

Lemma join_inj (l1 l2 : list ascii) : join l1 = join l2 → l1 = l2.
Proof. intros H. rewrite <- (chars_join l1), <- (chars_join l2). by rewrite H. Qed.

(** ** The drawing primitives *)

Lemma randbelow_lt (n : nat) (g : Rng) : (0 < n)%nat → ((randbelow n g).1 < n)%nat.
Proof. intros Hn. unfold randbelow. simpl. apply Nat.mod_upper_bound. lia. Qed.

Lemma randbelow_drawn (n : nat) (g : Rng) :
  (randbelow n g).2 = mkRng (outcomes g) (S (drawn g)).
Proof. done. Qed.

Lemma choice_elem_of (seq : string) (g : Rng) :
  seq ≠ EmptyString → (choice seq g).1 ∈ chars seq.
Proof.
  intros Hne. unfold choice, randbelow. simpl.
  apply list_elem_of_In, nth_In. rewrite length_chars.
  apply Nat.mod_upper_bound. destruct seq; [done | simpl; lia].
Qed.

Lemma repeatR_length {A} (n : nat) (m : R A) (g : Rng) :
  List.length (repeatR n m g).1 = n.
Proof.
  revert g. induction n as [|n IH]; intros g; simpl; [done|].
  destruct (m g) as [a g1]. specialize (IH g1).
  destruct (repeatR n m g1) as [l g2]. simpl in *. by rewrite IH.
Qed.

Lemma repeatR_Forall {A} (P : A → Prop) (n : nat) (m : R A) (g : Rng) :
  (∀ g', P (m g').1) → Forall P (repeatR n m g).1.
Proof.
  intros Hm. revert g. induction n as [|n IH]; intros g; simpl; [constructor|].
  pose proof (Hm g) as Ha. destruct (m g) as [a g1]. specialize (IH g1).
  destruct (repeatR n m g1) as [l g2]. simpl in *. by constructor.
Qed.

(** ** The shuffle returns a permutation *)

Lemma swap_Permutation (x : list ascii) (i j : nat) : swap x i j ≡ₚ x.
Proof.
  unfold swap. destruct (x !! j) as [xj|] eqn:Hj; [|done].
  destruct (x !! i) as [xi|] eqn:Hi; [|done].
  by apply Permutation_insert_swap.
Qed.

Lemma shuffle_from_Permutation (i : nat) (x : list ascii) (g : Rng) :
  (shuffle_from i x g).1 ≡ₚ x.
Proof.
  revert x g. induction i as [|i IH]; intros x g; [done|].
  cbn [shuffle_from]. destruct (randbelow (S (S i)) g) as [j g'].
  rewrite IH. apply swap_Permutation.
Qed.

Lemma shuffle_Permutation (x : list ascii) (g : Rng) : (shuffle x g).1 ≡ₚ x.
Proof. apply shuffle_from_Permutation. Qed.

(** ** The filling loop *)

Lemma completa_spec (length : Z) (partes : list ascii) (g : Rng) :
  ∃ extra,
    (completa length partes g).1 = partes ++ extra
    ∧ Forall (λ c, c ∈ chars CHARSET) extra
    ∧ Z.of_nat (List.length (partes ++ extra))
      = Z.max (Z.of_nat (List.length partes)) length.
Proof.
  funelim (completa length partes g).
  - destruct H as (extra & Hres & Hall & Hlen).
    exists ((choice CHARSET g).1 :: extra). split; [|split].
    + rewrite Hres. by rewrite <- app_assoc.
    + constructor; [|done]. by apply choice_elem_of.
    + rewrite !length_app in *. cbn [List.length] in *. lia.
  - exists []. rewrite app_nil_r. split; [done|]. split; [constructor|]. lia.
Qed.

(** ** Every accepted request yields a password that keeps the contract *)

Lemma class_in_CHARSET (cls : string) (c : ascii) :
  cls = digits ∨ cls = ascii_uppercase ∨ cls = ascii_lowercase →
  c ∈ chars cls → c ∈ chars CHARSET.
Proof.
  intros Hcls Hc.
  assert (Hsplit : chars CHARSET
    = chars digits ++ chars ascii_uppercase ++ chars ascii_lowercase) by done.
  rewrite Hsplit, !elem_of_app. destruct Hcls as [->|[->| ->]]; auto.
Qed.

Lemma gerar_senha_plain (length : Z) (g : Rng) :
  MIN_LENGTH ≤ length ≤ MAX_LENGTH →
  gerar_senha length false g
  = (Returned (join (repeatR (Z.to_nat length) (choice CHARSET) g).1),
     (repeatR (Z.to_nat length) (choice CHARSET) g).2).
Proof.
  unfold MIN_LENGTH, MAX_LENGTH. intros Hlen. unfold gerar_senha.
  replace (length <? MIN_LENGTH) with false by (unfold MIN_LENGTH; lia).
  replace (length >? MAX_LENGTH) with false by (unfold MAX_LENGTH; lia).
  cbn [orb andb negb]. unfold bind, lift, ret.
  by destruct (repeatR (Z.to_nat length) (choice CHARSET) g).
Qed.

Lemma gerar_senha_all (length : Z) (g : Rng) :
  3 ≤ length ≤ MAX_LENGTH →
  gerar_senha length true g
  = (Returned (join (senha_composta length g).1), (senha_composta length g).2).
Proof.
  unfold MAX_LENGTH. intros Hlen. unfold gerar_senha.
  replace (length <? MIN_LENGTH) with false by (unfold MIN_LENGTH; lia).
  replace (length >? MAX_LENGTH) with false by (unfold MAX_LENGTH; lia).
  replace (length <? 3) with false by lia.
  cbn [orb andb negb]. unfold bind, lift, ret, senha_composta, partes_iniciais.
  destruct (choice digits g) as [d g1].
  destruct (choice ascii_uppercase g1) as [u g2].
  destruct (choice ascii_lowercase g2) as [l g3].
  destruct (completa length [d; u; l] g3) as [p1 g4].
  by destruct (shuffle p1 g4).
Qed.

Lemma senha_composta_spec (length : Z) (g : Rng) :
  3 ≤ length →
  ∃ d u l extra,
    (senha_composta length g).1 ≡ₚ [d; u; l] ++ extra
    ∧ d ∈ chars digits ∧ u ∈ chars ascii_uppercase ∧ l ∈ chars ascii_lowercase
    ∧ Forall (λ c, c ∈ chars CHARSET) extra
    ∧ Z.of_nat (List.length ([d; u; l] ++ extra)) = length.
Proof.
  intros Hlen. unfold senha_composta, partes_iniciais.
  pose proof (choice_elem_of digits g) as Hd.
  destruct (choice digits g) as [d g1].
  pose proof (choice_elem_of ascii_uppercase g1) as Hu.
  destruct (choice ascii_uppercase g1) as [u g2].
  pose proof (choice_elem_of ascii_lowercase g2) as Hl.
  destruct (choice ascii_lowercase g2) as [l g3].
  destruct (completa_spec length [d; u; l] g3) as (extra & Hres & Hall & Hsz).
  destruct (completa length [d; u; l] g3) as [p1 g4]. simpl in Hres. subst p1.
  exists d, u, l, extra. split; [apply shuffle_Permutation|].
  split; [by apply Hd|]. split; [by apply Hu|]. split; [by apply Hl|].
  split; [done|]. rewrite Hsz. cbn [List.length]. lia.
Qed.

Lemma gerar_senha_contract (length : Z) (require_all : bool) (g : Rng) :
  valid_policy length require_all →
  ∃ s g', gerar_senha length require_all g = (Returned s, g')
          ∧ contract length require_all s.
Proof.
  intros [Hlen Hpol]. destruct require_all.
  - specialize (Hpol eq_refl). unfold MIN_LENGTH, MAX_LENGTH in Hlen.
    rewrite gerar_senha_all by (unfold MAX_LENGTH; lia).
    eexists _, _. split; [done|].
    destruct (senha_composta_spec length g Hpol)
      as (d & u & l & extra & Hperm & Hd & Hu & Hl & Hall & Hsz).
    set (p := (senha_composta length g).1) in *.
    split; [|split].
    + rewrite length_join, Hperm. done.
    + unfold in_alphabet. rewrite chars_join, Hperm.
      cbn [app]. rewrite !Forall_cons. split_and!; [| | |done].
      * apply (class_in_CHARSET digits); auto.
      * apply (class_in_CHARSET ascii_uppercase); auto.
      * apply (class_in_CHARSET ascii_lowercase); auto.
    + intros _. unfold all_classes, has_class. rewrite chars_join.
      split; [|split]; [exists d|exists u|exists l]; (split; [|done]);
        rewrite Hperm; cbn [app]; rewrite !elem_of_cons; auto.
  - rewrite gerar_senha_plain by done. eexists _, _. split; [done|].
    split; [|split; [|done]].
    + rewrite length_join, repeatR_length. unfold MIN_LENGTH in Hlen. lia.
    + unfold in_alphabet. rewrite chars_join. apply repeatR_Forall.
      intros g'. by apply choice_elem_of.
Qed.

(** ** The two stages of [gerar_lista] *)

Lemma gerar_lista_stages fuel qtd length unique require_all g :
  gerar_lista fuel qtd length unique require_all g
  = match validacao qtd length unique require_all with
    | Some e => (Raised e, g)
    | None => geracao fuel qtd length unique require_all g
    end.
Proof.
  unfold gerar_lista, validacao, geracao, raise.
  destruct ((qtd <? 1) || (qtd >? 10000)); [done|].
  destruct ((length <? MIN_LENGTH) || (length >? MAX_LENGTH)); [done|].
  destruct (require_all && (length <? 3)); [done|].
  cbv zeta.
  by destruct (unique && (qtd >? Z.of_nat (String.length CHARSET) ^ length)).
Qed.

Lemma validacao_None qtd length unique require_all :
  validacao qtd length unique require_all = None
  ↔ 1 ≤ qtd ≤ 10000 ∧ valid_policy length require_all
    ∧ (unique = true → qtd ≤ 62 ^ length).
Proof.
  unfold validacao, valid_policy, MIN_LENGTH, MAX_LENGTH.
  change (Z.of_nat (String.length CHARSET)) with 62.
  destruct (qtd <? 1) eqn:E1; cbn [orb]; [split; [done | lia]|].
  destruct (qtd >? 10000) eqn:E2; [split; [done | lia]|].
  destruct (length <? 1) eqn:E3; cbn [orb]; [split; [done | lia]|].
  destruct (length >? 64) eqn:E4; [split; [done | lia]|].
  destruct require_all, unique; cbn [andb];
    destruct (length <? 3) eqn:E5; cbv zeta;
    try destruct (qtd >? 62 ^ length) eqn:E6;
    split; try done; try (intros (? & [? Hp] & Hu);
      try specialize (Hp eq_refl); try specialize (Hu eq_refl); lia);
    intros _; (split; [lia|]); (split; [split; [lia|intros; lia]|intros; lia]).
Qed.

(** ** No error after the checks *)

Lemma size_add_le (s : string) (X : gset string) :
  (size X ≤ size ({[s]} ∪ X) ≤ S (size X))%nat.
Proof.
  split; [apply subseteq_size, union_subseteq_r|].
  rewrite size_union_alt, size_singleton.
  assert (size (X ∖ {[s]}) ≤ size X)%nat; [|lia].
  apply subseteq_size. intros x Hx. by apply elem_of_difference in Hx as [? _].
Qed.

Lemma size_add_new (s : string) (X : gset string) :
  s ∉ X → size ({[s]} ∪ X) = S (size X).
Proof.
  intros Hs. rewrite size_union, size_singleton; [done|].
  intros x Hx ?. apply elem_of_singleton in Hx. by subst.
Qed.

Lemma repeatM_gerar_senha (n : nat) (length : Z) (require_all : bool) (g : Rng) :
  valid_policy length require_all →
  ∃ l g', repeatM n (gerar_senha length require_all) g = (Returned l, g')
          ∧ List.length l = n ∧ Forall (contract length require_all) l.
Proof.
  intros Hv. revert g. induction n as [|n IH]; intros g.
  - exists [], g. by repeat split.
  - destruct (gerar_senha_contract length require_all g Hv) as (s & g1 & Hs & Hc).
    destruct (IH g1) as (l & g2 & Hl & Hn & Hall).
    exists (s :: l), g2. cbn [repeatM]. unfold bind at 1. rewrite Hs.
    unfold bind at 1. rewrite Hl. unfold ret. split; [done|].
    split; [simpl; by rewrite Hn | by constructor].
Qed.

Lemma unicas_invariant (fuel : nat) (qtd length : Z) (require_all : bool)
    (senhas : gset string) (g : Rng) :
  valid_policy length require_all →
  set_Forall (contract length require_all) senhas →
  Z.of_nat (size senhas) ≤ qtd →
  match unicas fuel qtd length require_all senhas g with
  | (Returned r, _) =>
      Z.of_nat (size r) = qtd ∧ set_Forall (contract length require_all) r
      ∧ senhas ⊆ r
  | (Raised _, _) => False
  | (Diverged, _) => True
  end.
Proof.
  intros Hv. revert senhas g. induction fuel as [|fuel IH]; intros senhas g Hall Hsz.
  - cbn [unicas]. destruct (Z.of_nat (size senhas) <? qtd) eqn:E; [done|].
    unfold ret. split; [lia|done].
  - cbn [unicas]. destruct (Z.of_nat (size senhas) <? qtd) eqn:E.
    + destruct (gerar_senha_contract length require_all g Hv) as (s & g1 & Hs & Hc).
      unfold bind. rewrite Hs.
      assert (Hall' : set_Forall (contract length require_all) ({[s]} ∪ senhas)).
      { intros x Hx. apply elem_of_union in Hx as [Hx|Hx]; [|by apply Hall].
        apply elem_of_singleton in Hx. by subst. }
      assert (Hsz' : Z.of_nat (size ({[s]} ∪ senhas)) ≤ qtd).
      { pose proof (size_add_le s senhas). lia. }
      specialize (IH ({[s]} ∪ senhas) g1 Hall' Hsz').
      destruct (unicas fuel qtd length require_all ({[s]} ∪ senhas) g1) as [[r| |] g2];
        [|done|done].
      destruct IH as (? & ? & Hsub). split; [done|]. split; [done|].
      etrans; [|exact Hsub]. apply union_subseteq_r.
    + unfold ret. split; [lia|done].
Qed.

Lemma geracao_outcome fuel qtd length unique require_all g :
  1 ≤ qtd → valid_policy length require_all →
  match geracao fuel qtd length unique require_all g with
  | (Returned l, _) =>
      Z.of_nat (List.length l) = qtd ∧ Forall (contract length require_all) l
      ∧ (unique = true → NoDup l)
  | (Raised _, _) => False
  | (Diverged, _) => unique = true
  end.
Proof.
  intros Hq Hv. unfold geracao. destruct unique; cbn [negb].
  - assert (Hinv := unicas_invariant fuel qtd length require_all ∅ g Hv).
    rewrite size_empty in Hinv. unfold bind.
    destruct (unicas fuel qtd length require_all ∅ g) as [[r| |] g'].
    + destruct Hinv as (Hsz & Hall & _); [|lia|].
      { intros x Hx. by apply not_elem_of_empty in Hx. }
      unfold ret. split; [exact Hsz|]. split; [|intros _; apply NoDup_elements].
      apply Forall_forall. intros s Hs. apply Hall. by apply elem_of_elements.
    + apply Hinv; [|lia]. intros x Hx. by apply not_elem_of_empty in Hx.
    + done.
  - destruct (repeatM_gerar_senha (Z.to_nat qtd) length require_all g Hv)
      as (l & g' & -> & Hn & Hall).
    split; [lia|]. split; [done|]. intros [=].
Qed.

(** ** How many draws a password takes *)

Lemma choice_eq (seq : string) (g : Rng) :
  choice seq g
  = (nth (outcomes g (drawn g) `mod` String.length seq)%nat (chars seq) Ascii.zero,
     mkRng (outcomes g) (S (drawn g))).
Proof. done. Qed.

Lemma repeatR_choice_state (seq : string) (n : nat) (g : Rng) :
  (repeatR n (choice seq) g).2 = mkRng (outcomes g) (drawn g + n).
Proof.
  revert g. induction n as [|n IH]; intros g; cbn [repeatR].
  - destruct g. simpl. f_equal. lia.
  - rewrite choice_eq. specialize (IH (mkRng (outcomes g) (S (drawn g)))).
    destruct (repeatR n (choice seq) _) as [l g2]. simpl in *. rewrite IH.
    f_equal. lia.
Qed.

Lemma completa_state (length : Z) (partes : list ascii) (g : Rng) :
  (completa length partes g).2
  = mkRng (outcomes g)
          (drawn g + Z.to_nat (length - Z.of_nat (List.length partes))).
Proof.
  funelim (completa length partes g).
  - rewrite H. rewrite choice_eq. cbn [snd outcomes drawn]. f_equal.
    rewrite length_app. cbn [List.length]. lia.
  - destruct g. simpl. f_equal. lia.
Qed.

Lemma shuffle_from_state (i : nat) (x : list ascii) (g : Rng) :
  (shuffle_from i x g).2 = mkRng (outcomes g) (drawn g + i).
Proof.
  revert x g. induction i as [|i IH]; intros x g; cbn [shuffle_from].
  - destruct g. simpl. f_equal. lia.
  - unfold randbelow at 1. rewrite IH. cbn [outcomes drawn]. f_equal. lia.
Qed.

Lemma shuffle_from_length (i : nat) (x : list ascii) (g : Rng) :
  List.length (shuffle_from i x g).1 = List.length x.
Proof. by rewrite shuffle_from_Permutation. Qed.

Lemma gerar_senha_state (length : Z) (require_all : bool) (g : Rng) :
  valid_policy length require_all →
  (gerar_senha length require_all g).2
  = mkRng (outcomes g) (drawn g + draws length require_all).
Proof.
  intros [Hl Hp]. unfold MIN_LENGTH in Hl. destruct require_all.
  - specialize (Hp eq_refl). rewrite gerar_senha_all by lia.
    unfold senha_composta, partes_iniciais. rewrite !choice_eq.
    cbn [outcomes drawn].
    match goal with |- context [completa length ?p ?g3] =>
      pose proof (completa_state length p g3) as Hst;
      destruct (completa_spec length p g3) as (extra & Hres & _ & Hsz);
      destruct (completa length p g3) as [p1 g4] end.
    cbn [fst snd] in *. subst p1 g4. unfold shuffle.
    rewrite shuffle_from_state. cbn [outcomes drawn snd]. unfold draws. f_equal.
    rewrite length_app in *. cbn [List.length] in *. lia.
  - rewrite gerar_senha_plain by done. cbn [snd].
    by rewrite repeatR_choice_state.
Qed.

Lemma gerar_senha_invalid_length (length : Z) (require_all : bool) (g : Rng) :
  length < 1 ∨ 64 < length →
  gerar_senha length require_all g = (Raised InvalidLength, g).
Proof.
  intros HL. unfold gerar_senha, MIN_LENGTH, MAX_LENGTH.
  destruct (length <? 1) eqn:E1; [done|].
  destruct (length >? 64) eqn:E2; [done|]. lia.
Qed.

Lemma gerar_senha_short_policy (length : Z) (g : Rng) :
  length = 1 ∨ length = 2 →
  gerar_senha length true g = (Raised InsufficientLengthForPolicy, g).
Proof. by intros [-> | ->]. Qed.

Lemma gerar_senha_returned (length : Z) (require_all : bool) (g g' : Rng) s :
  gerar_senha length require_all g = (Returned s, g') →
  valid_policy length require_all.
Proof.
  unfold gerar_senha, valid_policy, MIN_LENGTH, MAX_LENGTH, raise.
  destruct (length <? 1) eqn:E1; [done|].
  destruct (length >? 64) eqn:E2; [done|]. cbn [orb].
  destruct require_all; cbn [andb].
  - destruct (length <? 3) eqn:E3; [done|]. intros _. split; [lia|intros; lia].
  - intros _. split; [lia|done].
Qed.

(** ** The coded draws produce the numbered password *)

Lemma repeatR_choice_coded (n t : nat) (o : nat → nat) (p : nat) :
  (∀ r, (r < n)%nat → o (p + r)%nat = nth r (base62 n t) 0%nat) →
  (repeatR n (choice CHARSET) (mkRng o p)).1
  = List.map (char_at CHARSET) (base62 n t).
Proof.
  revert t p. induction n as [|n IH]; intros t p Ho; [done|].
  cbn [repeatR base62 List.map]. rewrite choice_eq. cbn [outcomes drawn].
  specialize (IH (t / 62)%nat (S p)).
  destruct (repeatR n (choice CHARSET) (mkRng o (S p))) as [l g2].
  cbn [fst] in *. f_equal.
  - specialize (Ho 0%nat ltac:(lia)). rewrite Nat.add_0_r in Ho. rewrite Ho.
    cbn [base62 nth]. change (String.length CHARSET) with 62%nat.
    by rewrite Nat.Div0.mod_mod.
  - apply IH. intros r Hr. specialize (Ho (S r) ltac:(lia)).
    replace (S p + r)%nat with (p + S r)%nat by lia. by rewrite Ho.
Qed.

Lemma completa_zeros (length : Z) (partes : list ascii) (g : Rng) :
  (∀ r, (r < Z.to_nat (length - Z.of_nat (List.length partes)))%nat →
        outcomes g (drawn g + r) = 0%nat) →
  (completa length partes g).1
  = partes ++ repeat (char_at CHARSET 0)
                     (Z.to_nat (length - Z.of_nat (List.length partes))).
Proof.
  funelim (completa length partes g); intros Ho.
  - rewrite H.
    + rewrite choice_eq. cbn [fst]. rewrite length_app. cbn [List.length].
      specialize (Ho 0%nat ltac:(lia)). rewrite Nat.add_0_r in Ho. rewrite Ho.
      replace (Z.to_nat (length - Z.of_nat (List.length partes)))
        with (S (Z.to_nat (length - Z.of_nat (List.length partes + 1)%nat))) by lia.
      cbn [repeat]. by rewrite <- app_assoc.
    + intros r Hr. rewrite choice_eq. cbn [snd outcomes drawn].
      rewrite length_app in Hr. cbn [List.length] in Hr.
      specialize (Ho (S r) ltac:(lia)). rewrite <- Ho. f_equal. lia.
  - replace (Z.to_nat (length - Z.of_nat (List.length partes))) with 0%nat by lia.
    by rewrite app_nil_r.
Qed.

Lemma swap_same (x : list ascii) (i : nat) : swap x i i = x.
Proof.
  unfold swap. destruct (x !! i) as [a|] eqn:Hi; [|done].
  rewrite list_insert_insert_eq. by apply list_insert_id.
Qed.

Lemma shuffle_from_identity (i : nat) (x : list ascii) (g : Rng) :
  (1 ≤ i)%nat →
  (∀ r, (r + 1 < i)%nat → outcomes g (drawn g + r) = (i - r)%nat) →
  shuffle_from i x g = shuffle_from 1 x (mkRng (outcomes g) (drawn g + (i - 1))).
Proof.
  revert g. induction i as [|i IH]; intros g Hi Ho; [lia|].
  destruct i as [|i].
  { destruct g. cbn [outcomes drawn]. do 2 f_equal. lia. }
  change (shuffle_from (S (S i)) x g)
    with (let '(j, g') := randbelow (S (S (S i))) g in
          shuffle_from (S i) (swap x (S (S i)) j) g').
  unfold randbelow. specialize (Ho 0%nat ltac:(lia)) as Ho0.
  rewrite Nat.add_0_r in Ho0. rewrite Ho0.
  rewrite Nat.sub_0_r, Nat.mod_small by lia. rewrite swap_same.
  rewrite IH; [|lia|].
  - cbn [outcomes drawn]. do 2 f_equal. lia.
  - intros r Hr. cbn [outcomes drawn]. specialize (Ho (S r) ltac:(lia)).
    replace (S (drawn g) + r)%nat with (drawn g + S r)%nat by lia. rewrite Ho. lia.
Qed.

Lemma senha_composta_coded (length : Z) (t : nat) (o : nat → nat) (p : nat) :
  3 ≤ length →
  (∀ r, (r < draws length true)%nat → o (p + r)%nat = code length true t r) →
  join (senha_composta length (mkRng o p)).1 = alvo length true t.
Proof.
  intros Hl Ho. unfold draws in Ho.
  set (n := Z.to_nat length). assert (Hn : (3 ≤ n)%nat) by lia.
  assert (Hc : ∀ r, (r < 2 * n - 1)%nat → o (p + r)%nat = code length true t r).
  { intros r Hr. apply Ho. lia. }
  clear Ho. unfold code in Hc. fold n in Hc.
  unfold senha_composta, partes_iniciais. rewrite !choice_eq. cbn [outcomes drawn].
  pose proof (Hc 0%nat ltac:(lia)) as H0. rewrite Nat.add_0_r in H0.
  pose proof (Hc 1%nat ltac:(lia)) as H1. rewrite Nat.add_1_r in H1.
  pose proof (Hc 2%nat ltac:(lia)) as H2.
  replace (p + 2)%nat with (S (S p)) in H2 by lia.
  cbn [Nat.eqb] in H0, H1, H2. rewrite H0, H1, H2.
  change (String.length digits) with 10%nat.
  change (String.length ascii_uppercase) with 26%nat.
  change (String.length ascii_lowercase) with 26%nat.
  rewrite !Nat.Div0.mod_mod.
  fold (char_at digits (t `mod` 10)).
  fold (char_at ascii_uppercase ((t / 10) `mod` 26)).
  fold (char_at ascii_lowercase ((t / 260) `mod` 26)).
  set (d := char_at digits _). set (u := char_at ascii_uppercase _).
  set (l := char_at ascii_lowercase _).
  set (g3 := mkRng o (S (S (S p)))).
  pose proof (completa_zeros length [d; u; l] g3) as Hz.
  pose proof (completa_state length [d; u; l] g3) as Hs.
  destruct (completa length [d; u; l] g3) as [p1 g4]. cbn [fst snd] in Hz, Hs.
  cbn [List.length] in Hz, Hs.
  replace (Z.to_nat (length - Z.of_nat 3)) with (n - 3)%nat in Hz, Hs by lia.
  rewrite Hz; clear Hz.
  2:{ intros r Hr. cbn [g3 outcomes drawn].
      replace (S (S (S p)) + r)%nat with (p + (3 + r))%nat by lia.
      rewrite Hc by lia. cbn [Nat.eqb plus].
      rewrite (proj2 (Nat.ltb_lt (S (S (S r))) (n))) by lia. done. }
  subst g4. cbn [g3 outcomes drawn]. unfold shuffle.
  set (x := [d; u; l] ++ repeat (char_at CHARSET 0) (n - 3)).
  assert (Hx : List.length x = n).
  { unfold x. rewrite length_app, repeat_length. cbn [List.length]. lia. }
  rewrite Hx. rewrite shuffle_from_identity; [|lia|].
  2:{ intros r Hr. cbn [outcomes drawn].
      replace (S (S (S p)) + (n - 3) + r)%nat with (p + (n + r))%nat by lia.
      rewrite Hc by lia.
      destruct (n + r)%nat as [|[|[|m]]] eqn:Em; [lia|lia|lia|].
      cbn [Nat.eqb]. rewrite <- Em.
      rewrite (proj2 (Nat.ltb_ge (n + r) (n))) by lia.
      rewrite (proj2 (Nat.ltb_lt (n + r) (2 * n - 2))) by lia. lia. }
  cbn [shuffle_from outcomes drawn]. unfold randbelow. cbn [outcomes drawn fst].
  replace (S (S (S p)) + (n - 3) + (n - 1 - 1))%nat with (p + (2 * n - 2))%nat by lia.
  rewrite Hc by lia.
  destruct (2 * n - 2)%nat as [|[|[|m]]] eqn:Em; [lia|lia|lia|].
  cbn [Nat.eqb]. rewrite <- Em.
  rewrite (proj2 (Nat.ltb_ge (2 * n - 2) (n))) by lia.
  rewrite (proj2 (Nat.ltb_ge (2 * n - 2) (2 * n - 2))) by lia.
  unfold alvo. fold n. fold d u l.
  by destruct (t / (26 * 260) =? 0)%nat.
Qed.

Lemma gerar_senha_coded (length : Z) (require_all : bool) (t : nat)
    (o : nat → nat) (p : nat) :
  valid_policy length require_all →
  (∀ r, (r < draws length require_all)%nat →
        o (p + r)%nat = code length require_all t r) →
  gerar_senha length require_all (mkRng o p)
  = (Returned (alvo length require_all t),
     mkRng o (p + draws length require_all)).
Proof.
  intros Hv Ho. pose proof (gerar_senha_state length require_all (mkRng o p) Hv) as Hst.
  destruct Hv as [Hl Hp]. unfold MIN_LENGTH in Hl. destruct require_all.
  - specialize (Hp eq_refl). rewrite gerar_senha_all in * by lia.
    cbn [snd] in Hst. rewrite Hst. by rewrite (senha_composta_coded length t).
  - rewrite gerar_senha_plain in * by done. cbn [snd] in Hst. rewrite Hst.
    by rewrite (repeatR_choice_coded _ t).
Qed.

Lemma draws_pos (length : Z) (require_all : bool) :
  valid_policy length require_all → (0 < draws length require_all)%nat.
Proof.
  intros [Hl Hp]. unfold draws, MIN_LENGTH in *. destruct require_all; lia.
Qed.

Lemma fonte_outcomes (length : Z) (require_all : bool) (f : nat → nat) (g : Rng)
    (i r : nat) :
  (r < draws length require_all)%nat →
  outcomes (fonte length require_all f g)
           (drawn g + i * draws length require_all + r)
  = code length require_all (f i) r.
Proof.
  intros Hr. unfold fonte. cbn [outcomes].
  set (k := draws length require_all) in *.
  rewrite (proj2 (Nat.ltb_ge _ _)) by lia.
  replace (drawn g + i * k + r - drawn g)%nat with (r + i * k)%nat by lia.
  rewrite Nat.div_add, Nat.Div0.mod_add by lia.
  by rewrite Nat.div_small, Nat.mod_small by lia.
Qed.

Lemma fonte_past (length : Z) (require_all : bool) (f : nat → nat) (g : Rng) :
  drawn (fonte length require_all f g) = drawn g
  ∧ ∀ p, (p < drawn g)%nat →
         outcomes (fonte length require_all f g) p = outcomes g p.
Proof.
  split; [done|]. intros p Hp. unfold fonte. cbn [outcomes].
  by rewrite (proj2 (Nat.ltb_lt _ _)) by lia.
Qed.

Lemma gerar_senha_fonte (length : Z) (require_all : bool) (f : nat → nat)
    (g : Rng) (i : nat) :
  valid_policy length require_all →
  gerar_senha length require_all
    (apos length require_all i (fonte length require_all f g))
  = (Returned (alvo length require_all (f i)),
     apos length require_all (S i) (fonte length require_all f g)).
Proof.
  intros Hv. unfold apos.
  rewrite (gerar_senha_coded length require_all (f i)); [|done|].
  - do 2 f_equal. cbn [drawn fonte]. lia.
  - intros r Hr. destruct (fonte_past length require_all f g) as [-> _].
    by apply fonte_outcomes.
Qed.

Lemma apos_0 (length : Z) (require_all : bool) (g : Rng) :
  apos length require_all 0 g = g.
Proof. destruct g. unfold apos. cbn [outcomes drawn]. f_equal. lia. Qed.

Lemma geradas_fonte (n : nat) (length : Z) (require_all : bool) (f : nat → nat)
    (g : Rng) (i : nat) :
  valid_policy length require_all →
  geradas n length require_all
    (apos length require_all i (fonte length require_all f g))
  = List.map (λ j, alvo length require_all (f j)) (seq i n).
Proof.
  intros Hv. revert i. induction n as [|n IH]; intros i; [done|].
  cbn [geradas seq List.map]. rewrite gerar_senha_fonte by done. by rewrite IH.
Qed.

(** ** Distinct numbers give distinct passwords *)

Lemma NoDup_classes :
  NoDup (chars CHARSET) ∧ NoDup (chars digits)
  ∧ NoDup (chars ascii_uppercase) ∧ NoDup (chars ascii_lowercase)
  ∧ Forall (λ c, c ∉ chars ascii_uppercase) (chars digits).
Proof. split_and!; apply (bool_decide_unpack _); by vm_compute. Qed.

Lemma char_at_inj (seq : string) (i j : nat) :
  NoDup (chars seq) →
  (i < String.length seq)%nat → (j < String.length seq)%nat →
  char_at seq i = char_at seq j → i = j.
Proof.
  intros Hnd Hi Hj Heq. rewrite <- length_chars in Hi, Hj.
  apply NoDup_ListNoDup in Hnd.
  by apply (proj1 (NoDup_nth (chars seq) Ascii.zero) Hnd i j).
Qed.

Lemma char_at_elem_of (seq : string) (i : nat) :
  (i < String.length seq)%nat → char_at seq i ∈ chars seq.
Proof.
  intros Hi. apply list_elem_of_In, nth_In. by rewrite length_chars.
Qed.

Lemma base62_bound (n t : nat) : Forall (λ d, (d < 62)%nat) (base62 n t).
Proof.
  revert t. induction n as [|n IH]; intros t; cbn [base62]; constructor; [|done].
  apply Nat.mod_upper_bound. lia.
Qed.

Lemma base62_inj (n t t' : nat) :
  (t < 62 ^ n)%nat → (t' < 62 ^ n)%nat → base62 n t = base62 n t' → t = t'.
Proof.
  revert t t'. induction n as [|n IH]; intros t t' Ht Ht'.
  - rewrite Nat.pow_0_r in *. lia.
  - rewrite Nat.pow_succ_r' in *. cbn [base62]. intros [= Hm Hd].
    change (t `mod` 62 = t' `mod` 62)%nat in Hm.
    change (base62 n (t / 62) = base62 n (t' / 62)) in Hd.
    apply IH in Hd.
    + pose proof (Nat.div_mod_eq t 62). pose proof (Nat.div_mod_eq t' 62). lia.
    + apply Nat.Div0.div_lt_upper_bound. lia.
    + apply Nat.Div0.div_lt_upper_bound. lia.
Qed.

Lemma map_char_at_inj (l1 l2 : list nat) :
  Forall (λ d, (d < 62)%nat) l1 → Forall (λ d, (d < 62)%nat) l2 →
  List.map (char_at CHARSET) l1 = List.map (char_at CHARSET) l2 → l1 = l2.
Proof.
  intros H1. revert l2. induction H1 as [|a l1 Ha _ IH]; intros l2 H2.
  - by destruct l2.
  - destruct H2 as [|b l2 Hb H2]; [done|]. cbn [List.map]. intros [= Hab Hl].
    f_equal; [|by apply IH].
    destruct NoDup_classes as (Hnd & _). by apply (char_at_inj CHARSET).
Qed.

Lemma alvo_inj (length : Z) (require_all : bool) (t t' : nat) :
  0 ≤ length →
  Z.of_nat t < numeradas length require_all →
  Z.of_nat t' < numeradas length require_all →
  alvo length require_all t = alvo length require_all t' → t = t'.
Proof.
  intros Hl Ht Ht'. unfold numeradas, alvo in *. destruct require_all.
  - intros Heq. apply join_inj in Heq.
    destruct NoDup_classes as (_ & Hd & Hu & Hlo & Hdisj).
    rewrite Forall_forall in Hdisj.
    assert (Hmd : ∀ x, (x `mod` 10 < String.length digits)%nat)
      by (intros x; apply Nat.mod_upper_bound; done).
    assert (Hmu : ∀ x, (x `mod` 26 < String.length ascii_uppercase)%nat)
      by (intros x; apply Nat.mod_upper_bound; done).
    assert (Hml : ∀ x, (x `mod` 26 < String.length ascii_lowercase)%nat)
      by (intros x; apply Nat.mod_upper_bound; done).
    assert (Hdu : ∀ x y, char_at digits (x `mod` 10)
                         ≠ char_at ascii_uppercase (y `mod` 26)).
    { intros x y Hxy. apply (Hdisj (char_at digits (x `mod` 10))).
      - by apply char_at_elem_of.
      - rewrite Hxy. by apply char_at_elem_of. }
    assert (Hq : ∀ x, Z.of_nat x < 13520 → (x / (26 * 260) < 2)%nat).
    { intros x Hx. apply Nat.Div0.div_lt_upper_bound. lia. }
    pose proof (Hq t Ht) as Hqt. pose proof (Hq t' Ht') as Hqt'.
    assert (Hsame : (t `mod` 10 = t' `mod` 10)%nat →
                    ((t / 10) `mod` 26 = (t' / 10) `mod` 26)%nat →
                    ((t / 260) `mod` 26 = (t' / 260) `mod` 26)%nat →
                    Nat.eqb (t / (26 * 260)) 0 = Nat.eqb (t' / (26 * 260)) 0 →
                    t = t').
    { intros E1 E2 E3 E4.
      assert (t / (26 * 260) = t' / (26 * 260))%nat as E5.
      { destruct (Nat.eqb_spec (t / (26 * 260)) 0),
          (Nat.eqb_spec (t' / (26 * 260)) 0); (done || lia). }
      pose proof (Nat.div_mod_eq t 10). pose proof (Nat.div_mod_eq t' 10).
      pose proof (Nat.div_mod_eq (t / 10) 26) as H10.
      pose proof (Nat.div_mod_eq (t' / 10) 26) as H10'.
      rewrite !Nat.Div0.div_div in H10, H10'.
      change (10 * 26)%nat with 260%nat in H10, H10'.
      pose proof (Nat.div_mod_eq (t / 260) 26) as H260.
      pose proof (Nat.div_mod_eq (t' / 260) 26) as H260'.
      rewrite !Nat.Div0.div_div in H260, H260'.
      change (260 * 26)%nat with (26 * 260)%nat in H260, H260'.
      lia. }
    destruct (t / (26 * 260) =? 0)%nat eqn:Eb, (t' / (26 * 260) =? 0)%nat eqn:Eb';
      cbn [app] in Heq; injection Heq as E1 E2 E3.
    + apply Hsame; [by apply (char_at_inj digits)|by apply (char_at_inj ascii_uppercase)
                    |by apply (char_at_inj ascii_lowercase)|congruence].
    + by apply Hdu in E1.
    + symmetry in E1. by apply Hdu in E1.
    + apply Hsame; [by apply (char_at_inj digits)|by apply (char_at_inj ascii_uppercase)
                    |by apply (char_at_inj ascii_lowercase)|congruence].
  - intros Heq. apply join_inj, map_char_at_inj in Heq; [|apply base62_bound..].
    apply base62_inj in Heq; [done| |].
    + apply Nat2Z.inj_lt. rewrite Nat2Z.inj_pow, Z2Nat.id by done. exact Ht.
    + apply Nat2Z.inj_lt. rewrite Nat2Z.inj_pow, Z2Nat.id by done. exact Ht'.
Qed.

(** ** When the loop of unique passwords ends *)

Lemma conjunto_cons (s : string) (l : list string) (X : gset string) :
  X ∪ conjunto (s :: l) = ({[s]} ∪ X) ∪ conjunto l.
Proof.
  unfold conjunto. cbn [list_to_set].
  rewrite (assoc_L (∪)). by rewrite (comm_L (∪) X {[s]}).
Qed.

Lemma unicas_returns (n : nat) (qtd length : Z) (require_all : bool)
    (senhas : gset string) (g : Rng) :
  valid_policy length require_all →
  qtd ≤ Z.of_nat (size (senhas ∪ conjunto (geradas n length require_all g))) →
  ∃ r g', unicas n qtd length require_all senhas g = (Returned r, g').
Proof.
  intros Hv. revert senhas g. induction n as [|n IH]; intros senhas g Hsz.
  - cbn [unicas geradas] in *. unfold conjunto in Hsz. cbn [list_to_set] in Hsz.
    rewrite (right_id_L ∅ (∪)) in Hsz.
    rewrite (proj2 (Z.ltb_ge _ _)) by lia. by eexists _, _.
  - cbn [unicas]. destruct (Z.of_nat (size senhas) <? qtd); [|by eexists _, _].
    destruct (gerar_senha_contract length require_all g Hv) as (s & g1 & Hs & _).
    cbn [geradas] in Hsz. rewrite Hs in Hsz. rewrite conjunto_cons in Hsz.
    unfold bind. rewrite Hs. by apply IH.
Qed.

Lemma unicas_diverges (n : nat) (qtd length : Z) (require_all : bool)
    (senhas : gset string) (g : Rng) :
  valid_policy length require_all →
  Z.of_nat (size (senhas ∪ conjunto (geradas n length require_all g))) < qtd →
  (unicas n qtd length require_all senhas g).1 = Diverged.
Proof.
  intros Hv. revert senhas g. induction n as [|n IH]; intros senhas g Hsz.
  - cbn [unicas geradas] in *. unfold conjunto in Hsz. cbn [list_to_set] in Hsz.
    rewrite (right_id_L ∅ (∪)) in Hsz.
    by rewrite (proj2 (Z.ltb_lt _ _)) by lia.
  - cbn [unicas].
    assert (size senhas
            ≤ size (senhas ∪ conjunto (geradas (S n) length require_all g)))%nat
      by apply subseteq_size, union_subseteq_l.
    rewrite (proj2 (Z.ltb_lt _ _)) by lia.
    destruct (gerar_senha_contract length require_all g Hv) as (s & g1 & Hs & _).
    cbn [geradas] in Hsz. rewrite Hs in Hsz. rewrite conjunto_cons in Hsz.
    unfold bind. rewrite Hs. by apply IH.
Qed.

Lemma alvos_size (n : nat) (length : Z) (require_all : bool) (X : gset string) :
  0 ≤ length → Z.of_nat n ≤ numeradas length require_all →
  (∀ j, (j < n)%nat → alvo length require_all j ∈ X) →
  (n ≤ size X)%nat.
Proof.
  intros Hl Hn HX.
  assert (Hnd : NoDup (alvo length require_all <$> seq 0 n)).
  { apply NoDup_fmap_2_strong; [|apply NoDup_seq].
    intros t t' Ht Ht' Heq. apply elem_of_seq in Ht, Ht'.
    apply (alvo_inj length require_all); [done|lia|lia|done]. }
  assert (Hsz : size (conjunto (alvo length require_all <$> seq 0 n)) = n).
  { unfold conjunto. rewrite size_list_to_set by done.
    by rewrite length_fmap, length_seq. }
  rewrite <- Hsz at 1.
  apply subseteq_size. intros s Hs. apply elem_of_list_to_set in Hs.
  apply list_elem_of_fmap in Hs as (j & -> & Hj). apply elem_of_seq in Hj.
  apply HX. lia.
Qed.

Lemma numeradas_enough (qtd length : Z) (require_all : bool) :
  qtd ≤ 10000 → qtd ≤ 62 ^ length → qtd ≤ numeradas length require_all.
Proof. unfold numeradas. destruct require_all; lia. Qed.

Lemma geradas_const (n : nat) (length : Z) (require_all : bool) (s : string)
    (o : nat → nat) (k p : nat) :
  (∀ q, gerar_senha length require_all (mkRng o q) = (Returned s, mkRng o (q + k))) →
  geradas n length require_all (mkRng o p) = repeat s n.
Proof.
  intros Hs. revert p. induction n as [|n IH]; intros p; [done|].
  cbn [geradas repeat]. rewrite Hs. by rewrite IH.
Qed.

Lemma conjunto_repeat_size (s : string) (n : nat) :
  (size (∅ ∪ conjunto (repeat s n)) ≤ 1)%nat.
Proof.
  rewrite (left_id_L ∅ (∪)).
  assert (conjunto (repeat s n) ⊆ {[s]}) as Hsub.
  { intros x Hx. apply elem_of_list_to_set in Hx.
    apply list_elem_of_In, repeat_spec in Hx. by apply elem_of_singleton. }
  apply subseteq_size in Hsub. by rewrite size_singleton in Hsub.
Qed.

Lemma geradas_fonte0 (n : nat) (length : Z) (require_all : bool) (f : nat → nat)
    (g : Rng) :
  valid_policy length require_all →
  geradas n length require_all (fonte length require_all f g)
  = List.map (λ j, alvo length require_all (f j)) (seq 0 n).
Proof.
  intros Hv. rewrite <- (geradas_fonte n length require_all f g 0 Hv).
  by rewrite apos_0.
Qed.

Lemma repeatM_geradas (n : nat) (length : Z) (require_all : bool) (g : Rng) :
  valid_policy length require_all →
  ∃ g', repeatM n (gerar_senha length require_all) g
        = (Returned (geradas n length require_all g), g').
Proof.
  intros Hv. revert g. induction n as [|n IH]; intros g; [by exists g|].
  destruct (gerar_senha_contract length require_all g Hv) as (s & g1 & Hs & _).
  destruct (IH g1) as (g2 & Hl). exists g2.
  cbn [repeatM geradas]. unfold bind at 1. rewrite Hs.
  unfold bind at 1. by rewrite Hl.
Qed.

Lemma gerar_lista_unique_outcome (fuel : nat) (qtd L : Z) (require_all : bool)
    (g : Rng) :
  1 ≤ qtd ≤ 10000 → valid_policy L require_all → qtd ≤ 62 ^ L →
  (qtd ≤ Z.of_nat (size (conjunto (geradas fuel L require_all g))) →
   ∃ l g', gerar_lista fuel qtd L true require_all g = (Returned l, g')
           ∧ Z.of_nat (List.length l) = qtd ∧ NoDup l
           ∧ Forall (contract L require_all) l)
  ∧ (Z.of_nat (size (conjunto (geradas fuel L require_all g))) < qtd →
     (gerar_lista fuel qtd L true require_all g).1 = Diverged).
Proof.
  intros Hq Hv Hcap. rewrite gerar_lista_stages.
  assert (validacao qtd L true require_all = None) as ->
    by (apply validacao_None; auto).
  pose proof (geracao_outcome fuel qtd L true require_all g ltac:(lia) Hv) as Hg.
  split; intros Hsz.
  - destruct (unicas_returns fuel qtd L require_all ∅ g Hv) as (r & g' & Hr).
    { by rewrite (left_id_L ∅ (∪)). }
    unfold geracao in *. cbn [negb] in *. unfold bind, ret in *. rewrite Hr in *.
    destruct Hg as (Hn & Hall & Hnd). eexists _, _. split; [done|]. auto.
  - pose proof (unicas_diverges fuel qtd L require_all ∅ g Hv) as Hd.
    rewrite (left_id_L ∅ (∪)) in Hd. specialize (Hd Hsz).
    unfold geracao. cbn [negb]. unfold bind.
    by destruct (unicas fuel qtd L require_all ∅ g) as [[r| |] g'].
Qed.

Lemma gerar_senha_zeros (length : Z) (q : nat) :
  valid_policy length false →
  gerar_senha length false (mkRng (λ _, 0%nat) q)
  = (Returned (alvo length false 0), mkRng (λ _, 0%nat) (q + draws length false)).
Proof.
  intros Hv. apply gerar_senha_coded; [done|]. intros r _. unfold code.
  generalize (Z.to_nat length). intros n. revert r.
  induction n as [|n IH]; intros [|r]; cbn [base62 nth]; done.
Qed.

Lemma gerar_lista_zeros_diverges (fuel : nat) (qtd L : Z) :
  2 ≤ qtd ≤ 10000 → valid_policy L false → qtd ≤ 62 ^ L →
  (gerar_lista fuel qtd L true false zeros).1 = Diverged.
Proof.
  intros Hq Hv Hcap.
  apply (gerar_lista_unique_outcome fuel qtd L false zeros); [lia|done|done|].
  unfold zeros. rewrite (geradas_const fuel L false (alvo L false 0) _ (draws L false)).
  - pose proof (conjunto_repeat_size (alvo L false 0) fuel) as Hs.
    rewrite (left_id_L ∅ (∪)) in Hs. lia.
  - intros q. by apply gerar_senha_zeros.
Qed.

(** * The statements of the specification *)

(** C1. For every length L with 3 <= L <= 64, [gerar_senha L true] returns,
    whatever the entropy source delivers, a string of exactly L characters
    that contains a digit, an uppercase letter and a lowercase letter. *)
Theorem gerar_senha_require_all_covers (L : Z) (g : Rng) :
  3 ≤ L ≤ 64 →
  ∃ s g', gerar_senha L true g = (Returned s, g')
    ∧ Z.of_nat (String.length s) = L
    ∧ has_class digits s
    ∧ has_class ascii_uppercase s
    ∧ has_class ascii_lowercase s.
Proof.
  intros HL.
  destruct (gerar_senha_contract L true g) as (s & g' & Hs & Hlen & _ & Hcls).
  { split; [unfold MIN_LENGTH, MAX_LENGTH; lia | intros _; lia]. }
  exists s, g'. split; [done|]. split; [done|]. by apply Hcls.
Qed.

Lemma gerar_senha_require_all_covers_witness :
  ∃ s g', gerar_senha 8 true ids = (Returned s, g')
    ∧ Z.of_nat (String.length s) = 8
    ∧ has_class digits s
    ∧ has_class ascii_uppercase s
    ∧ has_class ascii_lowercase s.
Proof. apply (gerar_senha_require_all_covers 8 ids). lia. Defined.

(** C2. For every length L with 1 <= L <= 64, [gerar_senha L false] returns
    a string of exactly L characters, each one a character of the alphabet
    [CHARSET], which has 62 characters. *)
Theorem gerar_senha_plain_in_alphabet (L : Z) (g : Rng) :
  1 ≤ L ≤ 64 →
  ∃ s g', gerar_senha L false g = (Returned s, g')
    ∧ Z.of_nat (String.length s) = L
    ∧ Forall (λ c, c ∈ chars CHARSET) (chars s)
    ∧ List.length (chars CHARSET) = 62%nat.
Proof.
  intros HL.
  destruct (gerar_senha_contract L false g) as (s & g' & Hs & Hlen & Hin & _).
  { split; [done | intros [=]]. }
  exists s, g'. by repeat split.
Qed.

Lemma gerar_senha_plain_in_alphabet_witness :
  ∃ s g', gerar_senha 5 false ids = (Returned s, g')
    ∧ Z.of_nat (String.length s) = 5
    ∧ Forall (λ c, c ∈ chars CHARSET) (chars s)
    ∧ List.length (chars CHARSET) = 62%nat.
Proof. apply (gerar_senha_plain_in_alphabet 5 ids). lia. Defined.

(** C4. With [unique], on a request whose count, length and policy pass the
    earlier checks, [gerar_lista] computes the capacity 62^length as an
    unbounded integer (at length 64 it is far above 2^64), raises
    [InfeasibleUniqueRequest] exactly when the count exceeds the capacity,
    and the message of the exception spells out the count and the
    capacity. *)
Theorem gerar_lista_unique_feasibility (fuel : nat) (qtd L : Z)
    (require_all : bool) (g : Rng) :
  1 ≤ qtd ≤ 10000 → valid_policy L require_all →
  (62 ^ L < qtd →
   gerar_lista fuel qtd L true require_all g
   = (Raised (InfeasibleUniqueRequest qtd (62 ^ L) L), g))
  ∧ (qtd ≤ 62 ^ L →
     ∀ e, (gerar_lista fuel qtd L true require_all g).1 ≠ Raised e)
  ∧ message (InfeasibleUniqueRequest qtd (62 ^ L) L)
    = "Você solicitou " +:+ pretty qtd +:+ " senhas únicas, mas só existem "
        +:+ pretty (62 ^ L) +:+ " combinações possíveis para comprimento "
        +:+ pretty L +:+ ". Reduza a quantidade ou aumente o comprimento."
  ∧ 2 ^ 64 < Z.of_nat (String.length CHARSET) ^ 64
  ∧ pretty (Z.of_nat (String.length CHARSET) ^ 64)
    = "5164973859965249179065154939717494269947658426266553960878244596268481614842987330263563657801857314603738370932736".
Proof.
  intros Hq Hv. split_and!.
  - intros Hcap. rewrite gerar_lista_stages.
    destruct Hv as [Hl Hp]. unfold validacao, MIN_LENGTH, MAX_LENGTH in *.
    replace (qtd <? 1) with false by lia.
    replace (qtd >? 10000) with false by lia.
    replace (L <? 1) with false by lia.
    replace (L >? 64) with false by lia.
    replace (require_all && (L <? 3)) with false
      by (destruct require_all; [specialize (Hp eq_refl)|]; cbn [andb]; lia).
    cbn [orb]. cbv zeta. change (Z.of_nat (String.length CHARSET)) with 62.
    replace (qtd >? 62 ^ L) with true by lia. done.
  - intros Hcap e. rewrite gerar_lista_stages.
    assert (validacao qtd L true require_all = None) as ->
      by (apply validacao_None; auto).
    pose proof (geracao_outcome fuel qtd L true require_all g) as Hg.
    destruct (geracao fuel qtd L true require_all g) as [[l| |] g'];
      cbn [fst]; [discriminate| |discriminate].
    exfalso. apply Hg; [lia|done].
  - done.
  - by vm_compute.
  - by vm_compute.
Qed.

Lemma gerar_lista_unique_feasibility_witness :
  gerar_lista 0 100 1 true false ids
  = (Raised (ValueError "Você solicitou 100 senhas únicas, mas só existem 62 combinações possíveis para comprimento 1. Reduza a quantidade ou aumente o comprimento."), ids)
  ∧ ∀ e, (gerar_lista 0 50 1 true false ids).1 ≠ Raised e.
Proof.
  split.
  - destruct (gerar_lista_unique_feasibility 0 100 1 false ids) as (H & _).
    + lia.
    + split; [unfold MIN_LENGTH, MAX_LENGTH; lia | intros [=]].
    + rewrite H by lia. by vm_compute.
  - destruct (gerar_lista_unique_feasibility 0 50 1 false ids) as (_ & H & _).
    + lia.
    + split; [unfold MIN_LENGTH, MAX_LENGTH; lia | intros [=]].
    + apply H. lia.
Defined.

(** C5. Without [unique], for a valid count N, length and policy,
    [gerar_lista] returns the N passwords that N successive calls of
    [gerar_senha] produce, in the order of the calls, each one satisfying the
    contract of one password; nothing is removed, so that on a source that
    repeats itself the list holds the same password more than once. *)
Theorem gerar_lista_not_unique (fuel : nat) (qtd L : Z) (require_all : bool)
    (g : Rng) :
  1 ≤ qtd ≤ 10000 → valid_policy L require_all →
  (∃ g', gerar_lista fuel qtd L false require_all g
         = (Returned (geradas (Z.to_nat qtd) L require_all g), g'))
  ∧ Z.of_nat (List.length (geradas (Z.to_nat qtd) L require_all g)) = qtd
  ∧ Forall (contract L require_all) (geradas (Z.to_nat qtd) L require_all g)
  ∧ (2 ≤ qtd →
     ∃ g0 l g', gerar_lista fuel qtd L false require_all g0 = (Returned l, g')
                ∧ ¬ NoDup l).
Proof.
  intros Hq Hv.
  assert (Hst : ∀ g0, gerar_lista fuel qtd L false require_all g0
                      = repeatM (Z.to_nat qtd) (gerar_senha L require_all) g0).
  { intros g0. rewrite gerar_lista_stages.
    assert (validacao qtd L false require_all = None) as ->; [|done].
    apply validacao_None. split_and!; [lia|lia|done|intros [=]]. }
  destruct (repeatM_geradas (Z.to_nat qtd) L require_all g Hv) as (g' & Hl).
  destruct (repeatM_gerar_senha (Z.to_nat qtd) L require_all g Hv)
    as (l & g'' & Hl' & Hn & Hall).
  rewrite Hl in Hl'. injection Hl' as <- <-.
  split_and!.
  - exists g'. by rewrite Hst.
  - lia.
  - done.
  - intros Hq2. set (g0 := fonte L require_all (λ _, 0%nat) g).
    destruct (repeatM_geradas (Z.to_nat qtd) L require_all g0 Hv) as (g1 & Hl0).
    eexists g0, _, g1. split; [by rewrite Hst|].
    unfold g0. rewrite geradas_fonte0 by done.
    destruct (Z.to_nat qtd) as [|[|n]] eqn:En; [lia|lia|].
    cbn [seq List.map]. intros Hnd. apply NoDup_cons in Hnd as [Hnin _].
    apply Hnin. by left.
Qed.

Lemma gerar_lista_not_unique_witness :
  (∃ g', gerar_lista 0 3 4 false true ids = (Returned ["B3c0"; "jI7A"; "H4Pq"], g'))
  ∧ ∃ g0 l g', gerar_lista 0 3 4 false true g0 = (Returned l, g') ∧ ¬ NoDup l.
Proof.
  destruct (gerar_lista_not_unique 0 3 4 true ids) as (H1 & _ & _ & H2).
  - lia.
  - split; [unfold MIN_LENGTH, MAX_LENGTH; lia | intros _; lia].
  - split; [exact H1 | apply H2; lia].
Defined.

(** C6. [gerar_senha] raises [InvalidLength] for every length outside
    [1,64], whatever [require_all] is (so length 0 with [require_all] gives
    [InvalidLength] and not [InsufficientLengthForPolicy], which is another
    exception), and raises [InsufficientLengthForPolicy] for the lengths 1
    and 2 with [require_all]. *)
Theorem gerar_senha_errors (L : Z) (require_all : bool) (g : Rng) :
  (L < 1 ∨ 64 < L → gerar_senha L require_all g = (Raised InvalidLength, g))
  ∧ (L = 1 ∨ L = 2 →
     gerar_senha L true g = (Raised InsufficientLengthForPolicy, g))
  ∧ gerar_senha 0 true g = (Raised InvalidLength, g)
  ∧ InvalidLength ≠ InsufficientLengthForPolicy.
Proof.
  split; [|split; [|split]].
  - apply gerar_senha_invalid_length.
  - apply gerar_senha_short_policy.
  - apply gerar_senha_invalid_length. lia.
  - discriminate.
Qed.

Lemma gerar_senha_errors_witness :
  gerar_senha 65 false ids = (Raised InvalidLength, ids)
  ∧ gerar_senha 2 true ids = (Raised InsufficientLengthForPolicy, ids).
Proof.
  destruct (gerar_senha_errors 65 false ids) as (H1 & _).
  destruct (gerar_senha_errors 2 true ids) as (_ & H2 & _).
  split; [apply H1; lia | apply H2; by right].
Defined.

(** C7. [gerar_lista] raises [InvalidCount] for every count outside
    [1,10000]; for a count inside, it raises what [gerar_senha] raises on
    the same length and policy, and when [gerar_senha] accepts them it raises
    neither [InvalidLength] nor [InsufficientLengthForPolicy]. *)
Theorem gerar_lista_errors (fuel : nat) (qtd L : Z) (unique require_all : bool)
    (g : Rng) :
  (qtd < 1 ∨ 10000 < qtd →
   gerar_lista fuel qtd L unique require_all g = (Raised InvalidCount, g))
  ∧ (1 ≤ qtd ≤ 10000 →
     ∀ e g1, gerar_senha L require_all g = (Raised e, g1) →
     (e = InvalidLength ∨ e = InsufficientLengthForPolicy)
     ∧ gerar_lista fuel qtd L unique require_all g = (Raised e, g))
  ∧ (1 ≤ qtd ≤ 10000 →
     (∀ e, (gerar_senha L require_all g).1 ≠ Raised e) →
     (gerar_lista fuel qtd L unique require_all g).1 ≠ Raised InvalidLength
     ∧ (gerar_lista fuel qtd L unique require_all g).1
       ≠ Raised InsufficientLengthForPolicy).
Proof.
  split; [|split].
  - intros Hq. unfold gerar_lista.
    destruct (qtd <? 1) eqn:E1; [done|].
    destruct (qtd >? 10000) eqn:E2; [done|]. lia.
  - intros Hq e g1. unfold gerar_lista, gerar_senha.
    replace (qtd <? 1) with false by lia.
    replace (qtd >? 10000) with false by lia. cbn [orb].
    destruct ((L <? MIN_LENGTH) || (L >? MAX_LENGTH)) eqn:E1.
    { unfold raise. intros [= <- <-]. auto. }
    destruct (require_all && (L <? 3)) eqn:E2.
    { unfold raise. intros [= <- <-]. auto. }
    intros Hs. exfalso.
    destruct (gerar_senha_contract L require_all g) as (s & g' & Hs' & _).
    { unfold valid_policy, MIN_LENGTH, MAX_LENGTH in *.
      destruct require_all; cbn [andb] in E2; split; try lia; intros; try lia; done. }
    unfold gerar_senha in Hs'. rewrite E1, E2 in Hs'. congruence.
  - intros Hq Hok.
    assert (Hv : valid_policy L require_all).
    { unfold valid_policy, MIN_LENGTH, MAX_LENGTH.
      assert (¬ (L < 1 ∨ 64 < L)) as Hn1.
      { intros H. apply (Hok InvalidLength).
        by rewrite (gerar_senha_invalid_length L require_all g H). }
      split; [lia|]. intros ->.
      assert (¬ (L = 1 ∨ L = 2)) as Hn2.
      { intros H. apply (Hok InsufficientLengthForPolicy).
        by rewrite (gerar_senha_short_policy L g H). }
      lia. }
    rewrite gerar_lista_stages.
    destruct (validacao qtd L unique require_all) as [e|] eqn:Ev.
    + unfold validacao in Ev. destruct Hv as [Hl Hp].
      unfold MIN_LENGTH, MAX_LENGTH in *.
      replace (qtd <? 1) with false in Ev by lia.
      replace (qtd >? 10000) with false in Ev by lia.
      replace (L <? 1) with false in Ev by lia.
      replace (L >? 64) with false in Ev by lia.
      replace (require_all && (L <? 3)) with false in Ev
        by (destruct require_all; [specialize (Hp eq_refl)|]; cbn [andb]; lia).
      cbn [orb] in Ev. cbv zeta in Ev.
      destruct (unique && _); [|done]. injection Ev as <-.
      cbn [fst]. split; discriminate.
    + pose proof (geracao_outcome fuel qtd L unique require_all g) as Hg.
      destruct (geracao fuel qtd L unique require_all g) as [[l| |] g'];
        cbn [fst]; [split; discriminate| |split; discriminate].
      exfalso. apply Hg; [lia|done].
Qed.

Lemma gerar_lista_errors_witness :
  gerar_lista 0 10001 5 true false ids = (Raised InvalidCount, ids)
  ∧ gerar_lista 0 10 65 true false ids = (Raised InvalidLength, ids)
  ∧ (gerar_lista 0 10 5 false false ids).1 ≠ Raised InvalidLength.
Proof.
  destruct (gerar_lista_errors 0 10001 5 true false ids) as (H1 & _).
  destruct (gerar_lista_errors 0 10 65 true false ids) as (_ & H2 & _).
  destruct (gerar_lista_errors 0 10 5 false false ids) as (_ & _ & H3).
  split; [apply H1; lia|]. split.
  - apply (H2 ltac:(lia) InvalidLength ids). reflexivity.
  - apply H3; [lia|]. intros e. vm_compute. discriminate.
Defined.

(** C9. The alphabet is the fixed sequence of the 10 digits, the 26
    uppercase letters and the 26 lowercase letters in this order, 62 distinct
    characters in all, and every character of every password that
    [gerar_senha] or [gerar_lista] returns, under either policy, is one of
    them. *)
Theorem CHARSET_is_the_alphabet :
  chars CHARSET = chars digits ++ chars ascii_uppercase ++ chars ascii_lowercase
  ∧ chars digits = List.map ascii_of_nat (seq 48 10)
  ∧ chars ascii_uppercase = List.map ascii_of_nat (seq 65 26)
  ∧ chars ascii_lowercase = List.map ascii_of_nat (seq 97 26)
  ∧ List.length (chars CHARSET) = 62%nat
  ∧ NoDup (chars CHARSET)
  ∧ (∀ L require_all g s g',
       gerar_senha L require_all g = (Returned s, g') → in_alphabet s)
  ∧ (∀ fuel qtd L unique require_all g l g',
       gerar_lista fuel qtd L unique require_all g = (Returned l, g') →
       Forall in_alphabet l).
Proof.
  split_and!; try done.
  - apply (bool_decide_unpack _). by vm_compute.
  - intros L require_all g s g' Hs.
    pose proof (gerar_senha_returned _ _ _ _ _ Hs) as Hv.
    destruct (gerar_senha_contract L require_all g Hv) as (s' & g'' & Hs' & _ & Hin & _).
    congruence.
  - intros fuel qtd L unique require_all g l g'. rewrite gerar_lista_stages.
    destruct (validacao qtd L unique require_all) eqn:Ev; [done|].
    apply validacao_None in Ev as (Hq & Hv & _).
    pose proof (geracao_outcome fuel qtd L unique require_all g) as Hg.
    intros Hl. rewrite Hl in Hg. destruct Hg as (_ & Hall & _); [lia|done|].
    eapply Forall_impl; [exact Hall|]. by intros s (_ & Hin & _).
Qed.

Lemma CHARSET_is_the_alphabet_witness :
  in_alphabet "6357B4c0" ∧ Forall in_alphabet ["vL3X"; "rn1T"; "7dhV"].
Proof.
  destruct CHARSET_is_the_alphabet as (_ & _ & _ & _ & _ & _ & H1 & H2).
  split.
  - apply (H1 8 true ids "6357B4c0" (gerar_senha 8 true ids).2). by vm_compute.
  - apply (H2 0%nat 3 4 false true (mkRng (λ k, (k * k + 7 * k + 3)%nat) 0) _
             (gerar_lista 0 3 4 false true (mkRng (λ k, (k * k + 7 * k + 3)%nat) 0)).2).
    by vm_compute.
Defined.

(** C10. [gerar_lista] checks before it generates: it raises exactly when
    the checks of lines 47 to 61, which read the four parameters only,
    reject the request, the exception is theirs, and then no draw has been
    made, whereas every password that [gerar_senha] produces takes at least
    one draw; once the checks pass no exception is raised any more. *)
Theorem gerar_lista_validates_first (fuel : nat) (qtd L : Z)
    (unique require_all : bool) (g : Rng) :
  (∀ e g', gerar_lista fuel qtd L unique require_all g = (Raised e, g') →
           validacao qtd L unique require_all = Some e ∧ g' = g)
  ∧ (∀ e, validacao qtd L unique require_all = Some e →
          gerar_lista fuel qtd L unique require_all g = (Raised e, g))
  ∧ (validacao qtd L unique require_all = None →
     ∀ e, (gerar_lista fuel qtd L unique require_all g).1 ≠ Raised e)
  ∧ (∀ s g1 g2, gerar_senha L require_all g1 = (Returned s, g2) →
                (drawn g1 < drawn g2)%nat).
Proof.
  split_and!.
  - intros e g'. rewrite gerar_lista_stages.
    destruct (validacao qtd L unique require_all) as [e'|] eqn:Ev.
    + by intros [= <- <-].
    + apply validacao_None in Ev as (Hq & Hv & _).
      pose proof (geracao_outcome fuel qtd L unique require_all g) as Hg.
      intros Hr. rewrite Hr in Hg. exfalso. apply Hg; [lia|done].
  - intros e Hv. rewrite gerar_lista_stages. by rewrite Hv.
  - intros Ev e. rewrite gerar_lista_stages, Ev.
    apply validacao_None in Ev as (Hq & Hv & _).
    pose proof (geracao_outcome fuel qtd L unique require_all g) as Hg.
    destruct (geracao fuel qtd L unique require_all g) as [[l| |] g'];
      cbn [fst]; [discriminate| |discriminate].
    exfalso. apply Hg; [lia|done].
  - intros s g1 g2 Hs. pose proof (gerar_senha_returned _ _ _ _ _ Hs) as Hv.
    pose proof (gerar_senha_state L require_all g1 Hv) as Hst.
    rewrite Hs in Hst. cbn [snd] in Hst. subst g2. cbn [drawn].
    destruct Hv as [Hl Hp]. unfold draws, MIN_LENGTH in *.
    destruct require_all; lia.
Qed.

Lemma gerar_lista_validates_first_witness :
  validacao 100 1 true false = Some (InfeasibleUniqueRequest 100 62 1)
  ∧ gerar_lista 7 0 5 false false ids = (Raised InvalidCount, ids)
  ∧ (drawn ids < drawn (gerar_senha 5 false ids).2)%nat.
Proof.
  destruct (gerar_lista_validates_first 0 100 1 true false ids) as (H1 & _).
  destruct (gerar_lista_validates_first 7 0 5 false false ids) as (_ & H2 & _ & H3).
  split_and!.
  - apply (H1 _ ids). by vm_compute.
  - apply H2. by vm_compute.
  - apply (H3 "01234" ids). by vm_compute.
Defined.

(** * Further properties of the code *)

(** ** Which passwords [gerar_senha] can return *)

Lemma base62_from62 (l : list nat) :
  Forall (λ d, (d < 62)%nat) l → base62 (List.length l) (from62 l) = l.
Proof.
  induction 1 as [|d l Hd _ IH]; [done|]. cbn [List.length base62 from62].
  replace (d + 62 * from62 l)%nat with (d + from62 l * 62)%nat by lia.
  rewrite Nat.Div0.mod_add, Nat.div_add by lia.
  rewrite Nat.mod_small, Nat.div_small by lia.
  by rewrite Nat.add_0_l, IH.
Qed.

Lemma indices_of_chars (seq : string) (cs : list ascii) :
  Forall (λ c, c ∈ chars seq) cs →
  ∃ idxs, Forall (λ d, (d < String.length seq)%nat) idxs
          ∧ List.map (char_at seq) idxs = cs.
Proof.
  induction 1 as [|c cs Hc _ (idxs & Hb & Hm)]; [by exists []|].
  apply list_elem_of_In in Hc.
  destruct (In_nth _ _ Ascii.zero Hc) as (i & Hi & Hnth).
  exists (i :: idxs). split.
  - constructor; [by rewrite <- length_chars|done].
  - cbn [List.map]. unfold char_at at 1. by rewrite Hnth, Hm.
Qed.

Lemma gerar_senha_plain_reaches (L : Z) (s : string) :
  1 ≤ L ≤ 64 → Z.of_nat (String.length s) = L → in_alphabet s →
  ∃ g g', gerar_senha L false g = (Returned s, g').
Proof.
  intros HL Hlen Hin.
  destruct (indices_of_chars CHARSET (chars s) Hin) as (idxs & Hb & Hm).
  assert (Hn : List.length idxs = Z.to_nat L).
  { rewrite <- (length_map (char_at CHARSET)), Hm, length_chars. lia. }
  exists (mkRng (code L false (from62 idxs)) 0). eexists.
  rewrite (gerar_senha_coded L false (from62 idxs)).
  - unfold alvo. rewrite <- Hn, base62_from62, Hm by done.
    unfold join, chars. by rewrite string_of_list_ascii_of_string.
  - split; [done | intros [=]].
  - done.
Qed.

(** ** A password is a function of the draws of its call *)

Lemma repeatR_choice_value (cls : string) (n : nat) (o : nat → nat) (p : nat) :
  (repeatR n (choice cls) (mkRng o p)).1
  = List.map (λ r, char_at cls (o (p + r)%nat `mod` String.length cls)%nat) (seq 0 n).
Proof.
  revert p. induction n as [|n IH]; intros p; [done|].
  cbn [repeatR]. rewrite choice_eq. cbn [outcomes drawn].
  specialize (IH (S p)).
  destruct (repeatR n (choice cls) (mkRng o (S p))) as [l g2].
  cbn [fst] in *. rewrite IH. cbn [seq List.map]. rewrite Nat.add_0_r. f_equal.
  rewrite <- seq_shift, List.map_map. apply List.map_ext. intros r.
  by replace (S p + r)%nat with (p + S r)%nat by lia.
Qed.

Lemma completa_value (m : nat) (length : Z) (partes : list ascii)
    (o : nat → nat) (p : nat) :
  m = Z.to_nat (length - Z.of_nat (List.length partes)) →
  (completa length partes (mkRng o p)).1
  = partes ++ List.map (λ r, char_at CHARSET (o (p + r)%nat `mod` 62)%nat) (seq 0 m).
Proof.
  revert partes p. induction m as [|m IH]; intros partes p Hm.
  - rewrite completa_equation_1.
    destruct (Z_lt_dec (Z.of_nat (List.length partes)) length); [lia|].
    by rewrite app_nil_r.
  - rewrite completa_equation_1.
    destruct (Z_lt_dec (Z.of_nat (List.length partes)) length); [|lia].
    cbn [completa_unfold_clause_1]. rewrite choice_eq. cbn [fst snd outcomes drawn].
    rewrite (IH _ (S p)) by (rewrite length_app; cbn [List.length]; lia).
    rewrite <- app_assoc. cbn [app seq List.map]. rewrite Nat.add_0_r.
    do 2 f_equal. rewrite <- seq_shift, List.map_map. apply List.map_ext.
    intros r. by replace (S p + r)%nat with (p + S r)%nat by lia.
Qed.

Lemma shuffle_from_window (i : nat) (x : list ascii) (o1 o2 : nat → nat)
    (p1 p2 : nat) :
  (∀ r, (r < i)%nat → o1 (p1 + r)%nat = o2 (p2 + r)%nat) →
  (shuffle_from i x (mkRng o1 p1)).1 = (shuffle_from i x (mkRng o2 p2)).1.
Proof.
  revert x p1 p2. induction i as [|i IH]; intros x p1 p2 Ho; [done|].
  cbn [shuffle_from]. unfold randbelow. cbn [outcomes drawn].
  pose proof (Ho 0%nat ltac:(lia)) as H0. rewrite !Nat.add_0_r in H0. rewrite H0.
  apply IH. intros r Hr. specialize (Ho (S r) ltac:(lia)).
  by replace (S p1 + r)%nat with (p1 + S r)%nat by lia;
     replace (S p2 + r)%nat with (p2 + S r)%nat by lia.
Qed.

(** ** The shuffle reaches every arrangement *)

Lemma swap_length (x : list ascii) (i j : nat) :
  List.length (swap x i j) = List.length x.
Proof. by rewrite swap_Permutation. Qed.

Lemma swap_app (x suf : list ascii) (i j : nat) :
  (i < List.length x)%nat → (j < List.length x)%nat →
  swap (x ++ suf) i j = swap x i j ++ suf.
Proof.
  intros Hi Hj. unfold swap. rewrite !lookup_app_l by done.
  destruct (lookup_lt_is_Some_2 x j Hj) as [xj ->].
  destruct (lookup_lt_is_Some_2 x i Hi) as [xi ->].
  rewrite insert_app_l by done.
  by rewrite insert_app_l by (by rewrite length_insert).
Qed.

Lemma swap_lookup (x : list ascii) (i j : nat) (a : ascii) :
  (i < List.length x)%nat → x !! j = Some a → swap x i j !! i = Some a.
Proof.
  intros Hi Hj. unfold swap. rewrite Hj.
  destruct (lookup_lt_is_Some_2 x i Hi) as [xi Hxi]. rewrite Hxi.
  destruct (decide (j = i)) as [->|Hne].
  - rewrite list_lookup_insert_eq by (by rewrite length_insert). congruence.
  - rewrite list_lookup_insert_ne by done. by rewrite list_lookup_insert_eq.
Qed.

Lemma list_split_last (l : list ascii) (i : nat) (a : ascii) :
  List.length l = S i → l !! i = Some a → l = take i l ++ [a].
Proof.
  intros Hlen Ha. rewrite <- (take_S_r l i a Ha). by rewrite take_ge by lia.
Qed.

Lemma shuffle_from_reaches (i : nat) (x y suf : list ascii) :
  List.length x = S i → x ≡ₚ y →
  ∃ ds, List.length ds = i
        ∧ ∀ o p, (∀ r, (r < i)%nat → o (p + r)%nat = nth r ds 0%nat) →
                 (shuffle_from i (x ++ suf) (mkRng o p)).1 = y ++ suf.
Proof.
  revert x y suf. induction i as [|i IH]; intros x y suf Hlen Hperm.
  - exists []. split; [done|]. intros o p _. cbn [shuffle_from fst].
    destruct x as [|b [|??]]; try done.
    by apply Permutation_length_1_inv in Hperm as ->.
  - assert (Hly : List.length y = S (S i)) by (by rewrite <- Hperm).
    destruct (lookup_lt_is_Some_2 y (S i) ltac:(lia)) as [a Ha].
    pose proof (list_split_last y (S i) a Hly Ha) as Hy.
    assert (Hax : a ∈ x).
    { rewrite Hperm. by apply list_elem_of_lookup_2 in Ha. }
    apply list_elem_of_lookup_1 in Hax as [j Hj].
    pose proof (lookup_lt_Some _ _ _ Hj) as Hjlt.
    pose proof (swap_lookup x (S i) j a ltac:(lia) Hj) as Hsw.
    pose proof (list_split_last (swap x (S i) j) (S i) a
                  ltac:(by rewrite swap_length) Hsw) as Hx'.
    set (x' := take (S i) (swap x (S i) j)) in *.
    set (y' := take (S i) y) in *.
    assert (Hperm' : x' ≡ₚ y').
    { apply (Permutation_app_inv_r [a]).
      by rewrite <- Hx', <- Hy, swap_Permutation. }
    destruct (IH x' y' (a :: suf)) as (ds & Hds & Hrun); [|done|].
    { unfold x'. rewrite length_take, swap_length. lia. }
    exists (j :: ds). split; [cbn [List.length]; by rewrite Hds|].
    intros o p Ho. cbn [shuffle_from]. unfold randbelow. cbn [outcomes drawn].
    pose proof (Ho 0%nat ltac:(lia)) as H0. rewrite Nat.add_0_r in H0.
    cbn [nth] in H0. rewrite H0, Nat.mod_small by lia.
    rewrite swap_app by lia. rewrite Hx', <- app_assoc. cbn [app].
    rewrite Hrun.
    + transitivity ((y' ++ [a]) ++ suf); [by rewrite <- app_assoc|].
      by rewrite <- Hy.
    + intros r Hr. specialize (Ho (S r) ltac:(lia)). cbn [nth] in Ho.
      by replace (S p + r)%nat with (p + S r)%nat by lia.
Qed.

Lemma shuffle_reaches (x y : list ascii) :
  x ≡ₚ y →
  ∃ ds, List.length ds = (List.length x - 1)%nat
        ∧ ∀ o p, (∀ r, (r < List.length x - 1)%nat →
                       o (p + r)%nat = nth r ds 0%nat) →
                 (shuffle x (mkRng o p)).1 = y.
Proof.
  intros Hperm. unfold shuffle. destruct x as [|b x].
  - apply Permutation_nil_l in Hperm as <-. exists []. by split.
  - destruct (shuffle_from_reaches (List.length x) (b :: x) y [])
      as (ds & Hds & Hrun); [done|done|].
    replace (List.length (b :: x) - 1)%nat with (List.length x)
      by (cbn [List.length]; lia).
    exists ds. split; [done|].
    intros o p Ho. specialize (Hrun o p Ho). by rewrite !app_nil_r in Hrun.
Qed.

(** ** The class-covering branch in terms of its draws *)

Lemma senha_composta_value (length : Z) (o : nat → nat) (p : nat) :
  3 ≤ length →
  (senha_composta length (mkRng o p)).1
  = (shuffle
       ([char_at digits (o p `mod` 10)%nat;
         char_at ascii_uppercase (o (p + 1)%nat `mod` 26)%nat;
         char_at ascii_lowercase (o (p + 2)%nat `mod` 26)%nat]
        ++ List.map (λ r, char_at CHARSET (o (p + 3 + r)%nat `mod` 62)%nat)
                    (seq 0 (Z.to_nat length - 3)))
       (mkRng o (p + Z.to_nat length))).1.
Proof.
  intros Hl. unfold senha_composta, partes_iniciais. rewrite !choice_eq.
  cbn [outcomes drawn].
  change (String.length digits) with 10%nat.
  change (String.length ascii_uppercase) with 26%nat.
  change (String.length ascii_lowercase) with 26%nat.
  fold (char_at digits (o p `mod` 10)).
  fold (char_at ascii_uppercase (o (S p) `mod` 26)).
  fold (char_at ascii_lowercase (o (S (S p)) `mod` 26)).
  replace (p + 1)%nat with (S p) by lia.
  replace (p + 2)%nat with (S (S p)) by lia.
  set (d := char_at digits _). set (u := char_at ascii_uppercase _).
  set (l := char_at ascii_lowercase _).
  pose proof (completa_value (Z.to_nat length - 3) length [d; u; l] o
                (S (S (S p)))) as Hv.
  pose proof (completa_state length [d; u; l] (mkRng o (S (S (S p))))) as Hs.
  destruct (completa length [d; u; l] (mkRng o (S (S (S p))))) as [p1 g4].
  cbn [fst snd outcomes drawn List.length] in Hv, Hs.
  rewrite Hv by lia. subst g4.
  replace (S (S (S p)) + Z.to_nat (length - Z.of_nat 3))%nat
    with (p + Z.to_nat length)%nat by lia.
  do 3 f_equal. apply List.map_ext. intros r.
  by replace (p + 3 + r)%nat with (S (S (S p)) + r)%nat by lia.
Qed.

Lemma map_nth_seq (l rest : list nat) :
  List.map (λ r, nth r (l ++ rest) 0%nat) (seq 0 (List.length l)) = l.
Proof.
  induction l as [|a l IH]; [done|].
  cbn [List.length seq List.map]. f_equal.
  rewrite <- seq_shift, List.map_map. exact IH.
Qed.

Lemma three_classes_split (cs : list ascii) (d u l : ascii) :
  d ∈ cs → u ∈ cs → l ∈ cs →
  d ∈ chars digits → u ∈ chars ascii_uppercase → l ∈ chars ascii_lowercase →
  ∃ rest, cs ≡ₚ [d; u; l] ++ rest.
Proof.
  intros Hd Hu Hl Hcd Hcu Hcl.
  assert (Hdis : Forall (λ c, (c ∉ chars ascii_uppercase)
                              ∧ (c ∉ chars ascii_lowercase)) (chars digits)
                 ∧ Forall (λ c, c ∉ chars ascii_lowercase) (chars ascii_uppercase)).
  { split; apply (bool_decide_unpack _); by vm_compute. }
  destruct Hdis as [Hdis1 Hdis2]. rewrite Forall_forall in Hdis1, Hdis2.
  destruct (Hdis1 d Hcd) as [Hdu Hdl]. specialize (Hdis2 u Hcu).
  apply elem_of_Permutation in Hd as [k1 Hk1].
  rewrite Hk1 in Hu, Hl.
  apply elem_of_cons in Hu as [->|Hu]; [done|].
  apply elem_of_cons in Hl as [->|Hl]; [done|].
  apply elem_of_Permutation in Hu as [k2 Hk2].
  rewrite Hk2 in Hl. apply elem_of_cons in Hl as [->|Hl]; [done|].
  apply elem_of_Permutation in Hl as [k3 Hk3].
  exists k3. cbn [app]. by rewrite Hk1, Hk2, Hk3.
Qed.

Lemma gerar_senha_all_reaches (L : Z) (s : string) :
  3 ≤ L ≤ 64 → contract L true s →
  ∃ g g', gerar_senha L true g = (Returned s, g').
Proof.
  intros HL (Hlen & Hin & Hcls). destruct (Hcls eq_refl) as (Hd & Hu & Hl).
  destruct Hd as (d & Hd & Hcd), Hu as (u & Hu & Hcu), Hl as (l & Hl & Hcl).
  destruct (three_classes_split (chars s) d u l) as (rest & Hperm); try done.
  assert (Hrest : Forall (λ c, c ∈ chars CHARSET) rest).
  { unfold in_alphabet in Hin. rewrite Hperm in Hin.
    by apply Forall_app in Hin as [_ ?]. }
  destruct (indices_of_chars digits [d]) as ([|id [|??]] & Hbd & Hmd);
    [by constructor|done| |done].
  destruct (indices_of_chars ascii_uppercase [u]) as ([|iu [|??]] & Hbu & Hmu);
    [by constructor|done| |done].
  destruct (indices_of_chars ascii_lowercase [l]) as ([|il [|??]] & Hbl & Hml);
    [by constructor|done| |done].
  destruct (indices_of_chars CHARSET rest Hrest) as (idxs & Hbi & Hmi).
  apply Forall_inv in Hbd, Hbu, Hbl.
  injection Hmd as Hmd. injection Hmu as Hmu. injection Hml as Hml.
  assert (Hn : Z.to_nat L = (3 + List.length idxs)%nat).
  { rewrite <- (length_map (char_at CHARSET)), Hmi.
    assert (List.length (chars s) = List.length ([d; u; l] ++ rest)) as Hl'
      by (by rewrite Hperm).
    rewrite length_chars, length_app in Hl'. cbn [List.length] in Hl'. lia. }
  destruct (shuffle_reaches ([d; u; l] ++ rest) (chars s)) as (ds & Hds & Hrun);
    [done|].
  exists (fonte_de ([id; iu; il] ++ idxs ++ ds)). eexists.
  set (o := λ r, nth r ([id; iu; il] ++ idxs ++ ds) 0%nat).
  change (fonte_de ([id; iu; il] ++ idxs ++ ds)) with (mkRng o 0).
  rewrite gerar_senha_all by (unfold MAX_LENGTH; lia).
  rewrite senha_composta_value by lia. cbn [fst].
  assert (Ho0 : (o 0 `mod` 10 = id)%nat) by (by apply Nat.mod_small).
  assert (Ho1 : (o (0 + 1) `mod` 26 = iu)%nat) by (by apply Nat.mod_small).
  assert (Ho2 : (o (0 + 2) `mod` 26 = il)%nat) by (by apply Nat.mod_small).
  rewrite Ho0, Ho1, Ho2, Hmd, Hmu, Hml.
  assert (Hfill : List.map (λ r, char_at CHARSET (o (0 + 3 + r) `mod` 62)%nat)
                    (seq 0 (Z.to_nat L - 3)) = rest).
  { replace (Z.to_nat L - 3)%nat with (List.length idxs) by lia.
    rewrite <- Hmi. rewrite <- (map_nth_seq idxs ds) at 2.
    rewrite List.map_map. apply List.map_ext_in. intros r Hr.
    apply in_seq in Hr. f_equal. apply Nat.mod_small.
    change (o (0 + 3 + r)%nat) with (nth r (idxs ++ ds) 0%nat).
    rewrite app_nth1 by lia.
    rewrite Forall_forall in Hbi. apply Hbi, list_elem_of_In, nth_In. lia. }
  rewrite Hfill. rewrite Hrun.
  - unfold join, chars. by rewrite string_of_list_ascii_of_string.
  - intros r Hr. rewrite Hn. cbn [plus].
    change (o (S (S (S (List.length idxs + r))))) with
      (nth (List.length idxs + r) (idxs ++ ds) 0%nat).
    by rewrite app_nth2_plus.
Qed.

(** ** Draws of one call and of successive calls *)

Lemma gerar_senha_window (length : Z) (require_all : bool) (o1 o2 : nat → nat)
    (p1 p2 : nat) :
  valid_policy length require_all →
  (∀ r, (r < draws length require_all)%nat → o1 (p1 + r)%nat = o2 (p2 + r)%nat) →
  (gerar_senha length require_all (mkRng o1 p1)).1
  = (gerar_senha length require_all (mkRng o2 p2)).1.
Proof.
  intros [Hl Hp] Ho. unfold MIN_LENGTH in Hl. unfold draws in Ho.
  destruct require_all.
  - specialize (Hp eq_refl). rewrite !gerar_senha_all by lia. cbn [fst].
    rewrite !senha_composta_value by lia.
    set (n := Z.to_nat length) in *. assert (3 ≤ n)%nat by lia.
    assert (Hc : ∀ r, (r < 2 * n - 1)%nat → o1 (p1 + r)%nat = o2 (p2 + r)%nat).
    { intros r Hr. apply Ho. lia. }
    rewrite <- (Nat.add_0_r p1) at 1. rewrite <- (Nat.add_0_r p2) at 1.
    rewrite !(Hc 0%nat), !(Hc 1%nat), !(Hc 2%nat) by lia.
    assert (Hfill : List.map (λ r, char_at CHARSET (o1 (p1 + 3 + r)%nat `mod` 62)%nat)
                      (seq 0 (n - 3))
                    = List.map (λ r, char_at CHARSET (o2 (p2 + 3 + r)%nat `mod` 62)%nat)
                        (seq 0 (n - 3))).
    { apply List.map_ext_in. intros r Hr. apply in_seq in Hr.
      rewrite <- !Nat.add_assoc. by rewrite Hc by lia. }
    rewrite Hfill. unfold shuffle. do 2 f_equal. apply shuffle_from_window.
    intros r Hr. rewrite length_app, length_map, length_seq in Hr.
    cbn [List.length] in Hr. rewrite <- !Nat.add_assoc. apply Hc. lia.
  - rewrite !gerar_senha_plain by done. cbn [fst].
    rewrite !repeatR_choice_value. do 2 f_equal.
    apply List.map_ext_in. intros r Hr. apply in_seq in Hr. by rewrite Ho by lia.
Qed.

Lemma apos_S (length : Z) (require_all : bool) (i : nat) (g : Rng) :
  apos length require_all (S i) g
  = apos length require_all i (apos length require_all 1 g).
Proof. unfold apos. cbn [outcomes drawn]. f_equal. lia. Qed.

Lemma gerar_senha_apos (length : Z) (require_all : bool) (g : Rng) :
  valid_policy length require_all →
  ∃ s, gerar_senha length require_all g
       = (Returned s, apos length require_all 1 g)
       ∧ contract length require_all s.
Proof.
  intros Hv.
  destruct (gerar_senha_contract length require_all g Hv) as (s & g' & Hs & Hc).
  pose proof (gerar_senha_state length require_all g Hv) as Hst.
  rewrite Hs in Hst. cbn [snd] in Hst. subst g'. exists s. split; [|done].
  rewrite Hs. do 2 f_equal. unfold apos. f_equal. lia.
Qed.

Lemma geradas_length (n : nat) (length : Z) (require_all : bool) (g : Rng) :
  valid_policy length require_all →
  List.length (geradas n length require_all g) = n.
Proof.
  intros Hv. revert g. induction n as [|n IH]; intros g; [done|].
  destruct (gerar_senha_apos length require_all g Hv) as (s & Hs & _).
  cbn [geradas]. rewrite Hs. cbn [List.length]. by rewrite IH.
Qed.

Lemma geradas_lookup (n i : nat) (length : Z) (require_all : bool) (g : Rng) :
  valid_policy length require_all → (i < n)%nat →
  ∃ s, geradas n length require_all g !! i = Some s
       ∧ gerar_senha length require_all (apos length require_all i g)
         = (Returned s, apos length require_all (S i) g).
Proof.
  intros Hv. revert i g. induction n as [|n IH]; intros i g Hi; [lia|].
  destruct (gerar_senha_apos length require_all g Hv) as (s & Hs & _).
  cbn [geradas]. rewrite Hs. destruct i as [|i].
  - exists s. split; [done|]. by rewrite apos_0.
  - destruct (IH i (apos length require_all 1 g) ltac:(lia)) as (s' & Hl & Hg).
    exists s'. split; [done|].
    by rewrite (apos_S _ _ i g), (apos_S _ _ (S i) g).
Qed.

Lemma geradas_take (n k : nat) (length : Z) (require_all : bool) (g : Rng) :
  valid_policy length require_all → (k ≤ n)%nat →
  take k (geradas n length require_all g) = geradas k length require_all g.
Proof.
  intros Hv. revert k g. induction n as [|n IH]; intros k g Hk.
  - by replace k with 0%nat by lia.
  - destruct k as [|k]; [done|].
    destruct (gerar_senha_apos length require_all g Hv) as (s & Hs & _).
    cbn [geradas]. rewrite Hs. cbn [take]. by rewrite IH by lia.
Qed.

Lemma repeatM_gerar_senha_state (n : nat) (length : Z) (require_all : bool)
    (g : Rng) :
  valid_policy length require_all →
  repeatM n (gerar_senha length require_all) g
  = (Returned (geradas n length require_all g), apos length require_all n g).
Proof.
  intros Hv. revert g. induction n as [|n IH]; intros g.
  - cbn [repeatM geradas]. unfold ret. by rewrite apos_0.
  - destruct (gerar_senha_apos length require_all g Hv) as (s & Hs & _).
    cbn [repeatM geradas]. unfold bind at 1. rewrite Hs.
    unfold bind at 1. rewrite IH. unfold ret. by rewrite (apos_S _ _ n g).
Qed.

(** ** What the loop of unique passwords returns *)

Lemma unicas_result (n : nat) (qtd length : Z) (require_all : bool)
    (senhas r : gset string) (g g' : Rng) :
  valid_policy length require_all →
  unicas n qtd length require_all senhas g = (Returned r, g') →
  ∃ k, (k ≤ n)%nat
       ∧ r = senhas ∪ conjunto (geradas k length require_all g)
       ∧ g' = apos length require_all k g
       ∧ qtd ≤ Z.of_nat (size r)
       ∧ ∀ j, (j < k)%nat →
              Z.of_nat (size (senhas ∪ conjunto (geradas j length require_all g)))
              < qtd.
Proof.
  intros Hv. revert senhas g. induction n as [|n IH]; intros senhas g.
  - cbn [unicas]. destruct (Z.of_nat (size senhas) <? qtd) eqn:E; [done|].
    intros [= <- <-]. exists 0%nat. split_and!; [done| | |lia|lia].
    + unfold conjunto. cbn [geradas list_to_set]. by rewrite (right_id_L ∅ (∪)).
    + by rewrite apos_0.
  - cbn [unicas]. destruct (Z.of_nat (size senhas) <? qtd) eqn:E.
    + destruct (gerar_senha_apos length require_all g Hv) as (s & Hs & _).
      unfold bind. rewrite Hs. intros Hr.
      destruct (IH _ _ Hr) as (k & Hk & -> & -> & Hsz & Hmin).
      exists (S k). split_and!.
      * lia.
      * cbn [geradas]. rewrite Hs. by rewrite conjunto_cons.
      * symmetry. apply apos_S.
      * done.
      * intros [|j] Hj.
        { unfold conjunto. cbn [geradas list_to_set].
          rewrite (right_id_L ∅ (∪)). lia. }
        cbn [geradas]. rewrite Hs, conjunto_cons. apply Hmin. lia.
    + intros [= <- <-]. exists 0%nat. split_and!; [lia| | |lia|lia].
      * unfold conjunto. cbn [geradas list_to_set]. by rewrite (right_id_L ∅ (∪)).
      * by rewrite apos_0.
Qed.

(** ** The four exceptions are told apart by their messages *)

Lemma InfeasibleUniqueRequest_other (qtd total length : Z) :
  InfeasibleUniqueRequest qtd total length ≠ InvalidLength
  ∧ InfeasibleUniqueRequest qtd total length ≠ InsufficientLengthForPolicy
  ∧ InfeasibleUniqueRequest qtd total length ≠ InvalidCount.
Proof. split_and!; discriminate. Qed.

Lemma conjunto_size_le (l : list string) : (size (conjunto l) ≤ List.length l)%nat.
Proof.
  unfold conjunto. induction l as [|s l IH]; cbn [list_to_set List.length].
  { by rewrite size_empty. }
  pose proof (size_add_le s (list_to_set l)). lia.
Qed.

Lemma gerar_lista_returned_valid fuel qtd L unique require_all g l g' :
  gerar_lista fuel qtd L unique require_all g = (Returned l, g') →
  1 ≤ qtd ≤ 10000 ∧ valid_policy L require_all
  ∧ (unique = true → qtd ≤ 62 ^ L)
  ∧ geracao fuel qtd L unique require_all g = (Returned l, g').
Proof.
  rewrite gerar_lista_stages.
  destruct (validacao qtd L unique require_all) eqn:Ev; [done|].
  apply validacao_None in Ev as (Hq & Hv & Hu). auto.
Qed.

Lemma validacao_infeasible (qtd L : Z) (require_all : bool) :
  1 ≤ qtd ≤ 10000 → valid_policy L require_all → 62 ^ L < qtd →
  validacao qtd L true require_all
  = Some (InfeasibleUniqueRequest qtd (62 ^ L) L).
Proof.
  intros Hq [Hl Hp] Hcap. unfold validacao, MIN_LENGTH, MAX_LENGTH in *.
  replace (qtd <? 1) with false by lia.
  replace (qtd >? 10000) with false by lia.
  replace (L <? 1) with false by lia.
  replace (L >? 64) with false by lia.
  replace (require_all && (L <? 3)) with false
    by (destruct require_all; [specialize (Hp eq_refl)|]; cbn [andb]; lia).
  cbn [orb]. cbv zeta. change (Z.of_nat (String.length CHARSET)) with 62.
  by replace (qtd >? 62 ^ L) with true by lia.
Qed.

(** ** Counting runs *)

Lemma elem_of_palavras (fs w : list nat) :
  w ∈ palavras fs ↔ Forall2 (λ x n, (x < n)%nat) w fs.
Proof.
  revert w. induction fs as [|n fs IH]; intros w; cbn [palavras].
  - rewrite list_elem_of_singleton. split; [intros ->; constructor | by inversion 1].
  - rewrite list_elem_of_bind. split.
    + intros (r & Hw & Hr). apply list_elem_of_fmap in Hw as (w' & -> & Hw').
      apply elem_of_seq in Hr. constructor; [lia | by apply IH].
    + inversion 1 as [|x n' w' fs' Hx Hw']; subst. exists x. split.
      * apply list_elem_of_fmap. exists w'. split; [done | by apply IH].
      * apply elem_of_seq. lia.
Qed.

Lemma NoDup_palavras (fs : list nat) : NoDup (palavras fs).
Proof.
  induction fs as [|n fs IH]; cbn [palavras].
  - apply NoDup_singleton.
  - apply NoDup_bind; [| |apply NoDup_seq].
    + intros x1 x2 y _ _ H1 H2.
      apply list_elem_of_fmap in H1 as (w1 & -> & _).
      apply list_elem_of_fmap in H2 as (w2 & [= ->] & _). done.
    + intros x _. apply NoDup_fmap_2; [|done]. by intros a b [=].
Qed.

Lemma elem_of_produto (A B : list (list nat)) (w : list nat) :
  w ∈ produto A B ↔ ∃ u v, w = u ++ v ∧ u ∈ A ∧ v ∈ B.
Proof.
  unfold produto. rewrite list_elem_of_bind. split.
  - intros (u & Hw & Hu). apply list_elem_of_fmap in Hw as (v & -> & Hv). eauto.
  - intros (u & v & -> & Hu & Hv). exists u. split; [|done].
    apply list_elem_of_fmap. eauto.
Qed.

Lemma produto_cons (u : list nat) (A B : list (list nat)) :
  produto (u :: A) B = ((u ++.) <$> B) ++ produto A B.
Proof. done. Qed.

Lemma produto_app (A1 A2 B : list (list nat)) :
  produto (A1 ++ A2) B = produto A1 B ++ produto A2 B.
Proof. unfold produto. apply bind_app. Qed.

Lemma length_produto (A B : list (list nat)) :
  List.length (produto A B) = (List.length A * List.length B)%nat.
Proof.
  induction A as [|u A IH]; [done|].
  rewrite produto_cons, length_app, length_fmap, IH. cbn [List.length]. lia.
Qed.

Lemma produto_unit_r (A : list (list nat)) : produto A [[]] = A.
Proof.
  induction A as [|u A IH]; [done|].
  rewrite produto_cons, IH. cbn. by rewrite app_nil_r.
Qed.

Lemma produto_assoc (A B C : list (list nat)) :
  produto (produto A B) C = produto A (produto B C).
Proof.
  induction A as [|u A IH]; [done|].
  rewrite !produto_cons, produto_app, IH. f_equal. clear IH.
  induction B as [|v B IH]; [done|].
  rewrite produto_cons, fmap_app, <- IH. cbn [fmap list_fmap].
  rewrite produto_cons. f_equal.
  rewrite <- list_fmap_compose. apply list_fmap_ext. intros _ w _.
  cbn. by rewrite app_assoc.
Qed.

Lemma NoDup_produto (n : nat) (A B : list (list nat)) :
  (∀ u, u ∈ A → List.length u = n) → NoDup A → NoDup B → NoDup (produto A B).
Proof.
  intros Hlen HA HB. unfold produto. apply NoDup_bind; [| |done].
  - intros u1 u2 w H1 H2 Hw1 Hw2.
    apply list_elem_of_fmap in Hw1 as (v1 & -> & _).
    apply list_elem_of_fmap in Hw2 as (v2 & Heq & _).
    apply app_inj_1 in Heq as [? _]; [done|].
    by rewrite (Hlen _ H1), (Hlen _ H2).
  - intros u _. apply NoDup_fmap_2; [|done]. intros a b. apply app_inv_head.
Qed.

(** The runs of a product that are in [f] are at most those whose first
    part is in [fA] and whose second part is in [fB]. *)
Lemma filter_produto (f fA fB : list nat → bool) (A B : list (list nat)) :
  (∀ u v, u ∈ A → v ∈ B → f (u ++ v) = true → fA u = true ∧ fB v = true) →
  (List.length (List.filter f (produto A B))
   ≤ List.length (List.filter fA A) * List.length (List.filter fB B))%nat.
Proof.
  intros Hf. induction A as [|u A IH]; [done|].
  rewrite produto_cons, List.filter_app, length_app.
  assert (Hu : (List.length (List.filter f ((u ++.) <$> B))
                ≤ (if fA u then List.length (List.filter fB B) else 0))%nat).
  { assert (HB : ∀ v, v ∈ B → f (u ++ v) = true → fA u = true ∧ fB v = true).
    { intros v Hv. apply Hf; [left|done]. }
    clear Hf IH. induction B as [|v B IHB]; [by destruct (fA u)|].
    cbn [fmap list_fmap List.filter].
    assert (IHB' := IHB (λ v' Hv', HB v' (list_elem_of_further _ _ _ Hv'))).
    pose proof (HB v (list_elem_of_here _ _)) as Hv.
    destruct (f (u ++ v)).
    - destruct (Hv eq_refl) as [Hu Hfv]. rewrite Hu in *. rewrite Hfv.
      cbn [List.length]. lia.
    - destruct (fA u); [|done]. destruct (fB v); cbn [List.length]; lia. }
  assert (IH' := IH (λ u' v Hu' Hv, Hf u' v (list_elem_of_further _ _ _ Hu') Hv)).
  cbn [List.filter]. destruct (fA u); cbn [List.length]; lia.
Qed.

Lemma length_filter_falta (f : list nat → bool) (B : list (list nat)) (v : list nat) :
  v ∈ B → f v = false →
  (List.length (List.filter f B) < List.length B)%nat.
Proof.
  intros Hv Hf. induction B as [|v' B IH]; [by apply elem_of_nil in Hv|].
  cbn [List.filter]. apply elem_of_cons in Hv as [<-|Hv].
  - rewrite Hf. pose proof (List.filter_length_le f B). cbn [List.length]. lia.
  - specialize (IH Hv). destruct (f v'); cbn [List.length]; lia.
Qed.

(** ** The runs of [k] calls *)

Lemma corridas_add (a b : nat) (L : Z) (require_all : bool) :
  corridas (a + b) L require_all
  = produto (corridas a L require_all) (corridas b L require_all).
Proof.
  induction b as [|b IH].
  - rewrite Nat.add_0_r. cbn [corridas]. by rewrite produto_unit_r.
  - rewrite Nat.add_succ_r. cbn [corridas]. by rewrite IH, produto_assoc.
Qed.

Lemma length_corridas (k : nat) (L : Z) (require_all : bool) :
  List.length (corridas k L require_all)
  = (List.length (chamada L require_all) ^ k)%nat.
Proof.
  induction k as [|k IH]; [done|].
  cbn [corridas]. rewrite length_produto, IH. cbn [Nat.pow]. lia.
Qed.

Lemma chamada_length (L : Z) (require_all : bool) (w : list nat) :
  w ∈ chamada L require_all → List.length w = draws L require_all.
Proof.
  intros Hw. apply elem_of_palavras, Forall2_length in Hw.
  by rewrite Hw, length_fmap, length_seq.
Qed.

Lemma corridas_length (k : nat) (L : Z) (require_all : bool) (w : list nat) :
  w ∈ corridas k L require_all →
  List.length w = (k * draws L require_all)%nat.
Proof.
  revert w. induction k as [|k IH]; intros w; cbn [corridas].
  - by intros ->%list_elem_of_singleton.
  - intros (u & v & -> & Hu & Hv)%elem_of_produto.
    rewrite length_app, (IH u Hu), (chamada_length _ _ _ Hv). lia.
Qed.

Lemma NoDup_corridas (k : nat) (L : Z) (require_all : bool) :
  NoDup (corridas k L require_all).
Proof.
  induction k as [|k IH]; cbn [corridas]; [apply NoDup_singleton|].
  apply (NoDup_produto (k * draws L require_all)); [|done|apply NoDup_palavras].
  intros u. apply corridas_length.
Qed.

(** ** What a run yields *)

Lemma geradas_window (k : nat) (L : Z) (require_all : bool) (o1 o2 : nat → nat)
    (p1 p2 : nat) :
  valid_policy L require_all →
  (∀ r, (r < k * draws L require_all)%nat → o1 (p1 + r)%nat = o2 (p2 + r)%nat) →
  geradas k L require_all (mkRng o1 p1) = geradas k L require_all (mkRng o2 p2).
Proof.
  intros Hv. revert p1 p2. induction k as [|k IH]; intros p1 p2 Ho; [done|].
  cbn [geradas].
  pose proof (gerar_senha_window L require_all o1 o2 p1 p2 Hv) as Hw.
  destruct (gerar_senha_apos L require_all (mkRng o1 p1) Hv) as (s1 & E1 & _).
  destruct (gerar_senha_apos L require_all (mkRng o2 p2) Hv) as (s2 & E2 & _).
  rewrite E1, E2 in Hw. cbn [fst] in Hw.
  assert (s1 = s2) as <-.
  { assert (Returned s1 = Returned s2) as [= ->]; [|done].
    apply Hw. intros r Hr. apply Ho. lia. }
  rewrite E1, E2. f_equal.
  unfold apos. cbn [outcomes drawn]. apply IH. intros r Hr.
  replace (p1 + 1 * draws L require_all + r)%nat
    with (p1 + (draws L require_all + r))%nat by lia.
  replace (p2 + 1 * draws L require_all + r)%nat
    with (p2 + (draws L require_all + r))%nat by lia.
  apply Ho. lia.
Qed.

Lemma geradas_add (a b : nat) (L : Z) (require_all : bool) (g : Rng) :
  valid_policy L require_all →
  geradas (a + b) L require_all g
  = geradas a L require_all g ++ geradas b L require_all (apos L require_all a g).
Proof.
  intros Hv. revert g. induction a as [|a IH]; intros g.
  - by rewrite apos_0.
  - cbn [Nat.add geradas].
    destruct (gerar_senha_apos L require_all g Hv) as (s & -> & _).
    by rewrite IH, <- apos_S.
Qed.

Lemma geradas_fonte_de_app (a b : nat) (L : Z) (require_all : bool)
    (u v : list nat) :
  valid_policy L require_all →
  List.length u = (a * draws L require_all)%nat →
  geradas (a + b) L require_all (fonte_de (u ++ v))
  = geradas a L require_all (fonte_de u) ++ geradas b L require_all (fonte_de v).
Proof.
  intros Hv Hu. rewrite geradas_add by done. unfold fonte_de, apos.
  cbn [outcomes drawn]. f_equal.
  - apply geradas_window; [done|]. intros r Hr. cbn [Nat.add].
    apply app_nth1. lia.
  - apply geradas_window; [done|]. intros r Hr. cbn [Nat.add].
    rewrite app_nth2 by lia. f_equal. lia.
Qed.

Lemma geradas_fonte_de_prefix (a : nat) (L : Z) (require_all : bool)
    (u v : list nat) :
  valid_policy L require_all →
  List.length u = (a * draws L require_all)%nat →
  geradas a L require_all (fonte_de (u ++ v)) = geradas a L require_all (fonte_de u).
Proof.
  intros Hv Hu. pose proof (geradas_fonte_de_app a 0 L require_all u v Hv Hu) as H.
  rewrite Nat.add_0_r in H. rewrite H. cbn [geradas]. by rewrite app_nil_r.
Qed.

Lemma pendente_spec (k : nat) (qtd L : Z) (require_all : bool) (w : list nat) :
  1 ≤ qtd ≤ 10000 → valid_policy L require_all → qtd ≤ 62 ^ L →
  pendente k qtd L require_all w = true
  ↔ Z.of_nat (size (conjunto (geradas k L require_all (fonte_de w)))) < qtd.
Proof.
  intros Hq Hv Hcap. unfold pendente.
  destruct (gerar_lista_unique_outcome k qtd L require_all (fonte_de w) Hq Hv Hcap)
    as [Hret Hdiv].
  destruct (Z_lt_dec (Z.of_nat (size (conjunto (geradas k L require_all (fonte_de w)))))
              qtd) as [Hlt|Hge].
  - rewrite (Hdiv Hlt). done.
  - destruct Hret as (l & g' & -> & _); [lia|]. cbn [fst]. split; [done|lia].
Qed.

(** ** The run that completes the set *)

Lemma code_faixa (L : Z) (require_all : bool) (t r : nat) :
  valid_policy L require_all → (r < draws L require_all)%nat →
  (code L require_all t r < faixa L require_all r)%nat.
Proof.
  intros [Hl Hp] Hr. unfold code, faixa, draws, MIN_LENGTH, MAX_LENGTH in *.
  destruct require_all.
  - specialize (Hp eq_refl).
    destruct (r =? 0)%nat eqn:E0; [apply Nat.mod_upper_bound; lia|].
    apply Nat.eqb_neq in E0.
    destruct (r =? 1)%nat eqn:E1.
    { apply Nat.eqb_eq in E1. subst r. cbn [Nat.ltb Nat.leb].
      apply Nat.mod_upper_bound. lia. }
    apply Nat.eqb_neq in E1.
    destruct (r =? 2)%nat eqn:E2.
    { apply Nat.eqb_eq in E2. subst r. cbn [Nat.ltb Nat.leb].
      apply Nat.mod_upper_bound. lia. }
    apply Nat.eqb_neq in E2.
    rewrite (proj2 (Nat.ltb_ge r 3)) by lia.
    destruct (r <? Z.to_nat L)%nat eqn:E3; [lia|].
    apply Nat.ltb_ge in E3.
    destruct (r <? 2 * Z.to_nat L - 2)%nat eqn:E4.
    { apply Nat.ltb_lt in E4. lia. }
    apply Nat.ltb_ge in E4.
    destruct (_ =? 0)%nat; lia.
  - pose proof (base62_bound (Z.to_nat L) t) as Hb.
    rewrite Forall_forall in Hb. apply Hb, nth_elem_of.
    assert (Hlen : ∀ n t', List.length (base62 n t') = n).
    { intros n. induction n as [|n IH]; intros t'; cbn; [done|by rewrite IH]. }
    rewrite Hlen. lia.
Qed.

Lemma bloco_chamada (L : Z) (require_all : bool) (t : nat) :
  valid_policy L require_all → bloco L require_all t ∈ chamada L require_all.
Proof.
  intros Hv. unfold bloco, chamada. apply elem_of_palavras.
  apply Forall2_fmap, Forall_Forall2_diag, Forall_forall.
  intros r Hr%elem_of_seq. apply code_faixa; [done|lia].
Qed.

Lemma length_bloco (L : Z) (require_all : bool) (t : nat) :
  List.length (bloco L require_all t) = draws L require_all.
Proof. unfold bloco. by rewrite length_fmap, length_seq. Qed.

Lemma length_primeiras (k : nat) (L : Z) (require_all : bool) :
  List.length (primeiras k L require_all) = (k * draws L require_all)%nat.
Proof.
  induction k as [|k IH]; [done|]. cbn [primeiras].
  rewrite length_app, IH, length_bloco. lia.
Qed.

Lemma primeiras_corridas (k : nat) (L : Z) (require_all : bool) :
  valid_policy L require_all →
  primeiras k L require_all ∈ corridas k L require_all.
Proof.
  intros Hv. induction k as [|k IH]; cbn [primeiras corridas].
  - apply list_elem_of_singleton. done.
  - apply elem_of_produto. eexists _, _. split; [done|].
    split; [done | by apply bloco_chamada].
Qed.

Lemma geradas_bloco (L : Z) (require_all : bool) (t : nat) :
  valid_policy L require_all →
  geradas 1 L require_all (fonte_de (bloco L require_all t))
  = [alvo L require_all t].
Proof.
  intros Hv. cbn [geradas]. unfold fonte_de.
  rewrite (gerar_senha_coded L require_all t); [done|done|].
  intros r Hr. cbn [Nat.add]. unfold bloco.
  rewrite nth_lookup, list_lookup_fmap, lookup_seq_lt by done. done.
Qed.

Lemma geradas_primeiras (k : nat) (L : Z) (require_all : bool) :
  valid_policy L require_all →
  geradas k L require_all (fonte_de (primeiras k L require_all))
  = alvo L require_all <$> seq 0 k.
Proof.
  intros Hv. induction k as [|k IH]; [done|]. cbn [primeiras].
  replace (S k) with (k + 1)%nat at 1 by lia.
  rewrite geradas_fonte_de_app by (done || apply length_primeiras).
  rewrite IH, geradas_bloco by done.
  by rewrite seq_S, fmap_app.
Qed.

Lemma primeiras_completa (qtd L : Z) (require_all : bool) (X : list string) :
  1 ≤ qtd ≤ 10000 → valid_policy L require_all → qtd ≤ 62 ^ L →
  qtd ≤ Z.of_nat (size (conjunto
         (X ++ geradas (Z.to_nat qtd) L require_all
                 (fonte_de (primeiras (Z.to_nat qtd) L require_all))))).
Proof.
  intros Hq Hv Hcap. rewrite geradas_primeiras by done.
  assert (Z.to_nat qtd ≤ size (conjunto
            (X ++ (alvo L require_all <$> seq 0 (Z.to_nat qtd)))))%nat; [|lia].
  apply (alvos_size _ L require_all).
  - destruct Hv as [Hl _]. unfold MIN_LENGTH in Hl. lia.
  - rewrite Z2Nat.id by lia. apply numeradas_enough; lia.
  - intros j Hj. apply elem_of_list_to_set, elem_of_app. right.
    apply list_elem_of_fmap. exists j. split; [done|]. apply elem_of_seq. lia.
Qed.

(** ** The runs on which the loop is still running *)

Lemma conjunto_app_size (A B : list string) :
  (size (conjunto A) ≤ size (conjunto (A ++ B)))%nat.
Proof.
  apply subseteq_size. intros s. unfold conjunto.
  rewrite !elem_of_list_to_set, elem_of_app. tauto.
Qed.

Lemma pendente_prefixo (a b : nat) (qtd L : Z) (require_all : bool)
    (u v : list nat) :
  1 ≤ qtd ≤ 10000 → valid_policy L require_all → qtd ≤ 62 ^ L →
  u ∈ corridas a L require_all →
  pendente (a + b) qtd L require_all (u ++ v) = true →
  pendente a qtd L require_all u = true.
Proof.
  intros Hq Hv Hcap Hu. rewrite !pendente_spec by done.
  rewrite geradas_fonte_de_app by (done || by apply corridas_length).
  pose proof (conjunto_app_size (geradas a L require_all (fonte_de u))
                (geradas b L require_all (fonte_de v))). lia.
Qed.

Lemma pendente_primeiras (a : nat) (qtd L : Z) (require_all : bool)
    (u : list nat) :
  1 ≤ qtd ≤ 10000 → valid_policy L require_all → qtd ≤ 62 ^ L →
  u ∈ corridas a L require_all →
  pendente (a + Z.to_nat qtd) qtd L require_all
           (u ++ primeiras (Z.to_nat qtd) L require_all) = false.
Proof.
  intros Hq Hv Hcap Hu. apply not_true_is_false. rewrite pendente_spec by done.
  rewrite geradas_fonte_de_app by (done || by apply corridas_length).
  pose proof (primeiras_completa qtd L require_all
                (geradas a L require_all (fonte_de u)) Hq Hv Hcap). lia.
Qed.

Lemma pendentes_passo (a b : nat) (qtd L : Z) (require_all : bool) :
  1 ≤ qtd ≤ 10000 → valid_policy L require_all → qtd ≤ 62 ^ L →
  (List.length (List.filter (pendente (a + b) qtd L require_all)
                            (corridas (a + b) L require_all))
   ≤ List.length (List.filter (pendente a qtd L require_all)
                              (corridas a L require_all))
     * List.length (corridas b L require_all))%nat.
Proof.
  intros Hq Hv Hcap. rewrite corridas_add.
  etrans; [apply (filter_produto _ (pendente a qtd L require_all) (λ _, true))|].
  - intros u v Hu _ Hp. split; [|done]. by eapply pendente_prefixo.
  - apply Nat.mul_le_mono_l, List.filter_length_le.
Qed.

Lemma pendentes_bloco (a : nat) (qtd L : Z) (require_all : bool) :
  1 ≤ qtd ≤ 10000 → valid_policy L require_all → qtd ≤ 62 ^ L →
  (List.length (List.filter (pendente (a + Z.to_nat qtd) qtd L require_all)
                            (corridas (a + Z.to_nat qtd) L require_all))
   ≤ List.length (List.filter (pendente a qtd L require_all)
                              (corridas a L require_all))
     * (List.length (corridas (Z.to_nat qtd) L require_all) - 1))%nat.
Proof.
  intros Hq Hv Hcap. rewrite corridas_add.
  set (alvo_q := primeiras (Z.to_nat qtd) L require_all).
  etrans; [apply (filter_produto _ (pendente a qtd L require_all)
                    (λ v, negb (bool_decide (v = alvo_q))))|].
  - intros u v Hu _ Hp. split; [by eapply pendente_prefixo|].
    apply negb_true_iff, bool_decide_eq_false. intros ->.
    by rewrite pendente_primeiras in Hp.
  - apply Nat.mul_le_mono_l.
    assert (List.length (List.filter (λ v, negb (bool_decide (v = alvo_q)))
                           (corridas (Z.to_nat qtd) L require_all))
            < List.length (corridas (Z.to_nat qtd) L require_all))%nat; [|lia].
    apply (length_filter_falta _ _ alvo_q); [by apply primeiras_corridas|].
    by rewrite bool_decide_eq_true_2.
Qed.

Lemma pendentes_blocos (r j : nat) (qtd L : Z) (require_all : bool) :
  1 ≤ qtd ≤ 10000 → valid_policy L require_all → qtd ≤ 62 ^ L →
  (List.length (List.filter (pendente (r + j * Z.to_nat qtd) qtd L require_all)
                            (corridas (r + j * Z.to_nat qtd) L require_all))
   ≤ List.length (corridas r L require_all)
     * (List.length (corridas (Z.to_nat qtd) L require_all) - 1) ^ j)%nat.
Proof.
  intros Hq Hv Hcap. induction j as [|j IH].
  - cbn [Nat.mul Nat.pow]. rewrite Nat.add_0_r, Nat.mul_1_r.
    apply List.filter_length_le.
  - replace (r + S j * Z.to_nat qtd)%nat
      with ((r + j * Z.to_nat qtd) + Z.to_nat qtd)%nat by lia.
    etrans; [by apply pendentes_bloco|].
    etrans; [apply Nat.mul_le_mono_r, IH|]. cbn [Nat.pow]. lia.
Qed.

Lemma bernoulli (a j : nat) : ((a + j) * a ^ j ≤ a * (a + 1) ^ j)%nat.
Proof.
  induction j as [|j IH]; [cbn [Nat.pow]; lia|].
  cbn [Nat.pow]. set (x := (a ^ j)%nat) in *. set (y := ((a + 1) ^ j)%nat) in *.
  clearbody x y. nia.
Qed.

Lemma potencias_raras (m n : nat) :
  (1 ≤ m)%nat → ∃ j0, ∀ j, (j0 ≤ j)%nat → (n * (m - 1) ^ j ≤ m ^ j)%nat.
Proof.
  intros Hm. exists (n * (m - 1) + 1)%nat. intros j Hj.
  destruct (decide (m = 1%nat)) as [->|Hne].
  - destruct j as [|j]; [lia|]. cbn [Nat.sub Nat.pow]. lia.
  - pose proof (bernoulli (m - 1) j) as Hb.
    replace (m - 1 + 1)%nat with m in Hb by lia.
    set (x := ((m - 1) ^ j)%nat) in *. set (y := (m ^ j)%nat) in *. clearbody x y.
    apply (Nat.mul_le_mono_pos_l _ _ (m - 1)); [lia|]. nia.
Qed.

(** Under a uniform source the loop of line 68 is still running after [k]
    calls with a probability that goes to 0 as [k] grows: whatever [n], from
    some [k0] on at most one run of [k] calls in [n] has not made [qtd]
    distinct passwords. *)
Lemma pendentes_raras (qtd L : Z) (require_all : bool) (n : nat) :
  1 ≤ qtd ≤ 10000 → valid_policy L require_all → qtd ≤ 62 ^ L →
  ∃ k0, ∀ k, (k0 ≤ k)%nat →
    (n * List.length (List.filter (pendente k qtd L require_all)
                                  (corridas k L require_all))
     ≤ List.length (corridas k L require_all))%nat.
Proof.
  intros Hq Hv Hcap. set (q := Z.to_nat qtd).
  set (m := List.length (corridas q L require_all)).
  assert (Hm : (1 ≤ m)%nat).
  { pose proof (primeiras_corridas q L require_all Hv) as Hin.
    unfold m. destruct (corridas q L require_all); [by apply elem_of_nil in Hin|].
    cbn [List.length]. lia. }
  destruct (potencias_raras m n Hm) as [j0 Hj0].
  exists (j0 * q)%nat. intros k Hk.
  assert (Hq1 : (1 ≤ q)%nat) by (unfold q; lia).
  set (j := (k / q)%nat). set (r := (k mod q)%nat).
  assert (Hkr : k = (r + j * q)%nat).
  { unfold r, j. pose proof (Nat.div_mod k q ltac:(lia)). lia. }
  assert (Hj : (j0 ≤ j)%nat).
  { unfold j. apply Nat.div_le_lower_bound; lia. }
  rewrite Hkr.
  pose proof (pendentes_blocos r j qtd L require_all Hq Hv Hcap) as Hb.
  fold q in Hb. fold m in Hb.
  assert (Ht : List.length (corridas (r + j * q) L require_all)
               = (List.length (corridas r L require_all) * m ^ j)%nat).
  { rewrite corridas_add, length_produto. f_equal. unfold m.
    rewrite !length_corridas. by rewrite Nat.mul_comm, Nat.pow_mul_r. }
  rewrite Ht. specialize (Hj0 j Hj).
  set (x := List.length (List.filter _ _)) in *.
  set (c := List.length (corridas r L require_all)) in *.
  set (y := ((m - 1) ^ j)%nat) in *. set (z := (m ^ j)%nat) in *.
  clearbody x c y z. nia.
Qed.

(** No number of calls bounds the loop: on the run made of 0s, which is as
    likely as any other, every call gives the same password. *)
Lemma corridas_zeros (k : nat) (L : Z) (require_all : bool) :
  valid_policy L require_all →
  repeat 0%nat (k * draws L require_all) ∈ corridas k L require_all.
Proof.
  intros Hv. induction k as [|k IH]; [by apply list_elem_of_singleton|].
  cbn [corridas]. apply elem_of_produto.
  exists (repeat 0%nat (k * draws L require_all)),
         (repeat 0%nat (draws L require_all)).
  split; [|split; [done|]].
  - rewrite <- repeat_app. f_equal. lia.
  - apply elem_of_palavras.
    assert (Hr : ∀ a n, Forall2 (λ x b, (x < b)%nat) (repeat 0%nat n)
                          (faixa L require_all <$> seq a n) ∨ ¬ valid_policy L require_all
                        ∨ (draws L require_all < a + n)%nat).
    { intros a n. revert a. induction n as [|n IHn]; intros a;
        [left; constructor|].
      destruct (decide (a + S n ≤ draws L require_all)%nat) as [Hle|]; [|right; right; lia].
      left. cbn [repeat seq fmap list_fmap]. constructor.
      - pose proof (code_faixa L require_all 0 a Hv ltac:(lia)). lia.
      - destruct (IHn (S a)) as [H|[H|H]]; [done|done|lia]. }
    destruct (Hr 0%nat (draws L require_all)) as [H|[H|H]]; [done|done|lia].
Qed.

Lemma pendente_zeros (k : nat) (qtd L : Z) (require_all : bool) :
  2 ≤ qtd ≤ 10000 → valid_policy L require_all → qtd ≤ 62 ^ L →
  pendente k qtd L require_all (repeat 0%nat (k * draws L require_all)) = true.
Proof.
  intros Hq Hv Hcap. apply pendente_spec; [lia|done|done|].
  destruct (gerar_senha_apos L require_all zeros Hv) as (s & Hs & _).
  assert (Hg : geradas k L require_all
                 (fonte_de (repeat 0%nat (k * draws L require_all)))
               = repeat s k).
  { unfold fonte_de.
    rewrite (geradas_window k L require_all _ (λ _, 0%nat) 0 0 Hv).
    - apply (geradas_const k L require_all s _ (draws L require_all)).
      intros p.
      pose proof (gerar_senha_window L require_all (λ _, 0%nat) (λ _, 0%nat)
                    p 0 Hv (λ _ _, eq_refl)) as Hw.
      pose proof (gerar_senha_state L require_all (mkRng (λ _, 0%nat) p) Hv) as Hst.
      unfold zeros in Hs. rewrite Hs in Hw. cbn [fst] in Hw.
      destruct (gerar_senha L require_all (mkRng (λ _, 0%nat) p)) as [o g'].
      cbn [fst snd outcomes drawn] in *. by subst.
    - intros r _. cbn [Nat.add]. rewrite nth_repeat. done. }
  rewrite Hg. pose proof (conjunto_repeat_size s k) as Hsz.
  rewrite (left_id_L ∅ (∪)) in Hsz. lia.
Qed.

(** ** The bounds of the draws *)

Lemma shuffle_from_faixa (i : nat) (x : list ascii) (o1 o2 : nat → nat)
    (p1 p2 : nat) :
  (∀ r, (r < i)%nat →
        (o1 (p1 + r) `mod` (S i - r) = o2 (p2 + r) `mod` (S i - r))%nat) →
  (shuffle_from i x (mkRng o1 p1)).1 = (shuffle_from i x (mkRng o2 p2)).1.
Proof.
  revert x p1 p2. induction i as [|i IH]; intros x p1 p2 Ho; [done|].
  cbn [shuffle_from]. unfold randbelow. cbn [outcomes drawn].
  pose proof (Ho 0%nat ltac:(lia)) as H0.
  rewrite !Nat.add_0_r, Nat.sub_0_r in H0. rewrite H0.
  apply IH. intros r Hr. specialize (Ho (S r) ltac:(lia)).
  replace (S p1 + r)%nat with (p1 + S r)%nat by lia.
  replace (S p2 + r)%nat with (p2 + S r)%nat by lia.
  by replace (S i - r)%nat with (S (S i) - S r)%nat by lia.
Qed.

(** The [r]-th draw of a call of [gerar_senha] is read below [faixa r]: the
    password is the same on two sources whose draws agree below these
    bounds. *)
Lemma gerar_senha_faixa (L : Z) (require_all : bool) (o1 o2 : nat → nat)
    (p1 p2 : nat) :
  valid_policy L require_all →
  (∀ r, (r < draws L require_all)%nat →
        (o1 (p1 + r) `mod` faixa L require_all r
         = o2 (p2 + r) `mod` faixa L require_all r)%nat) →
  (gerar_senha L require_all (mkRng o1 p1)).1
  = (gerar_senha L require_all (mkRng o2 p2)).1.
Proof.
  intros [Hl Hp] Ho. unfold MIN_LENGTH in Hl. unfold draws, faixa in Ho.
  destruct require_all.
  - specialize (Hp eq_refl). rewrite !gerar_senha_all by lia. cbn [fst].
    rewrite !senha_composta_value by lia.
    set (n := Z.to_nat L) in *. assert (3 ≤ n)%nat by lia.
    assert (Hd : Z.to_nat (2 * L - 1) = (2 * n - 1)%nat) by lia.
    rewrite Hd in Ho.
    pose proof (Ho 0%nat ltac:(lia)) as H0.
    pose proof (Ho 1%nat ltac:(lia)) as H1.
    pose proof (Ho 2%nat ltac:(lia)) as H2.
    cbn [Nat.eqb Nat.ltb Nat.leb] in H0, H1, H2.
    rewrite !Nat.add_0_r in H0. rewrite H0, H1, H2.
    assert (Hfill : List.map (λ r, char_at CHARSET (o1 (p1 + 3 + r)%nat `mod` 62)%nat)
                      (seq 0 (n - 3))
                    = List.map (λ r, char_at CHARSET (o2 (p2 + 3 + r)%nat `mod` 62)%nat)
                        (seq 0 (n - 3))).
    { apply List.map_ext_in. intros r Hr. apply in_seq in Hr.
      specialize (Ho (3 + r)%nat ltac:(lia)).
      replace (3 + r =? 0)%nat with false in Ho by (symmetry; apply Nat.eqb_neq; lia).
      rewrite (proj2 (Nat.ltb_ge (3 + r) 3)) in Ho by lia.
      rewrite (proj2 (Nat.ltb_lt (3 + r) n)) in Ho by lia.
      rewrite <- !Nat.add_assoc. by rewrite Ho. }
    rewrite Hfill. unfold shuffle. do 2 f_equal. apply shuffle_from_faixa.
    intros r Hr. rewrite length_app, length_map, length_seq in Hr |- *.
    cbn [List.length] in Hr |- *.
    specialize (Ho (n + r)%nat ltac:(lia)).
    replace (n + r =? 0)%nat with false in Ho by (symmetry; apply Nat.eqb_neq; lia).
    rewrite (proj2 (Nat.ltb_ge (n + r) 3)) in Ho by lia.
    rewrite (proj2 (Nat.ltb_ge (n + r) n)) in Ho by lia.
    rewrite <- !Nat.add_assoc.
    by replace (S (3 + (n - 3) - 1) - r)%nat with (2 * n - (n + r))%nat by lia.
  - rewrite !gerar_senha_plain by done. cbn [fst].
    rewrite !repeatR_choice_value. do 2 f_equal.
    apply List.map_ext_in. intros r Hr. apply in_seq in Hr.
    change (String.length CHARSET) with 62%nat. by rewrite Ho by lia.
Qed.

(** The runs of [k] calls are the lists of [k] times [draws] results, each
    below the bound of its draw. *)
Lemma elem_of_chamada (L : Z) (require_all : bool) (w : list nat) :
  w ∈ chamada L require_all
  ↔ List.length w = draws L require_all
    ∧ ∀ r, (r < draws L require_all)%nat →
           (nth r w 0 < faixa L require_all r)%nat.
Proof.
  unfold chamada. rewrite elem_of_palavras. split.
  - intros Hw. pose proof (Forall2_length _ _ _ Hw) as Hlen.
    rewrite length_fmap, length_seq in Hlen. split; [done|]. intros r Hr.
    destruct (lookup_lt_is_Some_2 w r ltac:(lia)) as [x Hx].
    rewrite (nth_lookup_Some _ _ _ _ Hx).
    eapply (Forall2_lookup_lr _ _ _ r) in Hw; [exact Hw|exact Hx|].
    by rewrite list_lookup_fmap, lookup_seq_lt.
  - intros [Hlen Hw]. apply Forall2_same_length_lookup_2.
    { by rewrite length_fmap, length_seq. }
    intros r x n Hx Hn. rewrite list_lookup_fmap in Hn.
    destruct (seq 0 (draws L require_all) !! r) as [r'|] eqn:Hr; [|done].
    apply lookup_seq in Hr as [-> Hr]. injection Hn as <-.
    specialize (Hw r Hr). by rewrite (nth_lookup_Some _ _ _ _ Hx) in Hw.
Qed.

Lemma elem_of_corridas (k : nat) (L : Z) (require_all : bool) (w : list nat) :
  valid_policy L require_all →
  w ∈ corridas k L require_all
  ↔ List.length w = (k * draws L require_all)%nat
    ∧ ∀ p, (p < k * draws L require_all)%nat →
           (nth p w 0 < faixa L require_all (p `mod` draws L require_all))%nat.
Proof.
  intros Hv. pose proof (draws_pos L require_all Hv) as Hd.
  set (d := draws L require_all) in *.
  revert w. induction k as [|k IH]; intros w; cbn [corridas].
  - rewrite list_elem_of_singleton. split.
    + intros ->. split; [done|]. intros p Hp. lia.
    + intros [Hlen _]. by destruct w.
  - rewrite elem_of_produto. split.
    + intros (u & v & -> & Hu & Hv').
      apply IH in Hu as [Hlu Hu]. apply elem_of_chamada in Hv' as [Hlv Hv'].
      fold d in Hlv, Hv'. split; [rewrite length_app; lia|].
      intros p Hp. destruct (decide (p < k * d)%nat) as [Hlt|Hge].
      * rewrite app_nth1 by lia. by apply Hu.
      * rewrite app_nth2 by lia. rewrite Hlu.
        replace (p `mod` d)%nat with (p - k * d)%nat; [apply Hv'; lia|].
        apply (Nat.mod_unique p d k); lia.
    + intros [Hlen Hw]. exists (take (k * d) w), (drop (k * d) w).
      split; [by rewrite take_drop|]. split.
      * apply IH. split; [rewrite length_take; lia|].
        intros p Hp. rewrite <- (take_drop (k * d) w) in Hw.
        specialize (Hw p ltac:(lia)).
        rewrite app_nth1 in Hw by (rewrite length_take; lia). done.
      * apply elem_of_chamada. fold d. split; [rewrite length_drop; lia|].
        intros r Hr. specialize (Hw (k * d + r)%nat ltac:(lia)).
        rewrite <- (take_drop (k * d) w) in Hw.
        rewrite app_nth2 in Hw by (rewrite length_take; lia).
        rewrite length_take, Nat.min_l in Hw by lia.
        replace (k * d + r - k * d)%nat with r in Hw by lia.
        replace ((k * d + r) `mod` d)%nat with r in Hw; [done|].
        apply (Nat.mod_unique _ d k); lia.
Qed.

(** ** The number of passwords there are *)

Lemma from62_bound (l : list nat) :
  Forall (λ d, (d < 62)%nat) l → (from62 l < 62 ^ List.length l)%nat.
Proof.
  induction 1 as [|d l Hd _ IH]; [cbn; lia|].
  cbn [from62 List.length]. rewrite Nat.pow_succ_r'.
  set (x := from62 l) in *. set (y := (62 ^ List.length l)%nat) in *.
  clearbody x y. lia.
Qed.

Lemma contract_alvo (L : Z) (require_all : bool) (s : string) :
  0 ≤ L → contract L require_all s →
  ∃ t, (t < 62 ^ Z.to_nat L)%nat ∧ s = alvo L false t.
Proof.
  intros HL (Hlen & Hin & _).
  destruct (indices_of_chars CHARSET (chars s) Hin) as (idxs & Hb & Hm).
  assert (Hn : List.length idxs = Z.to_nat L).
  { rewrite <- (length_map (char_at CHARSET)), Hm, length_chars. lia. }
  change (String.length CHARSET) with 62%nat in Hb.
  exists (from62 idxs). split.
  - rewrite <- Hn. by apply from62_bound.
  - unfold alvo. rewrite <- Hn, base62_from62, Hm by done.
    unfold join, chars. by rewrite string_of_list_ascii_of_string.
Qed.

Lemma geradas_contract (n : nat) (L : Z) (require_all : bool) (g : Rng) :
  valid_policy L require_all →
  Forall (contract L require_all) (geradas n L require_all g).
Proof.
  intros Hv. revert g. induction n as [|n IH]; intros g; [constructor|].
  cbn [geradas]. destruct (gerar_senha_apos L require_all g Hv) as (s & -> & Hc).
  by constructor.
Qed.

(** Pigeonhole: the calls of [gerar_senha] never give more than 62^length
    distinct passwords. *)
Lemma geradas_capacity (n : nat) (L : Z) (require_all : bool) (g : Rng) :
  valid_policy L require_all →
  Z.of_nat (size (conjunto (geradas n L require_all g))) ≤ 62 ^ L.
Proof.
  intros Hv. assert (HL : 0 ≤ L).
  { destruct Hv as [Hl _]. unfold MIN_LENGTH in Hl. lia. }
  set (todas := alvo L false <$> seq 0 (62 ^ Z.to_nat L)).
  assert (Hsub : conjunto (geradas n L require_all g) ⊆ conjunto todas).
  { intros s Hs. apply elem_of_list_to_set in Hs. apply elem_of_list_to_set.
    pose proof (geradas_contract n L require_all g Hv) as Hall.
    rewrite Forall_forall in Hall.
    destruct (contract_alvo L require_all s HL (Hall s Hs)) as (t & Ht & ->).
    apply list_elem_of_fmap. exists t. split; [done|]. apply elem_of_seq. lia. }
  apply subseteq_size in Hsub.
  pose proof (conjunto_size_le todas) as Hle.
  subst todas. rewrite length_fmap, length_seq in Hle.
  assert (Hpow : 62 ^ L = Z.of_nat (62 ^ Z.to_nat L)).
  { rewrite Nat2Z.inj_pow, Z2Nat.id by lia. done. }
  rewrite Hpow. lia.
Qed.

(** * The statements on unique batches *)

(** C3. For a valid count N, length and policy with [unique] and N <= 62^L,
    [gerar_lista] succeeds and returns exactly N pairwise distinct strings
    that each satisfy the contract of one password.  On every source it
    returns, with such a list and without raising, as soon as the calls of
    [gerar_senha] have given N distinct passwords, and it is running until
    then; and on the uniform source of the design it returns with
    probability 1: whatever [n], from some number of calls on, at most one
    run in [n] has not returned. *)
Theorem gerar_lista_unique_succeeds (qtd L : Z) (require_all : bool) :
  1 ≤ qtd ≤ 10000 → valid_policy L require_all → qtd ≤ 62 ^ L →
  (∀ g fuel,
     (qtd ≤ Z.of_nat (size (conjunto (geradas fuel L require_all g))) →
      ∃ l g', gerar_lista fuel qtd L true require_all g = (Returned l, g')
              ∧ Z.of_nat (List.length l) = qtd ∧ NoDup l
              ∧ Forall (contract L require_all) l)
     ∧ (Z.of_nat (size (conjunto (geradas fuel L require_all g))) < qtd →
        (gerar_lista fuel qtd L true require_all g).1 = Diverged))
  ∧ ∀ n, ∃ k0, ∀ k, (k0 ≤ k)%nat →
      (n * List.length (List.filter (pendente k qtd L require_all)
                                    (corridas k L require_all))
       ≤ List.length (corridas k L require_all))%nat.
Proof.
  intros Hq Hv Hcap. split.
  - intros g fuel. by apply gerar_lista_unique_outcome.
  - intros n. by apply pendentes_raras.
Qed.

Lemma gerar_lista_unique_succeeds_witness :
  ∃ l g', gerar_lista 3 3 1 true false (fonte_de (primeiras 3 1 false))
          = (Returned l, g')
          ∧ Z.of_nat (List.length l) = 3 ∧ NoDup l
          ∧ Forall (contract 1 false) l.
Proof.
  assert (Hv : valid_policy 1 false).
  { split; [unfold MIN_LENGTH, MAX_LENGTH; lia | intros [=]]. }
  destruct (gerar_lista_unique_succeeds 3 1 false ltac:(lia) Hv ltac:(lia))
    as [H _].
  apply H. apply (primeiras_completa 3 1 false []); [lia|done|lia].
Defined.

(** C8. For a feasible unique request (valid count, length and policy,
    count <= 62^length) the loop of line 68 terminates.  It ends at the
    first call at which the set holds [qtd] passwords, and on the uniform
    source it is still running after [k] calls with a probability that goes
    to 0 as [k] grows.  What guarantees this is that the count does not
    exceed the number of passwords there are: whatever has been drawn, the
    next [qtd] calls have a run, as likely as any other, that completes the
    set; asked for more than the 62^length strings there are, the loop
    would be running after any number of calls on every source
    (pigeonhole).  No bound on the number of attempts does: for 2 <= qtd and
    every [k] there is a run of [k] calls on which the loop is still
    running. *)
Theorem unicas_terminates (qtd L : Z) (require_all : bool) :
  1 ≤ qtd ≤ 10000 → valid_policy L require_all → qtd ≤ 62 ^ L →
  (∀ n, ∃ k0, ∀ k, (k0 ≤ k)%nat →
      (n * List.length (List.filter (pendente k qtd L require_all)
                                    (corridas k L require_all))
       ≤ List.length (corridas k L require_all))%nat)
  ∧ (∀ fuel senhas g,
       (qtd ≤ Z.of_nat (size (senhas ∪ conjunto (geradas fuel L require_all g))) →
        ∃ r g', unicas fuel qtd L require_all senhas g = (Returned r, g'))
       ∧ (Z.of_nat (size (senhas ∪ conjunto (geradas fuel L require_all g))) < qtd →
          (unicas fuel qtd L require_all senhas g).1 = Diverged))
  ∧ (∀ k u, u ∈ corridas k L require_all →
       ∃ v, v ∈ corridas (Z.to_nat qtd) L require_all
            ∧ pendente (k + Z.to_nat qtd) qtd L require_all (u ++ v) = false)
  ∧ (∀ qtd', 62 ^ L < qtd' →
       ∀ fuel g, (unicas fuel qtd' L require_all ∅ g).1 = Diverged)
  ∧ (2 ≤ qtd → ∀ k, ∃ w, w ∈ corridas k L require_all
                         ∧ pendente k qtd L require_all w = true).
Proof.
  intros Hq Hv Hcap. split_and!.
  - intros n. by apply pendentes_raras.
  - intros fuel senhas g. split.
    + by apply unicas_returns.
    + by apply unicas_diverges.
  - intros k u Hu. exists (primeiras (Z.to_nat qtd) L require_all). split.
    + by apply primeiras_corridas.
    + by apply pendente_primeiras.
  - intros qtd' Hex fuel g. apply unicas_diverges; [done|].
    rewrite (left_id_L ∅ (∪)).
    pose proof (geradas_capacity fuel L require_all g Hv). lia.
  - intros Hq2 k. exists (repeat 0%nat (k * draws L require_all)). split.
    + by apply corridas_zeros.
    + apply pendente_zeros; [lia|done|done].
Qed.

Lemma unicas_terminates_witness :
  (∃ v, v ∈ corridas 3 2 false
        ∧ pendente (0 + 3) 3 2 false ([] ++ v) = false)
  ∧ ∃ w, w ∈ corridas 100 2 false ∧ pendente 100 3 2 false w = true.
Proof.
  destruct (unicas_terminates 3 2 false) as (_ & _ & H1 & _ & H2).
  - lia.
  - split; [unfold MIN_LENGTH, MAX_LENGTH; lia | intros [=]].
  - lia.
  - split; [apply (H1 0%nat []); by apply list_elem_of_singleton|apply H2; lia].
Defined.

(** ** Strings *)

Lemma append_assoc (a b c : string) : (a +:+ b) +:+ c = a +:+ (b +:+ c).
Proof.
  induction a as [|x a IH]; [done|].
  change (String x ((a +:+ b) +:+ c) = String x (a +:+ (b +:+ c))).
  by rewrite IH.
Qed.

Lemma append_nil_r (a : string) : a +:+ EmptyString = a.
Proof.
  induction a as [|x a IH]; [done|].
  change (String x (a +:+ EmptyString) = String x a). by rewrite IH.
Qed.

Lemma append_cons (x : ascii) (a b : string) :
  String x a +:+ b = String x (a +:+ b).
Proof. done. Qed.

Lemma append_nil_l (a : string) : EmptyString +:+ a = a.
Proof. done. Qed.

Lemma chars_append (a b : string) : chars (a +:+ b) = chars a ++ chars b.
Proof.
  induction a as [|x a IH]; [done|].
  change (x :: chars (a +:+ b) = x :: (chars a ++ chars b)). by rewrite IH.
Qed.

Lemma chars_inj (a b : string) : chars a = chars b → a = b.
Proof.
  intros H. rewrite <- (string_of_list_ascii_of_string a),
    <- (string_of_list_ascii_of_string b). unfold chars in H. by rewrite H.
Qed.

(** ** The rows that [csv.writer] writes for passwords *)

Lemma alphabet_plain (c : ascii) :
  c ∈ chars CHARSET →
  bool_decide (c ∈ [","%char; ASPAS; CR; LF]) = false
  ∧ c ≠ CR ∧ c ≠ LF ∧ c ≠ ":"%char ∧ c ≠ " "%char.
Proof.
  revert c. apply Forall_forall. apply (bool_decide_unpack _). by vm_compute.
Qed.

Lemma precisa_aspas_alphabet (s : string) :
  in_alphabet s → precisa_aspas s = false.
Proof.
  unfold in_alphabet, precisa_aspas. induction 1 as [|c cs Hc _ IH]; [done|].
  cbn [existsb]. destruct (alphabet_plain c Hc) as [-> _]. exact IH.
Qed.

Lemma writerow_senha (s : string) :
  s ≠ EmptyString → in_alphabet s → writerow [s] = s +:+ CRLF.
Proof.
  intros Hne Hin. unfold writerow, campo_csv.
  rewrite bool_decide_eq_false_2 by done.
  by rewrite precisa_aspas_alphabet.
Qed.

Lemma conteudo_csv_foldl (acc : string) (senhas : list string) :
  Forall (λ s, s ≠ EmptyString ∧ in_alphabet s) senhas →
  foldl (λ f s, f +:+ writerow [s]) acc senhas
  = acc +:+ String.concat EmptyString ((λ s, s +:+ CRLF) <$> senhas).
Proof.
  intros Hall. revert acc.
  induction Hall as [|s l [Hne Hin] _ IH]; intros acc; cbn [foldl].
  { by rewrite append_nil_r. }
  rewrite IH, writerow_senha, append_assoc by done. f_equal.
  cbn [fmap list_fmap String.concat]. destruct l as [|s' l];
    cbn [fmap list_fmap String.concat]; by rewrite ?append_nil_r, ?append_nil_l.
Qed.

Lemma conteudo_csv_senhas (senhas : list string) :
  Forall (λ s, s ≠ EmptyString ∧ in_alphabet s) senhas →
  conteudo_csv senhas
  = "senha" +:+ CRLF +:+ String.concat EmptyString ((λ s, s +:+ CRLF) <$> senhas).
Proof.
  intros Hall. unfold conteudo_csv. rewrite conteudo_csv_foldl by done.
  by rewrite <- append_assoc.
Qed.

Lemma linha_csv_inj (s1 s2 r1 r2 : string) :
  in_alphabet s1 → in_alphabet s2 →
  s1 +:+ CRLF +:+ r1 = s2 +:+ CRLF +:+ r2 → s1 = s2 ∧ r1 = r2.
Proof.
  unfold in_alphabet. revert s2. induction s1 as [|c1 s1 IH]; intros [|c2 s2] H1 H2;
    rewrite ?append_nil_l, ?append_cons; unfold CRLF; rewrite ?append_cons,
    ?append_nil_l.
  - by intros [= ->].
  - intros [= <- _]. apply Forall_inv in H2.
    by destruct (alphabet_plain _ H2) as (_ & ? & _).
  - intros [= -> _]. apply Forall_inv in H1.
    by destruct (alphabet_plain _ H1) as (_ & ? & _).
  - intros [= -> Heq]. cbn in H1, H2.
    apply Forall_cons in H1 as [_ H1]. apply Forall_cons in H2 as [_ H2].
    destruct (IH s2 H1 H2 Heq) as [-> ->]. done.
Qed.

Lemma linhas_csv_inj (l1 l2 : list string) :
  Forall (λ s, s ≠ EmptyString ∧ in_alphabet s) l1 →
  Forall (λ s, s ≠ EmptyString ∧ in_alphabet s) l2 →
  String.concat EmptyString ((λ s, s +:+ CRLF) <$> l1)
  = String.concat EmptyString ((λ s, s +:+ CRLF) <$> l2) →
  l1 = l2.
Proof.
  assert (Hc : ∀ s l, String.concat EmptyString ((λ s, s +:+ CRLF) <$> (s :: l))
                      = s +:+ CRLF +:+ String.concat EmptyString
                                         ((λ s, s +:+ CRLF) <$> l)).
  { intros s [|s' l]; cbn [fmap list_fmap String.concat];
      by rewrite ?append_assoc, ?append_nil_r. }
  intros H1. revert l2. induction H1 as [|s1 l1 [Hn1 Hi1] _ IH]; intros l2 H2.
  - destruct H2 as [|s2 l2 [Hn2 Hi2] _]; [done|]. rewrite Hc.
    destruct s2; [done|]. by rewrite append_cons.
  - destruct H2 as [|s2 l2 [Hn2 Hi2] H2].
    + rewrite Hc. destruct s1; [done|]. by rewrite append_cons.
    + rewrite !Hc. intros Heq.
      destruct (linha_csv_inj _ _ _ _ Hi1 Hi2 Heq) as [-> Hr].
      f_equal. by apply IH.
Qed.

(** ** The event loop *)

Lemma gerar_lista_raised_untouched fuel qtd L unique require_all g e g' :
  gerar_lista fuel qtd L unique require_all g = (Raised e, g') → g' = g.
Proof.
  rewrite gerar_lista_stages.
  destruct (validacao qtd L unique require_all) as [e'|] eqn:Ev.
  - by intros [= _ <-].
  - apply validacao_None in Ev as (Hq & Hv & _).
    pose proof (geracao_outcome fuel qtd L unique require_all g) as Hg.
    intros Hr. rewrite Hr in Hg. exfalso. apply Hg; [lia|done].
Qed.

Lemma gerar_lista_returned_senhas fuel qtd L unique require_all g l g' :
  gerar_lista fuel qtd L unique require_all g = (Returned l, g') →
  1 ≤ qtd ≤ 10000 ∧ Z.of_nat (List.length l) = qtd
  ∧ Forall (λ s, Z.of_nat (String.length s) = L ∧ in_alphabet s) l.
Proof.
  intros Hl. apply gerar_lista_returned_valid in Hl as (Hq & Hv & _ & Hg).
  pose proof (geracao_outcome fuel qtd L unique require_all g ltac:(lia) Hv) as Ho.
  rewrite Hg in Ho. destruct Ho as (Hn & Hall & _). split_and!; [lia|lia|done|].
  eapply Forall_impl; [exact Hall|]. by intros s (? & ? & _).
Qed.

Lemma avisa_coerente (a : aviso) (st : Estado) : coerente st → coerente (avisa a st).
Proof. done. Qed.

Lemma ao_gerar_cases (h : Host) (fuel : nat) (v : Valores) (st st' : Estado) :
  ao_gerar h fuel v st = Segue st' →
  (∃ msg, st' = avisa (PopupError msg) st)
  ∨ ∃ qtd length g',
      gerar_lista fuel qtd length (v_UNQ v) (v_REQ v) (sysrand st)
      = (Returned (senhas_atuais st'), g')
      ∧ py_int h (py_strip h (v_QTD v)) = Some qtd
      ∧ (if bool_decide (py_strip h (v_LEN v) = EmptyString) then Some 12
         else py_int h (py_strip h (v_LEN v))) = Some length
      ∧ 1 ≤ length ≤ 64
      ∧ st' = mkEstado (senhas_atuais st') None length
                       (exibe (senhas_atuais st') length)
                       (clipboard st) (disco st) g' (avisos st).
Proof.
  unfold ao_gerar.
  destruct (py_int h (py_strip h (v_QTD v))) as [qtd|]; [|intros [= <-]; eauto].
  cbv zeta.
  destruct (if bool_decide (py_strip h (v_LEN v) = EmptyString) then Some 12
            else py_int h (py_strip h (v_LEN v))) as [length|] eqn:El;
    [|intros [= <-]; eauto].
  unfold MIN_LENGTH, MAX_LENGTH.
  destruct (length <? 1) eqn:E1; cbn [orb]; [intros [= <-]; eauto|].
  destruct (length >? 64) eqn:E2; [intros [= <-]; eauto|].
  destruct (gerar_lista fuel qtd length (v_UNQ v) (v_REQ v) (sysrand st))
    as [[l|e|] g'] eqn:Hg; [| |done].
  - intros [= <-]. right. exists qtd, length, g'. cbn [senhas_atuais].
    split_and!; try done; lia.
  - intros [= <-]. left. apply gerar_lista_raised_untouched in Hg as ->.
    exists ("Erro ao gerar: " +:+ message e). by destruct st.
Qed.

Lemma passo_coerente (h : Host) (fuel : nat) (ev : Evento) (v : Valores)
    (resp : option string) (st st' : Estado) :
  coerente st → passo h fuel ev v resp st = Segue st' → coerente st'.
Proof.
  intros Hc. destruct ev; cbn [passo]; try done.
  - intros Hg. apply ao_gerar_cases in Hg as [(msg & ->)|Hg].
    { by apply avisa_coerente. }
    destruct Hg as (qtd & length & g' & Hg & _ & _ & Hl & ->).
    apply gerar_lista_returned_senhas in Hg as (Hq & Hn & Hall).
    cbn [senhas_atuais] in *. unfold coerente.
    cbn [ultimo_length senhas_atuais saida ultimo_arquivo disco].
    split; [done|]. split; [|done].
    destruct (senhas_atuais st') as [|s l] eqn:Es; [cbn in Hn; lia|].
    split_and!; [done|lia|done].
  - unfold ao_salvar. destruct (senhas_atuais st) as [|s l] eqn:Es.
    { intros [= <-]. by apply avisa_coerente. }
    destruct resp as [caminho|]; [|by intros [= <-]].
    case_bool_decide as Hcam; [by intros [= <-]|].
    unfold salvar_csv. destruct (gravavel (disco st) caminho).
    + intros [= <-]. destruct Hc as (Hl & Hs & Hf). rewrite Es in Hs.
      unfold coerente, avisa.
      cbn [ultimo_length senhas_atuais saida ultimo_arquivo disco arquivos].
      split; [done|]. split; [done|].
      intros p [= <-]. split_and!; [done|done|]. by rewrite lookup_insert_eq.
    + intros [= <-]. by apply avisa_coerente.
  - unfold ao_abrir. destruct (ultimo_arquivo st) as [p|].
    + case_bool_decide; intros [= <-]; by apply avisa_coerente.
    + intros [= <-]. by apply avisa_coerente.
  - unfold ao_limpar. intros [= <-]. destruct Hc as (Hl & _ & _).
    unfold coerente. cbn [ultimo_length senhas_atuais saida ultimo_arquivo].
    split; [done|]. split; [done|]. by intros p [=].
  - unfold ao_copiar_ultima. cbv zeta.
    destruct (ultima_linha _) as [u|]; intros [= <-]; [|by apply avisa_coerente].
    apply avisa_coerente. by destruct st.
  - unfold ao_copiar_todas. destruct (senhas_atuais st) as [|s l] eqn:Es;
      intros [= <-]; [by apply avisa_coerente|].
    apply avisa_coerente. unfold coerente in *.
    cbn [ultimo_length senhas_atuais saida ultimo_arquivo disco]. by rewrite Es in *.
Qed.

Lemma alcancavel_coerente (h : Host) (st : Estado) :
  alcancavel h st → coerente st.
Proof.
  induction 1 as [clip d g|fuel ev v resp st st' _ IH Hp].
  - unfold coerente, inicial, DEFAULT_LENGTH.
    cbn [ultimo_length senhas_atuais saida ultimo_arquivo].
    split; [lia|]. split; [done|]. by intros p [=].
  - by eapply passo_coerente.
Qed.

(** ** The text of the window, stripped and cut in lines *)

Lemma pretty_N_go_chars (P : ascii → Prop) (x : N) (s : string) :
  Forall P (chars digits) → Forall P (chars s) →
  Forall P (chars (pretty_N_go x s)).
Proof.
  intros Hd. revert s. induction (N.lt_wf_0 x) as [x _ IH]; intros s Hs.
  assert (x = 0 ∨ 0 < x)%N as [->|Hx] by lia; [by rewrite pretty_N_go_0|].
  rewrite pretty_N_go_step by done. apply IH; [by apply N.div_lt|].
  change (Forall P (pretty_N_char (x `mod` 10) :: chars s)).
  constructor; [|done]. rewrite Forall_forall in Hd. apply Hd.
  unfold pretty_N_char. repeat case_match; by vm_compute; set_unfold; tauto.
Qed.

Lemma pretty_Z_chars (P : ascii → Prop) (z : Z) :
  Forall P (chars digits) → P "-"%char → Forall P (chars (pretty z)).
Proof.
  intros Hd Hm.
  assert (H0 : Forall P (chars "0")).
  { constructor; [|constructor]. rewrite Forall_forall in Hd. apply Hd.
    vm_compute. set_unfold. tauto. }
  assert (Hp : ∀ p : positive, Forall P (chars (pretty p))).
  { intros p. unfold pretty, pretty_positive, pretty, pretty_N.
    case_decide; [done|]. apply pretty_N_go_chars; [done|constructor]. }
  destruct z as [|p|p]; [done|apply Hp|].
  unfold pretty, pretty_Z. rewrite chars_append. apply Forall_app.
  split; [by repeat constructor | apply Hp].
Qed.

Lemma alphabet_simples (c : ascii) :
  c ∈ chars CHARSET →
  is_ascii c = true ∧ is_space c = false ∧ is_line_end c = false.
Proof.
  revert c. apply Forall_forall. apply (bool_decide_unpack _). by vm_compute.
Qed.

Lemma chars_imprime (x out : string) :
  chars (imprime x out) = chars out ++ chars x ++ [LF].
Proof. unfold imprime. by rewrite !chars_append. Qed.

Lemma exibe_ascii (senhas : list string) (L : Z) :
  Forall in_alphabet senhas →
  Forall (λ c, is_ascii c = true) (chars (exibe senhas L)).
Proof.
  intros Hall. unfold exibe.
  set (cab := imprime _ EmptyString).
  assert (Hcab : Forall (λ c, is_ascii c = true) (chars cab)).
  { unfold cab. rewrite chars_imprime, !chars_append.
    assert (Hz : ∀ z : Z, Forall (λ c, is_ascii c = true) (chars (pretty z))).
    { intros z. apply pretty_Z_chars; [|done].
      apply (bool_decide_unpack _). by vm_compute. }
    repeat (apply Forall_app; split); try apply Hz;
      apply (bool_decide_unpack _); by vm_compute. }
  clearbody cab. revert cab Hcab.
  induction Hall as [|s l Hs _ IH]; intros cab Hcab; [done|].
  cbn [foldl]. apply IH. rewrite chars_imprime.
  repeat (apply Forall_app; split); [done| |by repeat constructor].
  eapply Forall_impl; [exact Hs|]. intros c Hc.
  by destruct (alphabet_simples c Hc).
Qed.

Lemma exibe_shape (init : list string) (s : string) (L : Z) :
  ∃ W, chars (exibe (init ++ [s]) L) = "G"%char :: W ++ LF :: chars s ++ [LF].
Proof.
  unfold exibe. rewrite foldl_app. cbn [foldl]. rewrite chars_imprime.
  set (cab := imprime _ EmptyString).
  assert (Hcab : ∃ W, chars cab = "G"%char :: W ++ [LF]).
  { unfold cab. rewrite chars_imprime. eexists.
    rewrite app_nil_l, append_cons. cbn [chars list_ascii_of_string].
    fold (chars (("erado: " +:+ pretty (Z.of_nat (List.length (init ++ [s])))
                    +:+ " senhas (comprimento = " +:+ pretty L +:+ ")."
                    +:+ String LF EmptyString))).
    done. }
  clearbody cab.
  assert (Hx : ∃ W, chars (foldl (λ out s0, imprime s0 out) cab init)
                    = "G"%char :: W ++ [LF]).
  { revert cab Hcab. induction init as [|s0 init IH]; intros cab Hcab; [done|].
    cbn [foldl]. apply IH. destruct Hcab as [W HW].
    exists (W ++ [LF] ++ chars s0). rewrite chars_imprime, HW.
    cbn [app]. f_equal. by rewrite <- !app_assoc. }
  destruct Hx as [W HW]. exists W. rewrite HW.
  cbn [app]. f_equal. by rewrite <- !app_assoc.
Qed.

Lemma strip_ascii_shape (x : string) (c : ascii) (W : list ascii) (s : string) :
  is_space c = false → s ≠ EmptyString →
  Forall (λ c, is_space c = false) (chars s) →
  chars x = c :: W ++ LF :: chars s ++ [LF] →
  chars (strip_ascii x) = c :: W ++ LF :: chars s.
Proof.
  intros Hc Hne Hs Hx. unfold strip_ascii. rewrite chars_join, Hx.
  cbn [lstrip_ascii]. rewrite Hc.
  destruct (chars s) as [|a l] eqn:Es using rev_ind.
  { destruct s; [done|discriminate]. }
  clear IHl.
  replace (c :: W ++ LF :: (l ++ [a]) ++ [LF])
    with (((c :: W ++ LF :: l) ++ [a]) ++ [LF])
    by (cbn [app]; by rewrite <- !app_assoc).
  rewrite !rev_unit. cbn [lstrip_ascii].
  change (is_space LF) with true. cbn match.
  apply Forall_app in Hs as [_ Ha]. apply Forall_inv in Ha. rewrite Ha.
  rewrite <- rev_unit, rev_involutive. cbn [app]. by rewrite <- !app_assoc.
Qed.

Lemma lstrip_ascii_sub (cs : list ascii) (P : ascii → Prop) :
  Forall P cs → Forall P (lstrip_ascii cs).
Proof.
  induction 1 as [|c cs Hc Hcs IH]; [done|]. cbn [lstrip_ascii].
  destruct (is_space c); [done | by constructor].
Qed.

Lemma strip_ascii_ascii (x : string) :
  Forall (λ c, is_ascii c = true) (chars x) →
  Forall (λ c, is_ascii c = true) (chars (strip_ascii x)).
Proof.
  intros Hx. unfold strip_ascii. rewrite chars_join.
  apply Forall_rev, lstrip_ascii_sub, Forall_rev, lstrip_ascii_sub, Hx.
Qed.

Lemma linhas_ascii_line (cur s : list ascii) :
  Forall (λ c, is_line_end c = false) s →
  linhas_ascii cur false s
  = match rev cur ++ s with [] => [] | _ :: _ => [join (rev cur ++ s)] end.
Proof.
  intros Hs. revert cur. induction Hs as [|c s Hc _ IH]; intros cur.
  - cbn [linhas_ascii]. rewrite app_nil_r. destruct cur as [|a cur]; [done|].
    cbn [rev]. by destruct (rev cur).
  - cbn [linhas_ascii andb]. rewrite Hc, IH. cbn [rev].
    by rewrite <- app_assoc.
Qed.

Lemma linhas_ascii_last (pre s cur : list ascii) (cr : bool) :
  (cr = true → cur = []) → s ≠ [] →
  Forall (λ c, is_line_end c = false) s →
  last (linhas_ascii cur cr (pre ++ LF :: s)) = Some (join s).
Proof.
  intros Hinv Hne Hs. revert cur cr Hinv.
  induction pre as [|c pre IH]; intros cur cr Hinv.
  - cbn [app linhas_ascii]. destruct cr.
    + rewrite (Hinv eq_refl). rewrite bool_decide_eq_true_2 by done.
      cbn [andb]. rewrite linhas_ascii_line by done. cbn [rev app].
      by destruct s.
    + cbn [andb]. change (is_line_end LF) with true. cbn match.
      change (bool_decide (LF = CR)) with false.
      rewrite linhas_ascii_line by done. cbn [rev app]. by destruct s.
  - cbn [app linhas_ascii]. destruct (cr && bool_decide (c = LF)).
    { by apply IH. }
    destruct (is_line_end c).
    + rewrite last_cons, IH; [done|]. intros _. done.
    + by apply IH.
Qed.

Lemma prefix_chars (p s : string) :
  String.prefix p s = true → ∃ r, chars s = chars p ++ r.
Proof.
  revert s. induction p as [|a p IH]; intros s; [by exists (chars s)|].
  destruct s as [|b s]; [done|]. cbn [String.prefix].
  destruct (ascii_dec a b) as [->|]; [|done].
  intros Hp. destruct (IH s Hp) as [r Hr]. exists r.
  cbn [chars list_ascii_of_string app]. f_equal. exact Hr.
Qed.

Lemma ultima_linha_senha (linhas : list string) (s : string) :
  in_alphabet s → last linhas = Some s → ultima_linha linhas = Some s.
Proof.
  intros Hin Hl. unfold ultima_linha. rewrite Hl.
  destruct (String.prefix "Gerado:" s) eqn:Hp; [|done].
  apply prefix_chars in Hp as [r Hr]. exfalso.
  assert (Hc : ":"%char ∈ chars s).
  { rewrite Hr. set_unfold. cbn. tauto. }
  unfold in_alphabet in Hin. rewrite Forall_forall in Hin.
  by destruct (alphabet_plain _ (Hin _ Hc)) as (_ & _ & _ & ? & _).
Qed.

Lemma linhas_exibe (h : Host) (init : list string) (s : string) (L : Z) :
  host_ascii h → Forall in_alphabet (init ++ [s]) → s ≠ EmptyString →
  ultima_linha (py_splitlines h (py_strip h (exibe (init ++ [s]) L))) = Some s.
Proof.
  intros Hh Hall Hne.
  assert (Hs : in_alphabet s).
  { apply Forall_app in Hall as [_ Hs]. by apply Forall_inv in Hs. }
  pose proof (exibe_ascii _ L Hall) as Ha.
  destruct (Hh _ Ha) as [-> _].
  destruct (Hh _ (strip_ascii_ascii _ Ha)) as [_ ->].
  apply ultima_linha_senha; [done|].
  destruct (exibe_shape init s L) as [W HW].
  unfold splitlines_ascii.
  rewrite (strip_ascii_shape _ "G"%char W s); [|done|done| |done].
  - change ("G"%char :: W ++ LF :: chars s) with (("G"%char :: W) ++ LF :: chars s).
    rewrite linhas_ascii_last.
    + unfold join, chars. by rewrite string_of_list_ascii_of_string.
    + done.
    + destruct s; [done|discriminate].
    + eapply Forall_impl; [exact Hs|]. intros c Hc.
      by destruct (alphabet_simples c Hc) as (_ & _ & ?).
  - eapply Forall_impl; [exact Hs|]. intros c Hc.
    by destruct (alphabet_simples c Hc) as (_ & ? & _).
Qed.

(** ** What is saved and what is shown *)

Lemma append_inj_l (a b c : string) : a +:+ b = a +:+ c → b = c.
Proof.
  induction a as [|x a IH]; [done|]. rewrite !append_cons. intros [= H].
  by apply IH.
Qed.

Lemma senhas_geradas_plain (L : Z) (senhas : list string) :
  1 ≤ L →
  Forall (λ s, Z.of_nat (String.length s) = L ∧ in_alphabet s) senhas →
  Forall (λ s, s ≠ EmptyString ∧ in_alphabet s) senhas.
Proof.
  intros HL Hall. eapply Forall_impl; [exact Hall|].
  intros s [Hs Hin]. split; [|done].
  intros ->. cbn in Hs. lia.
Qed.

Lemma coerente_plain (st : Estado) :
  coerente st →
  Forall (λ s, s ≠ EmptyString ∧ in_alphabet s) (senhas_atuais st).
Proof.
  intros (HL & Hs & _). destruct (senhas_atuais st) as [|s l]; [done|].
  destruct Hs as (_ & _ & Hall). eapply senhas_geradas_plain; [|exact Hall]. lia.
Qed.

(** * Further statements *)

(** X1. Without [require_all], the strings that [gerar_senha] can return for
    a length L in [1,64] are exactly the strings of L characters of the
    alphabet: each of them is returned on some outcome of the draws, and
    nothing else is. *)
Theorem gerar_senha_plain_range (L : Z) (s : string) :
  1 ≤ L ≤ 64 →
  (∃ g g', gerar_senha L false g = (Returned s, g'))
  ↔ Z.of_nat (String.length s) = L ∧ in_alphabet s.
Proof.
  intros HL. split.
  - intros (g & g' & Hs).
    destruct (gerar_senha_contract L false g) as (s' & g'' & Hs' & Hlen & Hin & _).
    { split; [done | intros [=]]. }
    rewrite Hs in Hs'. by injection Hs' as -> _.
  - intros [Hlen Hin]. by apply gerar_senha_plain_reaches.
Qed.

Lemma gerar_senha_plain_range_witness :
  (∃ g g', gerar_senha 3 false g = (Returned "a0Z", g'))
  ∧ ¬ ∃ g g', gerar_senha 3 false g = (Returned "a-Z", g').
Proof.
  split.
  - apply (gerar_senha_plain_range 3 "a0Z"); [lia|].
    split; [done|]. unfold in_alphabet. apply (bool_decide_unpack _). by vm_compute.
  - intros H. apply (gerar_senha_plain_range 3 "a-Z") in H as [_ Hin]; [|lia].
    unfold in_alphabet in Hin. revert Hin. apply (bool_decide_unpack _). by vm_compute.
Defined.

(** X2. With [require_all], the strings that [gerar_senha] can return for a
    length L in [3,64] are exactly the strings of L characters of the alphabet
    that hold a digit, an uppercase letter and a lowercase letter, wherever
    these stand: no such string is excluded and no other is returned. *)
Theorem gerar_senha_all_range (L : Z) (s : string) :
  3 ≤ L ≤ 64 →
  (∃ g g', gerar_senha L true g = (Returned s, g'))
  ↔ Z.of_nat (String.length s) = L ∧ in_alphabet s ∧ all_classes s.
Proof.
  intros HL. split.
  - intros (g & g' & Hs).
    destruct (gerar_senha_contract L true g) as (s' & g'' & Hs' & Hlen & Hin & Hc).
    { split; [unfold MIN_LENGTH, MAX_LENGTH; lia | intros _; lia]. }
    rewrite Hs in Hs'. injection Hs' as -> _. auto.
  - intros (Hlen & Hin & Hc). apply gerar_senha_all_reaches; [done|].
    split_and!; auto.
Qed.

Lemma gerar_senha_all_range_witness :
  (∃ g g', gerar_senha 4 true g = (Returned "zz9Q", g'))
  ∧ ¬ ∃ g g', gerar_senha 4 true g = (Returned "zz9q", g').
Proof.
  split.
  - apply (gerar_senha_all_range 4 "zz9Q"); [lia|]. split_and!; [done| |].
    + unfold in_alphabet. apply (bool_decide_unpack _). by vm_compute.
    + split_and!; [exists "9"%char|exists "Q"%char|exists "z"%char];
        split; apply (bool_decide_unpack _); by vm_compute.
  - intros H. apply (gerar_senha_all_range 4 "zz9q") in H as (_ & _ & _ & Hu & _);
      [|lia].
    destruct Hu as (c & Hc & Hcu). revert c Hc Hcu.
    apply (proj1 (Forall_forall (λ c, c ∉ chars ascii_uppercase) (chars "zz9q"))).
    apply (bool_decide_unpack _). by vm_compute.
Defined.

(** X3. The shuffle of line 39 makes one draw less than the list has
    elements, and its results are exactly the arrangements of the list: it
    returns a permutation of its argument, and it returns every permutation
    on some outcome of the draws. *)
Theorem shuffle_permutations (x y : list ascii) :
  ((∃ g, (shuffle x g).1 = y) ↔ x ≡ₚ y)
  ∧ ∀ g, (shuffle x g).2 = mkRng (outcomes g) (drawn g + (List.length x - 1)).
Proof.
  split; [split|].
  - intros (g & <-). by rewrite shuffle_Permutation.
  - intros Hperm. destruct (shuffle_reaches x y Hperm) as (ds & _ & Hrun).
    exists (fonte_de ds). by apply Hrun.
  - intros g. apply shuffle_from_state.
Qed.

(** X4. A call of [gerar_senha] that the checks accept makes exactly
    [length] draws, or [2 * length - 1] with [require_all], and the password
    is a function of these draws alone: two sources that agree on them give
    the same password. *)
Theorem gerar_senha_draws (L : Z) (require_all : bool) (g : Rng) :
  valid_policy L require_all →
  (gerar_senha L require_all g).2
  = mkRng (outcomes g) (drawn g + draws L require_all)
  ∧ draws L require_all
    = (if require_all then Z.to_nat (2 * L - 1) else Z.to_nat L)
  ∧ ∀ g2, (∀ r, (r < draws L require_all)%nat →
                outcomes g2 (drawn g2 + r) = outcomes g (drawn g + r)) →
          (gerar_senha L require_all g2).1 = (gerar_senha L require_all g).1.
Proof.
  intros Hv. split_and!; [by apply gerar_senha_state|done|].
  intros [o2 p2] Ho. destruct g as [o p]. by apply gerar_senha_window.
Qed.

Lemma gerar_senha_draws_witness :
  (gerar_senha 8 true ids).2 = mkRng (outcomes ids) 15
  ∧ (gerar_senha 8 true (mkRng (λ k, if (k <? 7)%nat then 0%nat else (k - 7)%nat) 7)).1
    = (gerar_senha 8 true ids).1.
Proof.
  destruct (gerar_senha_draws 8 true ids) as (H1 & _ & H2).
  { split; [unfold MIN_LENGTH, MAX_LENGTH; lia | intros _; lia]. }
  split; [exact H1|]. apply H2. intros r Hr. cbn [outcomes drawn ids].
  rewrite (proj2 (Nat.ltb_ge _ _)) by lia. lia.
Defined.

(** X5. Without [unique], a batch of N passwords makes N times the draws of
    one password, and its i-th password is the one that [gerar_senha] makes
    from the draws i * k to (i + 1) * k - 1, k being the draws of one
    password: the passwords of a batch are made from disjoint draws. *)
Theorem gerar_lista_batch_draws (fuel : nat) (qtd L : Z) (require_all : bool)
    (g : Rng) :
  1 ≤ qtd ≤ 10000 → valid_policy L require_all →
  ∃ l, gerar_lista fuel qtd L false require_all g
       = (Returned l, apos L require_all (Z.to_nat qtd) g)
       ∧ ∀ i, (i < Z.to_nat qtd)%nat →
              ∃ s, l !! i = Some s
                   ∧ gerar_senha L require_all (apos L require_all i g)
                     = (Returned s, apos L require_all (S i) g).
Proof.
  intros Hq Hv. exists (geradas (Z.to_nat qtd) L require_all g). split.
  - rewrite gerar_lista_stages.
    assert (validacao qtd L false require_all = None) as ->.
    { apply validacao_None. split_and!; [lia|lia|done|intros [=]]. }
    unfold geracao. cbn [negb]. by apply repeatM_gerar_senha_state.
  - intros i Hi. by apply geradas_lookup.
Qed.

Lemma gerar_lista_batch_draws_witness :
  ∃ l, gerar_lista 0 3 4 false true ids = (Returned l, mkRng (outcomes ids) 21)
       ∧ l !! 2%nat = Some "H4Pq".
Proof.
  destruct (gerar_lista_batch_draws 0 3 4 true ids) as (l & Hl & Hi).
  - lia.
  - split; [unfold MIN_LENGTH, MAX_LENGTH; lia | intros _; lia].
  - exists l. split; [exact Hl|].
    destruct (Hi 2%nat ltac:(lia)) as (s & Hs & Hg). rewrite Hs. f_equal.
    assert (gerar_senha 4 true (apos 4 true 2 ids)
            = (Returned "H4Pq", apos 4 true 3 ids)) as Hc by (by vm_compute).
    rewrite Hc in Hg. by injection Hg.
Defined.

(** X6. [gerar_lista] raises [InfeasibleUniqueRequest] only for unique
    requests without [require_all] of length 1 with more than 62 passwords or
    of length 2 with more than 3844, the count being at most 10000; from
    length 3 on, and always with [require_all], every valid unique request
    passes the feasibility check. *)
Theorem gerar_lista_infeasible_iff (fuel : nat) (qtd L : Z)
    (unique require_all : bool) (g : Rng) :
  (∃ total, (gerar_lista fuel qtd L unique require_all g).1
            = Raised (InfeasibleUniqueRequest qtd total L))
  ↔ unique = true ∧ require_all = false
    ∧ ((L = 1 ∧ 62 < qtd ≤ 10000) ∨ (L = 2 ∧ 3844 < qtd ≤ 10000)).
Proof.
  rewrite gerar_lista_stages. split.
  - intros (total & Hr).
    destruct (validacao qtd L unique require_all) as [e|] eqn:Ev.
    + cbn [fst] in Hr. injection Hr as ->.
      destruct (InfeasibleUniqueRequest_other qtd total L) as (N1 & N2 & N3).
      unfold validacao, MIN_LENGTH, MAX_LENGTH in Ev.
      destruct (qtd <? 1) eqn:E1; cbn [orb] in Ev; [by injection Ev|].
      destruct (qtd >? 10000) eqn:E2; [by injection Ev|].
      destruct (L <? 1) eqn:E3; cbn [orb] in Ev; [by injection Ev|].
      destruct (L >? 64) eqn:E4; [by injection Ev|].
      destruct (require_all && (L <? 3)) eqn:E5; [by injection Ev|].
      cbv zeta in Ev. change (Z.of_nat (String.length CHARSET)) with 62 in Ev.
      destruct unique; cbn [andb] in Ev; [|done].
      destruct (qtd >? 62 ^ L) eqn:E6; [|done].
      assert (L < 3) as HL3.
      { destruct (Z_lt_dec L 3) as [|Hge]; [done|].
        pose proof (Z.pow_le_mono_r 62 3 L ltac:(lia) ltac:(lia)) as Hp.
        change (62 ^ 3) with 238328 in Hp. lia. }
      split; [done|]. split.
      { destruct require_all; [|done]. cbn [andb] in E5. lia. }
      assert (L = 1 ∨ L = 2) as [-> | ->] by lia.
      * left. change (62 ^ 1) with 62 in E6. lia.
      * right. change (62 ^ 2) with 3844 in E6. lia.
    + pose proof (geracao_outcome fuel qtd L unique require_all g) as Hg.
      apply validacao_None in Ev as (Hq & Hv & _).
      destruct (geracao fuel qtd L unique require_all g) as [[l| |] g'];
        cbn [fst] in Hr; [done| |done].
      exfalso. apply Hg; [lia|done].
  - intros (-> & -> & [[-> Hq] | [-> Hq]]).
    + exists (62 ^ 1). rewrite validacao_infeasible; [done|lia| |lia].
      split; [unfold MIN_LENGTH, MAX_LENGTH; lia | intros [=]].
    + exists (62 ^ 2). rewrite validacao_infeasible; [done|lia| |lia].
      split; [unfold MIN_LENGTH, MAX_LENGTH; lia | intros [=]].
Qed.

Lemma gerar_lista_infeasible_iff_witness :
  (∃ total, (gerar_lista 0 100 1 true false ids).1
            = Raised (InfeasibleUniqueRequest 100 total 1))
  ∧ ¬ ∃ total, (gerar_lista 0 10000 3 true false ids).1
               = Raised (InfeasibleUniqueRequest 10000 total 3).
Proof.
  split.
  - apply (gerar_lista_infeasible_iff 0 100 1 true false ids).
    split_and!; [done|done|]. left. lia.
  - intros H. apply (gerar_lista_infeasible_iff 0 10000 3 true false ids) in H.
    destruct H as (_ & _ & [[? _]|[? _]]); lia.
Defined.

Lemma shuffle_permutations_witness :
  ∃ g, (shuffle (chars "0Aa7") g).1 = chars "a7A0".
Proof.
  apply (shuffle_permutations (chars "0Aa7") (chars "a7A0")).
  apply (bool_decide_unpack _). by vm_compute.
Defined.

(** X7. When a unique batch returns, it has called [gerar_senha] k times for
    the least k at which the passwords generated are [qtd] distinct ones, it
    has made k times the draws of one password, and the list it returns
    holds, once each, exactly the passwords of these k calls: only repeats
    are dropped, and the loop stops at the first moment it can. *)
Theorem gerar_lista_unique_first_distinct (fuel : nat) (qtd L : Z)
    (require_all : bool) (g g' : Rng) (l : list string) :
  gerar_lista fuel qtd L true require_all g = (Returned l, g') →
  ∃ k, (Z.to_nat qtd ≤ k ≤ fuel)%nat
       ∧ NoDup l
       ∧ (∀ s, s ∈ l ↔ s ∈ geradas k L require_all g)
       ∧ g' = apos L require_all k g
       ∧ Z.of_nat (size (conjunto (geradas k L require_all g))) = qtd
       ∧ ∀ j, (j < k)%nat →
              Z.of_nat (size (conjunto (geradas j L require_all g))) < qtd.
Proof.
  intros Hl. apply gerar_lista_returned_valid in Hl as (Hq & Hv & _ & Hg).
  unfold geracao in Hg. cbn [negb] in Hg. unfold bind, ret in Hg.
  pose proof (unicas_invariant fuel qtd L require_all ∅ g Hv) as Hinv.
  destruct (unicas fuel qtd L require_all ∅ g) as [[r| |] g1] eqn:Hr; [|done|done].
  injection Hg as <- <-.
  destruct Hinv as (Hsz & _ & _).
  { intros x Hx. by apply not_elem_of_empty in Hx. }
  { rewrite size_empty. lia. }
  destruct (unicas_result _ _ _ _ _ _ _ _ Hv Hr) as (k & Hk & Hre & -> & _ & Hmin).
  rewrite (left_id_L ∅ (∪)) in Hre. subst r.
  exists k. split_and!.
  - pose proof (conjunto_size_le (geradas k L require_all g)) as Hle.
    rewrite geradas_length in Hle by done. lia.
  - done.
  - apply NoDup_elements.
  - intros s. rewrite elem_of_elements. unfold conjunto.
    by rewrite elem_of_list_to_set.
  - done.
  - done.
  - intros j Hj. specialize (Hmin j Hj). by rewrite (left_id_L ∅ (∪)) in Hmin.
Qed.

Lemma gerar_lista_unique_first_distinct_witness :
  ∃ k, (3 ≤ k ≤ 7)%nat
       ∧ (gerar_lista 7 3 1 true false (fonte 1 false (λ j, j / 2)%nat zeros)).2
         = apos 1 false k (fonte 1 false (λ j, j / 2)%nat zeros).
Proof.
  destruct (gerar_lista_unique_first_distinct 7 3 1 false
              (fonte 1 false (λ j, j / 2)%nat zeros)
              (gerar_lista 7 3 1 true false (fonte 1 false (λ j, j / 2)%nat zeros)).2
              ["1"; "2"; "0"])
    as (k & Hk & _ & _ & Hg & _); [by vm_compute|].
  exists k. split; [exact Hk | exact Hg].
Defined.

(** X8. When the first [qtd] passwords generated are pairwise distinct, a
    feasible unique batch returns after [qtd] calls, with the same passwords
    (in some order) and the same draws made as the batch without [unique]:
    asking for uniqueness changes the run only when a password repeats. *)
Theorem gerar_lista_unique_without_collision (qtd L : Z) (require_all : bool)
    (g : Rng) :
  1 ≤ qtd ≤ 10000 → valid_policy L require_all → qtd ≤ 62 ^ L →
  NoDup (geradas (Z.to_nat qtd) L require_all g) →
  ∃ l, gerar_lista (Z.to_nat qtd) qtd L true require_all g
       = (Returned l, apos L require_all (Z.to_nat qtd) g)
       ∧ l ≡ₚ geradas (Z.to_nat qtd) L require_all g
       ∧ gerar_lista 0 qtd L false require_all g
         = (Returned (geradas (Z.to_nat qtd) L require_all g),
            apos L require_all (Z.to_nat qtd) g).
Proof.
  intros Hq Hv Hcap Hnd. set (n := Z.to_nat qtd) in *.
  assert (Hsz : ∀ k, (k ≤ n)%nat →
                     size (conjunto (geradas k L require_all g)) = k).
  { intros k Hk. rewrite <- (geradas_take n k) by done. unfold conjunto.
    rewrite size_list_to_set.
    - rewrite length_take, geradas_length by done. lia.
    - rewrite <- (take_drop k (geradas n L require_all g)) in Hnd.
      by apply NoDup_app in Hnd as [? _]. }
  destruct (unicas_returns n qtd L require_all ∅ g Hv) as (r & g1 & Hr).
  { rewrite (left_id_L ∅ (∪)), Hsz by done. lia. }
  destruct (unicas_result _ _ _ _ _ _ _ _ Hv Hr) as (k & Hk & Hre & -> & Hge & Hmin).
  rewrite (left_id_L ∅ (∪)) in Hre. subst r.
  assert (k = n) as ->.
  { rewrite Hsz in Hge by done. lia. }
  exists (elements (conjunto (geradas n L require_all g))). split_and!.
  - rewrite gerar_lista_stages.
    assert (validacao qtd L true require_all = None) as ->
      by (apply validacao_None; auto).
    unfold geracao. cbn [negb]. unfold bind. by rewrite Hr.
  - unfold conjunto. by apply elements_list_to_set.
  - rewrite gerar_lista_stages.
    assert (validacao qtd L false require_all = None) as ->.
    { apply validacao_None. split_and!; [lia|lia|done|intros [=]]. }
    unfold geracao. cbn [negb]. by apply repeatM_gerar_senha_state.
Qed.

Lemma gerar_lista_unique_without_collision_witness :
  ∃ l, gerar_lista 3 3 4 true true ids = (Returned l, apos 4 true 3 ids)
       ∧ l ≡ₚ ["B3c0"; "jI7A"; "H4Pq"].
Proof.
  destruct (gerar_lista_unique_without_collision 3 4 true ids) as (l & H1 & H2 & _).
  - lia.
  - split; [unfold MIN_LENGTH, MAX_LENGTH; lia | intros _; lia].
  - lia.
  - apply (bool_decide_unpack _). by vm_compute.
  - exists l. split; [exact H1 | exact H2].
Defined.

(** X9. A batch that [gerar_lista] returned is saved by [salvar_csv], on a
    path that can be written, as the line [senha] and one line for each
    password, in the order of the list, each ended by [\r\n] and none of
    them quoted; no other file changes. *)
Theorem salvar_csv_generated (fuel : nat) (qtd L : Z) (unique require_all : bool)
    (g g' : Rng) (senhas : list string) (caminho : string) (d : Disco) :
  gerar_lista fuel qtd L unique require_all g = (Returned senhas, g') →
  gravavel d caminho = true →
  ∃ d', salvar_csv caminho senhas d = Feito d'
        ∧ arquivos d' !! caminho
          = Some ("senha" +:+ CRLF
                    +:+ String.concat EmptyString ((λ s, s +:+ CRLF) <$> senhas))
        ∧ (∀ p, p ≠ caminho → arquivos d' !! p = arquivos d !! p)
        ∧ gravavel d' = gravavel d.
Proof.
  intros Hg Hw. unfold salvar_csv. rewrite Hw. eexists. split; [done|].
  cbn [arquivos gravavel]. split_and!; [|intros p Hp; by rewrite lookup_insert_ne|done].
  rewrite lookup_insert_eq. f_equal. apply conteudo_csv_senhas.
  pose proof (gerar_lista_returned_valid _ _ _ _ _ _ _ _ Hg) as (_ & [HL _] & _).
  apply gerar_lista_returned_senhas in Hg as (_ & _ & Hall).
  eapply senhas_geradas_plain; [|exact Hall]. unfold MIN_LENGTH in HL. lia.
Qed.

Lemma salvar_csv_generated_witness :
  ∃ d', salvar_csv "/tmp/a.csv" ["B3c0"; "jI7A"; "H4Pq"] disco_exemplo = Feito d'
        ∧ arquivos d' !! "/tmp/a.csv"
          = Some ("senha" +:+ CRLF +:+ "B3c0" +:+ CRLF +:+ "jI7A" +:+ CRLF
                    +:+ "H4Pq" +:+ CRLF).
Proof.
  destruct (salvar_csv_generated 0 3 4 false true ids (apos 4 true 3 ids)
              ["B3c0"; "jI7A"; "H4Pq"] "/tmp/a.csv" disco_exemplo)
    as (d' & H1 & H2 & _); [by vm_compute|by vm_compute|].
  exists d'. split; [exact H1 | exact H2].
Defined.

(** X10. The file that [salvar_csv] writes tells the passwords: two lists of
    non-empty passwords over the alphabet that give the same file are the
    same list, in the same order. *)
Theorem conteudo_csv_inj (l1 l2 : list string) :
  Forall (λ s, s ≠ EmptyString ∧ in_alphabet s) l1 →
  Forall (λ s, s ≠ EmptyString ∧ in_alphabet s) l2 →
  conteudo_csv l1 = conteudo_csv l2 → l1 = l2.
Proof.
  intros H1 H2. rewrite !conteudo_csv_senhas by done.
  intros Heq. apply append_inj_l, append_inj_l in Heq.
  by apply linhas_csv_inj.
Qed.

Lemma conteudo_csv_inj_witness :
  conteudo_csv ["B3c0"; "jI7A"] = conteudo_csv ["B3c0"; "jI7A"]
  ∧ conteudo_csv ["B3c0"; "jI7A"] ≠ conteudo_csv ["B3c0j"; "I7A"].
Proof.
  assert (Hp : ∀ l, Forall (λ s, s ≠ EmptyString
                       ∧ Forall (λ c, c ∈ chars CHARSET) (chars s)) l →
                    Forall (λ s, s ≠ EmptyString ∧ in_alphabet s) l) by done.
  split; [reflexivity|]. intros H.
  apply (conteudo_csv_inj ["B3c0"; "jI7A"] ["B3c0j"; "I7A"]) in H;
    [discriminate| |]; apply Hp, (bool_decide_unpack _); by vm_compute.
Defined.

(** X11. In every state of the event loop the window shows the current
    passwords: it is empty when there are none, and otherwise it holds the
    summary line, with their number and their length, an empty line and the
    passwords, one on each line; they are at most 10000 passwords over the
    alphabet, all of the length last used, which is between 1 and 64. *)
Theorem alcancavel_mostra_as_senhas (h : Host) (st : Estado) :
  alcancavel h st →
  1 ≤ ultimo_length st ≤ 64
  ∧ saida st = match senhas_atuais st with
               | [] => EmptyString
               | _ :: _ => exibe (senhas_atuais st) (ultimo_length st)
               end
  ∧ Z.of_nat (List.length (senhas_atuais st)) ≤ 10000
  ∧ Forall (λ s, Z.of_nat (String.length s) = ultimo_length st ∧ in_alphabet s)
           (senhas_atuais st).
Proof.
  intros Hr. apply alcancavel_coerente in Hr as (HL & Hs & _).
  split; [done|]. destruct (senhas_atuais st) as [|s l].
  - split_and!; [done|cbn; lia|done].
  - by destruct Hs as (? & ? & ?).
Qed.

Lemma alcancavel_mostra_as_senhas_witness :
  saida estado_gerado
  = "Gerado: 3 senhas (comprimento = 12)." +:+ String LF (String LF EmptyString)
      +:+ "BA85973B64c0" +:+ String LF EmptyString
      +:+ "3YRXVTSWzUQY" +:+ String LF EmptyString
      +:+ "npVwsvtqr6ou" +:+ String LF EmptyString.
Proof.
  destruct (alcancavel_mostra_as_senhas host_exemplo estado_gerado)
    as (_ & Hs & _).
  - apply (alcancavel_passo host_exemplo 0 GERAR valores_exemplo None
             (inicial "clip" disco_exemplo ids)).
    + apply alcancavel_inicial.
    + vm_compute. reflexivity.
  - rewrite Hs. vm_compute. reflexivity.
Defined.

(** X12. In every state of the event loop the file last saved, when the loop
    remembers one, holds the passwords that the window shows now: its path
    is not empty, there are passwords, and the file is the line [senha]
    and the current passwords, one on each line. *)
Theorem alcancavel_arquivo_salvo (h : Host) (st : Estado) (p : string) :
  alcancavel h st → ultimo_arquivo st = Some p →
  p ≠ EmptyString ∧ senhas_atuais st ≠ []
  ∧ arquivos (disco st) !! p
    = Some ("senha" +:+ CRLF
              +:+ String.concat EmptyString
                    ((λ s, s +:+ CRLF) <$> senhas_atuais st)).
Proof.
  intros Hr Hp. apply alcancavel_coerente in Hr.
  pose proof (coerente_plain st Hr) as Hplain.
  destruct Hr as (_ & _ & Hf). destruct (Hf p Hp) as (H1 & H2 & H3).
  split_and!; [done|done|]. by rewrite H3, conteudo_csv_senhas.
Qed.

Lemma alcancavel_arquivo_salvo_witness :
  arquivos (disco estado_salvo) !! "/tmp/a.csv"
  = Some ("senha" +:+ CRLF +:+ "BA85973B64c0" +:+ CRLF
            +:+ "3YRXVTSWzUQY" +:+ CRLF +:+ "npVwsvtqr6ou" +:+ CRLF).
Proof.
  destruct (alcancavel_arquivo_salvo host_exemplo estado_salvo "/tmp/a.csv")
    as (_ & _ & Hf).
  - apply (alcancavel_passo host_exemplo 0 SALVAR valores_exemplo
             (Some "/tmp/a.csv") estado_gerado).
    + apply (alcancavel_passo host_exemplo 0 GERAR valores_exemplo None
               (inicial "clip" disco_exemplo ids)).
      * apply alcancavel_inicial.
      * vm_compute. reflexivity.
    + vm_compute. reflexivity.
  - reflexivity.
  - rewrite Hf. vm_compute. reflexivity.
Defined.

(** X13. When the handler of [-GERAR-] is done, either it has shown one
    error and changed nothing else (the passwords, the window, the file last
    saved and the entropy source are as before), or it has replaced the
    passwords by a batch of [gerar_lista] for the count that the field
    [-QTD-] reads as and the length that the field [-LEN-] reads as, 12 when
    it is blank, has shown them, forgotten the file last saved and shown no
    popup. *)
Theorem gerar_ou_avisa (h : Host) (fuel : nat) (v : Valores)
    (resp : option string) (st st' : Estado) :
  passo h fuel GERAR v resp st = Segue st' →
  (∃ msg, st' = avisa (PopupError msg) st)
  ∨ ∃ qtd L,
      py_int h (py_strip h (v_QTD v)) = Some qtd
      ∧ ((py_strip h (v_LEN v) = EmptyString ∧ L = 12)
         ∨ (py_strip h (v_LEN v) ≠ EmptyString
            ∧ py_int h (py_strip h (v_LEN v)) = Some L))
      ∧ 1 ≤ qtd ≤ 10000 ∧ 1 ≤ L ≤ 64
      ∧ gerar_lista fuel qtd L (v_UNQ v) (v_REQ v) (sysrand st)
        = (Returned (senhas_atuais st'), sysrand st')
      ∧ Z.of_nat (List.length (senhas_atuais st')) = qtd
      ∧ ultimo_length st' = L
      ∧ ultimo_arquivo st' = None
      ∧ saida st' = exibe (senhas_atuais st') L
      ∧ clipboard st' = clipboard st ∧ disco st' = disco st
      ∧ avisos st' = avisos st.
Proof.
  cbn [passo]. intros Hg. apply ao_gerar_cases in Hg as [?|Hg]; [by left|right].
  destruct Hg as (qtd & L & g' & Hg & Hq & Hlen & HL & Hst).
  exists qtd, L. rewrite Hst. cbn.
  pose proof (gerar_lista_returned_senhas _ _ _ _ _ _ _ _ Hg) as (? & ? & _).
  assert ((py_strip h (v_LEN v) = EmptyString ∧ L = 12)
          ∨ (py_strip h (v_LEN v) ≠ EmptyString
             ∧ py_int h (py_strip h (v_LEN v)) = Some L)) as Hfield.
  { case_bool_decide; [left|right]; split; try done. by injection Hlen. }
  split_and!; try done; lia.
Qed.

Lemma gerar_ou_avisa_witness :
  (∃ msg, estado_gerado
          = avisa (PopupError msg) (inicial "clip" disco_exemplo ids))
  ∨ ∃ qtd L,
      py_int host_exemplo (py_strip host_exemplo (v_QTD valores_exemplo)) = Some qtd
      ∧ ((py_strip host_exemplo (v_LEN valores_exemplo) = EmptyString ∧ L = 12)
         ∨ (py_strip host_exemplo (v_LEN valores_exemplo) ≠ EmptyString
            ∧ py_int host_exemplo (py_strip host_exemplo (v_LEN valores_exemplo))
              = Some L))
      ∧ 1 ≤ qtd ≤ 10000 ∧ 1 ≤ L ≤ 64
      ∧ gerar_lista 0 qtd L false true ids
        = (Returned (senhas_atuais estado_gerado), sysrand estado_gerado)
      ∧ ultimo_length estado_gerado = L.
Proof.
  destruct (gerar_ou_avisa host_exemplo 0 valores_exemplo None
              (inicial "clip" disco_exemplo ids) estado_gerado)
    as [?|(qtd & L & H1 & H2 & H3 & H4 & H5 & _ & H6 & _)];
    [by vm_compute|by left|right].
  exists qtd, L. split_and!; try done; lia.
Defined.

(** X14. Without [-UNQ-] the handler of [-GERAR-] always comes back with the
    passwords: when the count field reads as a number from 1 to 10000 and
    the length field is blank, which stands for 12, or reads as a number
    from 1 to 64 (3 at least with [-REQ-]), it shows no error, and the new
    state has that many passwords of that length, each as the policy asks. *)
Theorem gerar_sem_unicas_segue (h : Host) (fuel : nat) (v : Valores)
    (resp : option string) (st : Estado) (qtd L : Z) :
  v_UNQ v = false →
  py_int h (py_strip h (v_QTD v)) = Some qtd → 1 ≤ qtd ≤ 10000 →
  (py_strip h (v_LEN v) = EmptyString ∧ L = 12)
  ∨ (py_strip h (v_LEN v) ≠ EmptyString
     ∧ py_int h (py_strip h (v_LEN v)) = Some L ∧ 1 ≤ L ≤ 64
     ∧ (v_REQ v = true → 3 ≤ L)) →
  ∃ st', passo h fuel GERAR v resp st = Segue st'
         ∧ Z.of_nat (List.length (senhas_atuais st')) = qtd
         ∧ Forall (contract L (v_REQ v)) (senhas_atuais st')
         ∧ ultimo_length st' = L
         ∧ saida st' = exibe (senhas_atuais st') L
         ∧ avisos st' = avisos st.
Proof.
  intros Hu Hq Hqr HL. cbn [passo]. unfold ao_gerar. rewrite Hq. cbv zeta.
  assert ((if bool_decide (py_strip h (v_LEN v) = EmptyString) then Some 12
           else py_int h (py_strip h (v_LEN v))) = Some L
          ∧ valid_policy L (v_REQ v)) as [-> Hv].
  { unfold valid_policy, MIN_LENGTH, MAX_LENGTH.
    destruct HL as [[Hb ->]|(Hb & Hi & Hr & Hp)].
    - rewrite bool_decide_eq_true_2 by done. split; [done|]. lia.
    - rewrite bool_decide_eq_false_2 by done. split; [done|]. by split. }
  pose proof Hv as [Hr _]. unfold MIN_LENGTH, MAX_LENGTH in *.
  replace (L <? 1) with false by lia. replace (L >? 64) with false by lia.
  cbn [orb]. rewrite gerar_lista_stages.
  assert (validacao qtd L (v_UNQ v) (v_REQ v) = None) as ->.
  { apply validacao_None. split_and!; [lia|lia|done|]. rewrite Hu. intros [=]. }
  unfold geracao. rewrite Hu. cbn [negb].
  destruct (repeatM_gerar_senha (Z.to_nat qtd) L (v_REQ v) (sysrand st) Hv)
    as (l & g' & -> & Hn & Hall).
  eexists. split; [done|]. cbn. split_and!; [lia|done|done|done|done].
Qed.

Lemma gerar_sem_unicas_segue_witness :
  ∃ st', passo host_exemplo 0 GERAR valores_exemplo None
               (inicial "clip" disco_exemplo ids) = Segue st'
         ∧ Z.of_nat (List.length (senhas_atuais st')) = 3
         ∧ ultimo_length st' = 12.
Proof.
  destruct (gerar_sem_unicas_segue host_exemplo 0 valores_exemplo None
              (inicial "clip" disco_exemplo ids) 3 12)
    as (st' & H1 & H2 & _ & H3 & _).
  - reflexivity.
  - vm_compute. reflexivity.
  - lia.
  - left. split; [vm_compute|]; reflexivity.
  - exists st'. by split_and!.
Defined.

(** X15. What a turn of the loop leaves alone.  A file changes only when
    [-SALVAR-] is answered with its path, and it then holds the line [senha]
    and the current passwords; the clipboard changes only on the two copy
    events; the entropy source is drawn from only on [-GERAR-]; the
    passwords change only on [-GERAR-] and [-LIMPAR-]. *)
Theorem passo_deixa (h : Host) (fuel : nat) (ev : Evento) (v : Valores)
    (resp : option string) (st st' : Estado) :
  passo h fuel ev v resp st = Segue st' →
  (∀ p, arquivos (disco st') !! p ≠ arquivos (disco st) !! p →
        ev = SALVAR ∧ resp = Some p ∧ senhas_atuais st ≠ []
        ∧ arquivos (disco st') !! p = Some (conteudo_csv (senhas_atuais st)))
  ∧ (clipboard st' ≠ clipboard st → ev = COPIA_ULT ∨ ev = COPIA_TOD)
  ∧ (sysrand st' ≠ sysrand st → ev = GERAR)
  ∧ (senhas_atuais st' ≠ senhas_atuais st → ev = GERAR ∨ ev = LIMPAR).
Proof.
  destruct ev; cbn [passo]; try done.
  - intros Hg. apply ao_gerar_cases in Hg as [(msg & ->)|Hg].
    { split_and!; [intros p Hp|..]; done. }
    destruct Hg as (qtd & L & g' & _ & _ & _ & _ & ->).
    split_and!; [intros p Hp|..]; cbn in *; auto; done.
  - unfold ao_salvar. destruct (senhas_atuais st) as [|s l] eqn:Es.
    { intros [= <-]. split_and!; [intros p Hp|..]; done. }
    destruct resp as [caminho|];
      [|intros [= <-]; split_and!; [intros p Hp|..]; done].
    case_bool_decide;
      [intros [= <-]; split_and!; [intros p Hp|..]; done|].
    unfold salvar_csv. destruct (gravavel (disco st) caminho);
      intros [= <-]; cbn; rewrite ?Es; (split_and!; [intros p Hp|..]);
      try done.
    destruct (decide (p = caminho)) as [->|Hne].
    + by rewrite lookup_insert_eq.
    + by rewrite lookup_insert_ne in Hp.
  - unfold ao_abrir. destruct (ultimo_arquivo st); [case_bool_decide|];
      intros [= <-]; (split_and!; [intros p Hp|..]); done.
  - unfold ao_limpar. intros [= <-]. split_and!; [intros p Hp|..]; cbn; auto; done.
  - unfold ao_copiar_ultima. cbv zeta. destruct (ultima_linha _);
      intros [= <-]; (split_and!; [intros p Hp|..]); cbn; auto; done.
  - unfold ao_copiar_todas. destruct (senhas_atuais st) eqn:Es;
      intros [= <-]; (split_and!; [intros p Hp|..]); cbn; auto;
      try done; by rewrite Es.
Qed.

Lemma passo_deixa_witness :
  arquivos (disco estado_salvo) !! "/tmp/a.csv"
  ≠ arquivos (disco estado_gerado) !! "/tmp/a.csv"
  ∧ arquivos (disco estado_salvo) !! "/tmp/a.csv"
    = Some (conteudo_csv (senhas_atuais estado_gerado)).
Proof.
  destruct (passo_deixa host_exemplo 0 SALVAR valores_exemplo (Some "/tmp/a.csv")
              estado_gerado estado_salvo) as (Hd & _); [by vm_compute|].
  assert (Hne : arquivos (disco estado_salvo) !! "/tmp/a.csv"
                ≠ arquivos (disco estado_gerado) !! "/tmp/a.csv")
    by (vm_compute; discriminate).
  split; [exact Hne|]. by destruct (Hd _ Hne) as (_ & _ & _ & H).
Defined.

(** X16. [-COPIA-ULT-] reads the last password back from the text of the
    window.  On a host whose [strip] and [splitlines] are Python's on ASCII
    text, in every state of the loop: when there are passwords the
    clipboard takes the last of them, never the summary line, and when
    there are none the clipboard is left as it is. *)
Theorem copiar_ultima_copia_a_ultima (h : Host) (fuel : nat) (v : Valores)
    (resp : option string) (st : Estado) :
  host_ascii h → alcancavel h st →
  passo h fuel COPIA_ULT v resp st
  = match last (senhas_atuais st) with
    | Some s =>
        Segue (avisa (Popup "Última senha copiada!")
                 (mkEstado (senhas_atuais st) (ultimo_arquivo st)
                           (ultimo_length st) (saida st) s (disco st)
                           (sysrand st) (avisos st)))
    | None => Segue (avisa (Popup "Nada para copiar.") st)
    end.
Proof.
  intros Hh Hr. apply alcancavel_coerente in Hr.
  pose proof (coerente_plain st Hr) as Hplain. destruct Hr as (_ & Hs & _).
  cbn [passo]. unfold ao_copiar_ultima. cbv zeta.
  destruct (last (senhas_atuais st)) as [s|] eqn:El.
  - apply last_Some in El as [init Hi]. rewrite Hi in Hs, Hplain.
    destruct (init ++ [s]) as [|s0 l0] eqn:Ei; [by destruct init|].
    destruct Hs as (-> & _ & _). rewrite <- Ei in *.
    rewrite (linhas_exibe h init s); [done|done| |].
    + eapply Forall_impl; [exact Hplain|]. by intros x [_ ?].
    + apply Forall_app in Hplain as [_ Hp]. apply Forall_inv in Hp. tauto.
  - apply last_None in El. rewrite El in Hs. rewrite Hs.
    destruct (Hh EmptyString) as [-> _]; [constructor|].
    destruct (Hh (strip_ascii EmptyString)) as [_ ->]; [constructor|]. done.
Qed.

Lemma copiar_ultima_copia_a_ultima_witness :
  ∃ st', passo host_exemplo 0 COPIA_ULT valores_exemplo None estado_gerado
         = Segue st'
         ∧ clipboard st' = "npVwsvtqr6ou".
Proof.
  pose proof (copiar_ultima_copia_a_ultima host_exemplo 0 valores_exemplo None
                estado_gerado) as H.
  eexists. split.
  - apply H.
    + intros s _. split; reflexivity.
    + apply (alcancavel_passo host_exemplo 0 GERAR valores_exemplo None
               (inicial "clip" disco_exemplo ids)).
      * apply alcancavel_inicial.
      * vm_compute. reflexivity.
  - reflexivity.
Defined.
